(** * Verification of the WhisperX transcription task queue

    A shallow embedding of [app/services/task_queue.py] (the in-memory job
    store, the admission semaphore and the [process_task] coroutine), of
    the [TaskStatus]/[TaskProgress] models of [app/models.py] and of the
    [delete_task] route of [app/routes/transcribe.py].

    Modelling conventions:
    - a Python [dict] is a [gmap]; the insertion order kept by
      [OrderedDict] is not observed by any operation modelled here;
    - [datetime] values are integers counting microseconds; every call of
      [datetime.utcnow()] becomes an explicit argument [now];
    - [uuid.uuid4()] becomes an explicit argument [tid];
    - [float] is Rocq's primitive binary64 [float];
    - [threading.Lock] makes each store operation atomic: one operation
      is one function on the queue state;
    - the coroutine [process_task] is cut at its two suspension points
      ([async with self._semaphore] and [await service.transcribe]); the
      pipeline is an external collaborator whose calls are events. *)

From Stdlib Require Import ZArith String List Bool PrimFloat.
From stdpp Require Import base option list gmap strings fin_maps pretty.

Local Open Scope string_scope.

(** ** app/models.py *)

Inductive TaskStatus : Set :=
  | PENDING
  | PROCESSING
  | TRANSCRIBING
  | ALIGNING
  | DIARIZING
  | COMPLETED
  | FAILED.

#[global] Instance TaskStatus_eq_dec : EqDecision TaskStatus.
Proof. solve_decision. Defined.

(** [TaskStatus] is a [str] enum: its [.value]. *)
Definition TaskStatus_value (s : TaskStatus) : string :=
  match s with
  | PENDING => "pending"
  | PROCESSING => "processing"
  | TRANSCRIBING => "transcribing"
  | ALIGNING => "aligning"
  | DIARIZING => "diarizing"
  | COMPLETED => "completed"
  | FAILED => "failed"
  end.

Definition datetime : Set := Z.

Record TranscriptionOptions : Set := mkTranscriptionOptions {
  opt_language : option string;
  min_speakers : option Z;
  max_speakers : option Z;
  enable_diarization : bool;
  return_char_alignments : bool
}.

(** [TranscriptionOptions()] with every field at its default. *)
Definition TranscriptionOptions_default : TranscriptionOptions :=
  {| opt_language := None; min_speakers := None; max_speakers := None;
     enable_diarization := true; return_char_alignments := false |}.

Record WordSegment : Set := mkWordSegment {
  word : string;
  word_start : float;
  word_end : float;
  score : option float;
  word_speaker : option string
}.

Record TranscriptSegment : Set := mkTranscriptSegment {
  seg_start : float;
  seg_end : float;
  text : string;
  seg_speaker : option string;
  words : option (list WordSegment)
}.

Record TranscriptionResult : Set := mkTranscriptionResult {
  res_language : string;
  segments : list TranscriptSegment;
  word_segments : option (list WordSegment)
}.

(** [TaskProgress], with the two attributes [create_task] attaches to the
    instance ([_audio_path], [_options]); [None] there stands for an
    attribute that was never set ([getattr] with a default). *)
Record TaskProgress : Set := mkTaskProgress {
  task_id : string;
  status : TaskStatus;
  progress : float;
  message : string;
  created_at : datetime;
  started_at : option datetime;
  completed_at : option datetime;
  error : option string;
  result : option TranscriptionResult;
  _audio_path : option string;
  _options : option TranscriptionOptions
}.

(** The bound declared on the field: [Field(0.0, ge=0.0, le=100.0)]. *)
Definition progress_in_range (p : float) : bool :=
  PrimFloat.leb 0%float p && PrimFloat.leb p 100%float.

(** Attribute assignment [task.f = v]. *)
Definition set_status (v : TaskStatus) (t : TaskProgress) : TaskProgress :=
  mkTaskProgress (task_id t) v (progress t) (message t) (created_at t)
    (started_at t) (completed_at t) (error t) (result t) (_audio_path t) (_options t).

Definition set_progress (v : float) (t : TaskProgress) : TaskProgress :=
  mkTaskProgress (task_id t) (status t) v (message t) (created_at t)
    (started_at t) (completed_at t) (error t) (result t) (_audio_path t) (_options t).

Definition set_message (v : string) (t : TaskProgress) : TaskProgress :=
  mkTaskProgress (task_id t) (status t) (progress t) v (created_at t)
    (started_at t) (completed_at t) (error t) (result t) (_audio_path t) (_options t).

Definition set_started_at (v : option datetime) (t : TaskProgress) : TaskProgress :=
  mkTaskProgress (task_id t) (status t) (progress t) (message t) (created_at t)
    v (completed_at t) (error t) (result t) (_audio_path t) (_options t).

Definition set_completed_at (v : option datetime) (t : TaskProgress) : TaskProgress :=
  mkTaskProgress (task_id t) (status t) (progress t) (message t) (created_at t)
    (started_at t) v (error t) (result t) (_audio_path t) (_options t).

Definition set_error (v : option string) (t : TaskProgress) : TaskProgress :=
  mkTaskProgress (task_id t) (status t) (progress t) (message t) (created_at t)
    (started_at t) (completed_at t) v (result t) (_audio_path t) (_options t).

Definition set_result_field (v : option TranscriptionResult) (t : TaskProgress) : TaskProgress :=
  mkTaskProgress (task_id t) (status t) (progress t) (message t) (created_at t)
    (started_at t) (completed_at t) (error t) v (_audio_path t) (_options t).

(** [status in (TaskStatus.COMPLETED, TaskStatus.FAILED)] *)
Definition is_terminal (s : TaskStatus) : bool :=
  match s with
  | COMPLETED | FAILED => true
  | _ => false
  end.

(** ** app/services/task_queue.py: the store *)

(** [self._semaphore] is the number of free slots of the
    [asyncio.Semaphore]; [MAX_CONCURRENT_TASKS] is the setting it was
    built from. *)
Record TaskQueue : Type := mkTaskQueue {
  MAX_CONCURRENT_TASKS : nat;
  _tasks : gmap string TaskProgress;
  _task_results : gmap string TranscriptionResult;
  _semaphore : nat;
  _running_tasks : gset string
}.

Definition with_tasks (m : gmap string TaskProgress) (q : TaskQueue) : TaskQueue :=
  mkTaskQueue (MAX_CONCURRENT_TASKS q) m (_task_results q) (_semaphore q) (_running_tasks q).

Definition with_task_results (m : gmap string TranscriptionResult) (q : TaskQueue) : TaskQueue :=
  mkTaskQueue (MAX_CONCURRENT_TASKS q) (_tasks q) m (_semaphore q) (_running_tasks q).

Definition with_semaphore (n : nat) (q : TaskQueue) : TaskQueue :=
  mkTaskQueue (MAX_CONCURRENT_TASKS q) (_tasks q) (_task_results q) n (_running_tasks q).

Definition with_running_tasks (s : gset string) (q : TaskQueue) : TaskQueue :=
  mkTaskQueue (MAX_CONCURRENT_TASKS q) (_tasks q) (_task_results q) (_semaphore q) s.

(** [TaskQueue.__init__] *)
Definition TaskQueue_init (max_concurrent_tasks : nat) : TaskQueue :=
  {| MAX_CONCURRENT_TASKS := max_concurrent_tasks;
     _tasks := ∅;
     _task_results := ∅;
     _semaphore := max_concurrent_tasks;
     _running_tasks := ∅ |}.

(** [TaskQueue.create_task]; [tid] is the fresh [uuid4]. *)
Definition create_task (q : TaskQueue) (tid : string) (now : datetime)
    (audio_path : string) (options : TranscriptionOptions) : TaskQueue * string :=
  let task :=
    {| task_id := tid; status := PENDING; progress := 0%float;
       message := "Task queued"; created_at := now;
       started_at := None; completed_at := None; error := None;
       result := None;
       _audio_path := Some audio_path; _options := Some options |} in
  (with_tasks (<[tid := task]> (_tasks q)) q, tid).

(** [TaskQueue.get_task]: the record handed out is the stored object, and
    the joined result is written into it. *)
Definition get_task (q : TaskQueue) (tid : string) : TaskQueue * option TaskProgress :=
  match _tasks q !! tid with
  | None => (q, None)
  | Some task =>
      match _task_results q !! tid with
      | Some r =>
          let task' := set_result_field (Some r) task in
          (with_tasks (<[tid := task']> (_tasks q)) q, Some task')
      | None => (q, Some task)
      end
  end.

(** The body of [update_task] once the record has been looked up. *)
Definition update_record (now : datetime) (st : option TaskStatus)
    (pr : option float) (msg err : option string) (task : TaskProgress) : TaskProgress :=
  let task :=
    match st with
    | None => task
    | Some s =>
        let task := set_status s task in
        if bool_decide (s = PROCESSING) && bool_decide (started_at task = None)
        then set_started_at (Some now) task
        else if is_terminal s then set_completed_at (Some now) task
        else task
    end in
  let task := match pr with Some p => set_progress p task | None => task end in
  let task := match msg with Some m => set_message m task | None => task end in
  let task := match err with Some e => set_error (Some e) task | None => task end in
  task.

(** [TaskQueue.update_task] *)
Definition update_task (q : TaskQueue) (now : datetime) (tid : string)
    (st : option TaskStatus) (pr : option float) (msg err : option string) : TaskQueue :=
  match _tasks q !! tid with
  | None => q
  | Some task => with_tasks (<[tid := update_record now st pr msg err task]> (_tasks q)) q
  end.

(** [TaskQueue.set_result] *)
Definition set_result (q : TaskQueue) (tid : string) (r : TranscriptionResult) : TaskQueue :=
  with_task_results (<[tid := r]> (_task_results q)) q.

(** [sum(1 for t in self._tasks.values() if ...)] *)
Definition count_status (P : TaskStatus -> bool) (m : gmap string TaskProgress) : nat :=
  length (List.filter (fun kv : string * TaskProgress => P (status (snd kv))) (map_to_list m)).

Definition is_pending (s : TaskStatus) : bool :=
  bool_decide (s = PENDING).

Definition is_processing (s : TaskStatus) : bool :=
  match s with
  | PROCESSING | TRANSCRIBING | ALIGNING | DIARIZING => true
  | _ => false
  end.

Definition is_completed (s : TaskStatus) : bool :=
  bool_decide (s = COMPLETED).

Definition is_failed (s : TaskStatus) : bool :=
  bool_decide (s = FAILED).

Record Stats : Set := mkStats {
  pending : nat;
  processing : nat;
  completed : nat;
  failed : nat;
  total : nat
}.

(** [TaskQueue.get_stats] *)
Definition get_stats (q : TaskQueue) : Stats :=
  {| pending := count_status is_pending (_tasks q);
     processing := count_status is_processing (_tasks q);
     completed := count_status is_completed (_tasks q);
     failed := count_status is_failed (_tasks q);
     total := size (_tasks q) |}.

(** [(cutoff - task.created_at).total_seconds() / 3600 > max_age_hours],
    decided exactly on the microsecond counts (the rounding of the two
    float divisions is not modelled). *)
Definition age_exceeds (cutoff created : datetime) (max_age_hours : Z) : bool :=
  (max_age_hours * 3600000000 <? cutoff - created)%Z.

(** The first loop of [cleanup_old_tasks]: the list [old_tasks]. *)
Definition old_tasks (q : TaskQueue) (cutoff : datetime) (max_age_hours : Z) : list string :=
  fst <$> List.filter
    (fun kv : string * TaskProgress =>
       age_exceeds cutoff (created_at (snd kv)) max_age_hours
       && is_terminal (status (snd kv)))
    (map_to_list (_tasks q)).

(** One turn of the second loop: [del self._tasks[task_id]] and the
    guarded [del self._task_results[task_id]]. *)
Definition del_task (q : TaskQueue) (tid : string) : TaskQueue :=
  with_task_results (delete tid (_task_results q)) (with_tasks (delete tid (_tasks q)) q).

(** [TaskQueue.cleanup_old_tasks]; [cutoff] is its [datetime.utcnow()]. *)
Definition cleanup_old_tasks (q : TaskQueue) (cutoff : datetime) (max_age_hours : Z) : TaskQueue :=
  foldl del_task q (old_tasks q cutoff max_age_hours).

(** ** app/routes/transcribe.py: [delete_task] *)

Inductive HTTPException : Set :=
  | mkHTTPException (status_code : Z) (detail : string).

(** The route looks the task up with [get_task], answers 404 through
    [HTTPException] when there is none, and otherwise removes the record
    and its result under the queue's lock.  Removing the audio file is a
    file-system effect outside the queue (its failures are swallowed). *)
Definition delete_task (q : TaskQueue) (tid : string)
    : TaskQueue * (HTTPException + string) :=
  let (q1, task) := get_task q tid in
  match task with
  | None => (q1, inl (mkHTTPException 404 ("Task '" ++ tid ++ "' not found.")))
  | Some _ => (del_task q1 tid, inr ("Task '" ++ tid ++ "' deleted successfully"))
  end.

(** ** app/services/task_queue.py: [process_task] *)

(** How [await service.transcribe(...)] ends: with a result, with an
    [Exception] [e] (kept as [str(e)]), or with a [BaseException] that is
    not an [Exception] (such as [asyncio.CancelledError]), which
    [except Exception] does not catch. *)
Inductive Outcome : Set :=
  | Returns (r : TranscriptionResult)
  | Raises (str_e : string)
  | Cancelled.

(** The dictionary [status_map] of [progress_callback]. *)
Definition status_map : gmap string TaskStatus :=
  list_to_map
    [ ("loading_audio", PROCESSING);
      ("transcribing", TRANSCRIBING);
      ("aligning", ALIGNING);
      ("diarizing", DIARIZING);
      ("processing", PROCESSING);
      ("completed", PROCESSING) ].

(** The closure [progress_callback(status, progress)]. *)
Definition progress_callback (q : TaskQueue) (now : datetime) (tid : string)
    (stage : string) (p : float) : TaskQueue :=
  update_task q now tid
    (Some (default PROCESSING (status_map !! stage)))
    (Some p)
    (Some ("Status: " ++ stage))
    None.

(** [asyncio.Semaphore]: [acquire] goes through only when a slot is free
    ([None]: the caller stays suspended); [release] gives one back. *)
Definition semaphore_acquire (q : TaskQueue) : option TaskQueue :=
  match _semaphore q with
  | O => None
  | S n => Some (with_semaphore n q)
  end.

Definition semaphore_release (q : TaskQueue) : TaskQueue :=
  with_semaphore (S (_semaphore q)) q.

(** Where the [try] block stands once its synchronous prefix has run:
    it has executed a [return], or it is at [await service.transcribe]. *)
Inductive Entered : Set :=
  | EnterReturn
  | EnterAwait (audio_path : string) (options : TranscriptionOptions).

(** From [self._running_tasks.add(task_id)] up to the [await]. *)
Definition process_task_enter (q : TaskQueue) (now : datetime) (tid : string)
    : TaskQueue * Entered :=
  let q := with_running_tasks ({[tid]} ∪ _running_tasks q) q in
  match _tasks q !! tid with
  | None => (q, EnterReturn)
  | Some task =>
      let options := default TranscriptionOptions_default (_options task) in
      match _audio_path task with
      | None | Some "" =>
          (update_task q now tid (Some FAILED) None None (Some "Audio path not found"),
           EnterReturn)
      | Some audio_path =>
          (update_task q now tid (Some PROCESSING) (Some 0%float)
             (Some "Starting transcription") None,
           EnterAwait audio_path options)
      end
  end.

(** The [finally] clause. *)
Definition process_task_finally (q : TaskQueue) (tid : string) : TaskQueue :=
  with_running_tasks (_running_tasks q ∖ {[tid]}) q.

(** From the end of the [await] to the end of the [try] statement; the
    boolean tells whether an exception leaves the statement. *)
Definition process_task_resume (q : TaskQueue) (now : datetime) (tid : string)
    (o : Outcome) : TaskQueue * bool :=
  match o with
  | Returns r =>
      let q := set_result q tid r in
      let q := update_task q now tid (Some COMPLETED) (Some 100%float)
                 (Some "Transcription completed successfully") None in
      (process_task_finally q tid, false)
  | Raises str_e =>
      let q := update_task q now tid (Some FAILED) None
                 (Some "Transcription failed") (Some str_e) in
      (process_task_finally q tid, false)
  | Cancelled => (process_task_finally q tid, true)
  end.

(** The state of one [process_task] coroutine, as the event loop sees it. *)
Inductive Coroutine : Set :=
  | Waiting
  | Awaiting (audio_path : string) (options : TranscriptionOptions)
  | Returned
  | Propagated.

(** First segment of [process_task]: enter [async with] (only possible
    with a free slot) and run to the [await]; on an early [return] the
    [finally] clause and the exit of [async with] run at once. *)
Definition process_task_start (q : TaskQueue) (now : datetime) (tid : string)
    : option (TaskQueue * Coroutine) :=
  q1 ← semaphore_acquire q;
  let (q2, e) := process_task_enter q1 now tid in
  match e with
  | EnterReturn => Some (semaphore_release (process_task_finally q2 tid), Returned)
  | EnterAwait audio_path options => Some (q2, Awaiting audio_path options)
  end.

(** Second segment: the [await] ends with [o]; the rest of the [try]
    statement runs and [async with] is left, by return or by exception. *)
Definition process_task_finish (q : TaskQueue) (now : datetime) (tid : string)
    (o : Outcome) : TaskQueue * Coroutine :=
  let (q1, propagates) := process_task_resume q now tid o in
  (semaphore_release q1, if propagates then Propagated else Returned).

(** ** The server as a transition system

    The queue singleton together with the [process_task] coroutines the
    upload route has handed to the event loop, one per created task. *)
Record System : Type := mkSystem {
  queue : TaskQueue;
  coroutines : gmap string Coroutine
}.

Inductive Event : Set :=
  (* [upload_audio]: [create_task], then [process_task] as a background task *)
  | Upload (tid : string) (now : datetime) (audio_path : string)
      (options : TranscriptionOptions)
  (* a waiting [process_task] obtains its slot *)
  | Acquire (tid : string) (now : datetime)
  (* the pipeline calls [progress_callback(stage, p)] *)
  | Progress (tid : string) (now : datetime) (stage : string) (p : float)
  (* [await service.transcribe] ends *)
  | Finish (tid : string) (now : datetime) (o : Outcome)
  (* [get_task_status] / [get_task_result]: [get_task] *)
  | GetTask (tid : string)
  (* the [delete_task] route *)
  | Delete (tid : string)
  (* [cleanup_old_tasks(max_age_hours)] *)
  | Cleanup (now : datetime) (max_age_hours : Z).

(** One event; [None] when the event cannot happen in this state (the
    identifier is not fresh, the coroutine is not at that point, or no
    slot is free).  Events of different tasks may follow each other in
    any order, also between the [Acquire] and the [Finish] of an
    execution: this covers a pipeline call that suspends, and is more
    than the event loop does with the shipped [transcribe], which never
    suspends (see [serve] for the runs the event loop produces).  What
    holds of every run of [step] holds of those as well. *)
Definition step (s : System) (ev : Event) : option System :=
  match ev with
  | Upload tid now audio_path options =>
      match coroutines s !! tid with
      | Some _ => None
      | None =>
          Some (mkSystem (fst (create_task (queue s) tid now audio_path options))
                         (<[tid := Waiting]> (coroutines s)))
      end
  | Acquire tid now =>
      match coroutines s !! tid with
      | Some Waiting =>
          '(q, c) ← process_task_start (queue s) now tid;
          Some (mkSystem q (<[tid := c]> (coroutines s)))
      | _ => None
      end
  | Progress tid now stage p =>
      match coroutines s !! tid with
      | Some (Awaiting _ _) =>
          Some (mkSystem (progress_callback (queue s) now tid stage p) (coroutines s))
      | _ => None
      end
  | Finish tid now o =>
      match coroutines s !! tid with
      | Some (Awaiting _ _) =>
          let (q, c) := process_task_finish (queue s) now tid o in
          Some (mkSystem q (<[tid := c]> (coroutines s)))
      | _ => None
      end
  | GetTask tid =>
      Some (mkSystem (fst (get_task (queue s) tid)) (coroutines s))
  | Delete tid =>
      Some (mkSystem (fst (delete_task (queue s) tid)) (coroutines s))
  | Cleanup now max_age_hours =>
      Some (mkSystem (cleanup_old_tasks (queue s) now max_age_hours) (coroutines s))
  end.

Fixpoint run (s : System) (evs : list Event) : option System :=
  match evs with
  | [] => Some s
  | ev :: evs' =>
      match step s ev with
      | Some s' => run s' evs'
      | None => None
      end
  end.

(** The server right after start-up, with [MAX_CONCURRENT_TASKS = C]. *)
Definition initial (C : nat) : System :=
  {| queue := TaskQueue_init C; coroutines := ∅ |}.

Definition reachable (C : nat) (s : System) : Prop :=
  exists evs, run (initial C) evs = Some s.

(** The coroutines that are inside [async with], at the pipeline call. *)
Definition is_awaiting (c : Coroutine) : bool :=
  match c with
  | Awaiting _ _ => true
  | _ => false
  end.

Definition in_pipeline (s : System) : nat :=
  size (filter (fun kv : string * Coroutine => is_awaiting (snd kv) = true) (coroutines s)).

Definition finished (c : Coroutine) : bool :=
  match c with
  | Returned | Propagated => true
  | _ => false
  end.

(** ** Invariants, and the runs used as examples *)

(** The test the first loop of [cleanup_old_tasks] applies to a record. *)
Definition swept (q : TaskQueue) (cutoff : datetime) (max_age_hours : Z)
    (tid : string) : bool :=
  match _tasks q !! tid with
  | Some task =>
      age_exceeds cutoff (created_at task) max_age_hours && is_terminal (status task)
  | None => false
  end.

(** A burst of three uploads against two slots: two coroutines reach the
    pipeline call, the third keeps waiting. *)
Definition burst_trace : list Event :=
  [ Upload "job-1" 1000%Z "uploads/1.wav" TranscriptionOptions_default;
    Upload "job-2" 1001%Z "uploads/2.wav" TranscriptionOptions_default;
    Upload "job-3" 1002%Z "uploads/3.wav" TranscriptionOptions_default;
    Acquire "job-1" 1003%Z;
    Acquire "job-2" 1004%Z ].

Definition burst_state : System :=
  Eval vm_compute in default (initial 0) (run (initial 2) burst_trace).

(** Two uploads against one slot, the pipeline failing on every call:
    both executions end and the slot is free again. *)
Definition faulty_trace : list Event :=
  [ Upload "job-1" 1000%Z "uploads/1.wav" TranscriptionOptions_default;
    Upload "job-2" 1001%Z "uploads/2.wav" TranscriptionOptions_default;
    Acquire "job-1" 1002%Z;
    Progress "job-1" 1003%Z "loading_audio" 5%float;
    Finish "job-1" 1004%Z (Raises "CUDA out of memory");
    Acquire "job-2" 1005%Z;
    Finish "job-2" 1006%Z Cancelled ].

Definition faulty_state : System :=
  Eval vm_compute in default (initial 0) (run (initial 1) faulty_trace).

(** One upload, its execution at the pipeline call. *)
Definition running_state : System :=
  Eval vm_compute in
    default (initial 0)
      (run (initial 2)
         [ Upload "job-1" 1000%Z "uploads/1.wav" TranscriptionOptions_default;
           Acquire "job-1" 1002%Z ]).

Definition running_record : TaskProgress :=
  {| task_id := "job-1"; status := PROCESSING; progress := 0%float;
     message := "Starting transcription"; created_at := 1000%Z;
     started_at := Some 1002%Z; completed_at := None; error := None;
     result := None; _audio_path := Some "uploads/1.wav";
     _options := Some TranscriptionOptions_default |}.

(** What the record [t] of a task and its entry [r] in [_task_results]
    look like, given where the task's coroutine stands. *)
Definition record_ok (c : Coroutine) (t : TaskProgress)
    (r : option TranscriptionResult) : Prop :=
  (forall x, result t = Some x -> r = Some x)
  /\ match c with
     | Waiting =>
         status t = PENDING /\ error t = None /\ r = None
         /\ started_at t = None /\ completed_at t = None
     | Awaiting _ _ | Propagated =>
         is_processing (status t) = true /\ error t = None /\ r = None
         /\ is_Some (started_at t) /\ completed_at t = None
     | Returned =>
         (status t = COMPLETED /\ error t = None /\ is_Some r
          /\ is_Some (completed_at t))
         \/ (status t = FAILED /\ is_Some (error t) /\ r = None
             /\ is_Some (completed_at t))
     end.

(** Every record and every stored result belongs to a task that was
    uploaded, and every record agrees with its coroutine. *)
Definition consistent (s : System) : Prop :=
  forall tid,
    match coroutines s !! tid with
    | None =>
        _tasks (queue s) !! tid = None /\ _task_results (queue s) !! tid = None
    | Some c =>
        forall t, _tasks (queue s) !! tid = Some t ->
                  record_ok c t (_task_results (queue s) !! tid)
    end.

Definition sample_result : TranscriptionResult :=
  {| res_language := "en";
     segments :=
       [ {| seg_start := 0%float; seg_end := 2.5%float; text := " Hello there.";
            seg_speaker := Some "SPEAKER_00"; words := None |} ];
     word_segments := None |}.

(** One upload carried to a successful end, then polled. *)
Definition completed_trace : list Event :=
  [ Upload "job-1" 1000%Z "uploads/1.wav" TranscriptionOptions_default;
    Acquire "job-1" 1002%Z;
    Progress "job-1" 1003%Z "transcribing" 10%float;
    Progress "job-1" 1004%Z "completed" 100%float;
    Finish "job-1" 1006%Z (Returns sample_result);
    GetTask "job-1" ].

Definition completed_state : System :=
  Eval vm_compute in default (initial 0) (run (initial 2) completed_trace).

Definition completed_record : TaskProgress :=
  {| task_id := "job-1"; status := COMPLETED; progress := 100%float;
     message := "Transcription completed successfully"; created_at := 1000%Z;
     started_at := Some 1002%Z; completed_at := Some 1006%Z; error := None;
     result := Some sample_result; _audio_path := Some "uploads/1.wav";
     _options := Some TranscriptionOptions_default |}.

(** [t'] is [t] up to the joined [result] field. *)
Definition same_but_result (t t' : TaskProgress) : Prop :=
  set_result_field None t' = set_result_field None t.

(** One upload, deleted through the route while its execution is at the
    pipeline call. *)
Definition deleted_in_flight_trace : list Event :=
  [ Upload "job-1" 1000%Z "uploads/1.wav" TranscriptionOptions_default;
    Acquire "job-1" 1002%Z;
    Progress "job-1" 1003%Z "transcribing" 10%float;
    Delete "job-1" ].

Definition deleted_in_flight_state : System :=
  Eval vm_compute in default (initial 0) (run (initial 2) deleted_in_flight_trace).

Definition failed_record : TaskProgress :=
  {| task_id := "job-1"; status := FAILED; progress := 5%float;
     message := "Transcription failed"; created_at := 1000%Z;
     started_at := Some 1002%Z; completed_at := Some 1004%Z;
     error := Some "CUDA out of memory";
     result := None; _audio_path := Some "uploads/1.wav";
     _options := Some TranscriptionOptions_default |}.

(** ** app/routes/transcribe.py: the polling routes *)

(** [get_task_status]: 404 when the task is unknown, else the record. *)
Definition get_task_status (q : TaskQueue) (tid : string)
    : TaskQueue * (HTTPException + TaskProgress) :=
  let (q1, task) := get_task q tid in
  match task with
  | None =>
      (q1, inl (mkHTTPException 404
                  ("Task '" ++ tid ++ "' not found. It may have expired or never existed.")))
  | Some t => (q1, inr t)
  end.

(** [get_task_result].  [format_1f] stands for Python's [:.1f] float
    formatting, used only in the text of the 202 answer; [task.error] is
    rendered by an f-string, so an unset error reads "None". *)
Definition get_task_result (format_1f : float -> string) (q : TaskQueue)
    (tid : string) : TaskQueue * (HTTPException + TranscriptionResult) :=
  let (q1, task) := get_task q tid in
  match task with
  | None => (q1, inl (mkHTTPException 404 ("Task '" ++ tid ++ "' not found.")))
  | Some t =>
      if bool_decide (status t = FAILED)
      then (q1, inl (mkHTTPException 500
                       ("Task failed: " ++ default "None" (error t))))
      else if negb (bool_decide (status t = COMPLETED))
      then (q1, inl (mkHTTPException 202
                       ("Task is still " ++ TaskStatus_value (status t)
                        ++ ". Progress: " ++ format_1f (progress t) ++ "%")))
      else match result t with
           | None => (q1, inl (mkHTTPException 500
                                 "Task completed but result is missing."))
           | Some r => (q1, inr r)
           end
  end.

(** ** app/routes/health.py *)

Record HealthResponse : Set := mkHealthResponse {
  health_status : string;
  version : string;
  gpu_available : bool;
  active_tasks : nat;
  pending_tasks : nat
}.

(** [health_check]; [APP_VERSION] is the setting and [cuda_available]
    the answer of [torch.cuda.is_available()]. *)
Definition health_check (APP_VERSION : string) (cuda_available : bool)
    (q : TaskQueue) : HealthResponse :=
  let stats := get_stats q in
  {| health_status := "healthy";
     version := APP_VERSION;
     gpu_available := cuda_available;
     active_tasks := processing stats;
     pending_tasks := pending stats |}.

(** ** Clock readings along a run *)

(** The [datetime.utcnow()] an event reads, if it reads one. *)
Definition event_time (ev : Event) : option datetime :=
  match ev with
  | Upload _ now _ _ => Some now
  | Acquire _ now => Some now
  | Progress _ now _ _ => Some now
  | Finish _ now _ => Some now
  | Cleanup now _ => Some now
  | GetTask _ | Delete _ => None
  end.

(** The clock never goes back: every reading is at least the previous
    one, starting from [t0]. *)
Fixpoint clock_monotone (t0 : datetime) (evs : list Event) : Prop :=
  match evs with
  | [] => True
  | ev :: evs' =>
      match event_time ev with
      | Some now => (t0 <= now)%Z /\ clock_monotone now evs'
      | None => clock_monotone t0 evs'
      end
  end.

(** The last clock reading of a run that started at [t0]. *)
Fixpoint last_time (t0 : datetime) (evs : list Event) : datetime :=
  match evs with
  | [] => t0
  | ev :: evs' => last_time (default t0 (event_time ev)) evs'
  end.

(** No pipeline call of the run is cancelled. *)
Definition is_cancel (ev : Event) : bool :=
  match ev with
  | Finish _ _ Cancelled => true
  | _ => false
  end.

(** Every progress value the pipeline reports in the run is in range. *)
Definition reports_in_range (ev : Event) : bool :=
  match ev with
  | Progress _ _ _ p => progress_in_range p
  | _ => true
  end.

(** ** Where a stored record comes from

    [record_origin s ev tid t']: how the record [t'] found under [tid]
    after the event [ev] relates to the state [s] before it. *)
Inductive record_origin (s : System) (ev : Event) (tid : string)
    (t' : TaskProgress) : Prop :=
  | origin_kept :
      _tasks (queue s) !! tid = Some t' ->
      record_origin s ev tid t'
  | origin_joined (t : TaskProgress) (r : TranscriptionResult) :
      ev = GetTask tid ->
      _tasks (queue s) !! tid = Some t ->
      _task_results (queue s) !! tid = Some r ->
      t' = set_result_field (Some r) t ->
      record_origin s ev tid t'
  | origin_created (now : datetime) (audio_path : string)
      (options : TranscriptionOptions) :
      ev = Upload tid now audio_path options ->
      coroutines s !! tid = None ->
      t' = {| task_id := tid; status := PENDING; progress := 0%float;
              message := "Task queued"; created_at := now;
              started_at := None; completed_at := None; error := None;
              result := None;
              _audio_path := Some audio_path; _options := Some options |} ->
      record_origin s ev tid t'
  | origin_rejected (t : TaskProgress) (now : datetime) :
      ev = Acquire tid now ->
      coroutines s !! tid = Some Waiting ->
      _tasks (queue s) !! tid = Some t ->
      t' = update_record now (Some FAILED) None None
             (Some "Audio path not found") t ->
      record_origin s ev tid t'
  | origin_started (t : TaskProgress) (now : datetime) :
      ev = Acquire tid now ->
      coroutines s !! tid = Some Waiting ->
      _tasks (queue s) !! tid = Some t ->
      t' = update_record now (Some PROCESSING) (Some 0%float)
             (Some "Starting transcription") None t ->
      record_origin s ev tid t'
  | origin_progress (t : TaskProgress) (now : datetime) (stage : string)
      (p : float) (audio_path : string) (options : TranscriptionOptions) :
      ev = Progress tid now stage p ->
      coroutines s !! tid = Some (Awaiting audio_path options) ->
      _tasks (queue s) !! tid = Some t ->
      t' = update_record now (Some (default PROCESSING (status_map !! stage)))
             (Some p) (Some ("Status: " ++ stage)) None t ->
      record_origin s ev tid t'
  | origin_completed (t : TaskProgress) (now : datetime)
      (r : TranscriptionResult) (audio_path : string)
      (options : TranscriptionOptions) :
      ev = Finish tid now (Returns r) ->
      coroutines s !! tid = Some (Awaiting audio_path options) ->
      _tasks (queue s) !! tid = Some t ->
      t' = update_record now (Some COMPLETED) (Some 100%float)
             (Some "Transcription completed successfully") None t ->
      record_origin s ev tid t'
  | origin_failed (t : TaskProgress) (now : datetime) (str_e : string)
      (audio_path : string) (options : TranscriptionOptions) :
      ev = Finish tid now (Raises str_e) ->
      coroutines s !! tid = Some (Awaiting audio_path options) ->
      _tasks (queue s) !! tid = Some t ->
      t' = update_record now (Some FAILED) None (Some "Transcription failed")
             (Some str_e) t ->
      record_origin s ev tid t'.

(** The timestamps of a record are ordered and lie between [t0] and the
    clock reading [T]. *)
Definition timestamps_ordered (t0 T : datetime) (t : TaskProgress) : Prop :=
  (t0 <= created_at t <= T)%Z
  /\ (forall ts, started_at t = Some ts -> (created_at t <= ts <= T)%Z)
  /\ (forall tc, completed_at t = Some tc ->
        (created_at t <= tc <= T)%Z
        /\ forall ts, started_at t = Some ts -> (ts <= tc)%Z).

(** States used as examples for the edge cases of [process_task]. *)
Definition no_path_state : System :=
  Eval vm_compute in
    default (initial 0)
      (run (initial 2) [Upload "job-1" 1000%Z "" TranscriptionOptions_default]).

Definition deleted_waiting_state : System :=
  Eval vm_compute in
    default (initial 0)
      (run (initial 2)
         [ Upload "job-1" 1000%Z "uploads/1.wav" TranscriptionOptions_default;
           Delete "job-1" ]).

(** ** app/routes/transcribe.py: saving the upload

    The loop of [upload_audio] that copies the upload to disk.  [chunks]
    are the byte strings the successive [await file.read(1024 * 1024)]
    return, an exhausted list standing for the final empty read;
    [file_size] and [written] are the running size and the bytes written
    to [out_file] so far.  The result is the content of the file left at
    [file_path] ([None] when it was removed) and the exception raised, if
    any. *)
Fixpoint save_upload (MAX_FILE_SIZE_MB : Z) (chunks : list (list Byte.byte))
    (file_size : Z) (written : list Byte.byte)
    : option (list Byte.byte) * option HTTPException :=
  match chunks with
  | [] => (Some written, None)
  | chunk :: rest =>
      match chunk with
      | [] => (Some written, None)
      | _ :: _ =>
          let file_size := (file_size + Z.of_nat (length chunk))%Z in
          if (MAX_FILE_SIZE_MB * 1024 * 1024 <? file_size)%Z
          then (None,
                Some (mkHTTPException 413
                        ("File too large. Maximum size is "
                         ++ pretty MAX_FILE_SIZE_MB ++ "MB")))
          else save_upload MAX_FILE_SIZE_MB rest file_size (written ++ chunk)%list
      end
  end.

(** ** app/services/whisperx_service.py: [transcribe]

    The dictionaries the [whisperx] library hands back, as far as
    [transcribe] reads them: an absent key is [None], and a present
    value has the type the response models expect. *)
Record RawWord : Set := mkRawWord {
  raw_word : option string;
  raw_word_start : option float;
  raw_word_end : option float;
  raw_score : option float;
  raw_word_speaker : option string
}.

Record RawSegment : Set := mkRawSegment {
  raw_start : option float;
  raw_end : option float;
  raw_text : option string;
  raw_speaker : option string;
  raw_words : option (list RawWord)
}.

Record RawResult : Set := mkRawResult {
  raw_segments : option (list RawSegment)
}.

(** The calls into the [whisperx] library, each either raising an
    [Exception] ([inl], with its [str]) or returning:
    [whisperx.load_audio]; loading the Whisper model and
    [model.transcribe], with the detected language; loading the alignment
    model and [whisperx.align]; loading the diarization model, running it
    and [whisperx.assign_word_speakers]. *)
Record Whisperx (Audio : Type) : Type := mkWhisperx {
  wx_load_audio : string -> string + Audio;
  wx_model_transcribe : Audio -> Z -> option string -> string + (string * RawResult);
  wx_align : list RawSegment -> string -> Audio -> bool -> string + RawResult;
  wx_diarize : Audio -> option Z -> option Z -> RawResult -> string + RawResult
}.

Arguments wx_load_audio {Audio}.
Arguments wx_model_transcribe {Audio}.
Arguments wx_align {Audio}.
Arguments wx_diarize {Audio}.

(** [if options.language:] and [if options.min_speakers:]: an empty
    string and 0 count as not given. *)
Definition given_str (s : option string) : option string :=
  match s with
  | Some "" => None
  | other => other
  end.

Definition given_int (n : option Z) : option Z :=
  match n with
  | Some 0%Z => None
  | other => other
  end.

(** Step 5 of [transcribe], for one word and for one segment. *)
Definition format_word (w : RawWord) : WordSegment :=
  {| word := default "" (raw_word w);
     word_start := default 0%float (raw_word_start w);
     word_end := default 0%float (raw_word_end w);
     score := raw_score w;
     word_speaker := raw_word_speaker w |}.

Definition format_segment (seg : RawSegment) : TranscriptSegment :=
  {| seg_start := default 0%float (raw_start seg);
     seg_end := default 0%float (raw_end seg);
     text := default "" (raw_text seg);
     seg_speaker := raw_speaker seg;
     words := fmap (M := list) format_word <$> raw_words seg |}.

(** [WhisperXService.transcribe]: the progress reports it makes through
    [update_progress], in order, and how it ends (the [str] of the
    exception it re-raises, or its result). *)
Definition transcribe {Audio : Type} (wx : Whisperx Audio) (BATCH_SIZE : Z)
    (audio_path : string) (options : TranscriptionOptions)
    : list (string * float) * (string + TranscriptionResult) :=
  let reports := [("loading_audio", 5%float)] in
  match wx_load_audio wx audio_path with
  | inl e => (reports, inl e)
  | inr audio =>
      let reports := (reports ++ [("transcribing", 10%float)])%list in
      match wx_model_transcribe wx audio BATCH_SIZE
              (given_str (opt_language options)) with
      | inl e => (reports, inl e)
      | inr (detected_language, result) =>
          let reports :=
            (reports ++ [("transcribing", 40%float); ("aligning", 45%float)])%list in
          let result :=
            match raw_segments result with
            | None => result
            | Some segs =>
                match wx_align wx segs detected_language audio
                        (return_char_alignments options) with
                | inl _ => result
                | inr aligned => aligned
                end
            end in
          let reports := (reports ++ [("aligning", 60%float)])%list in
          let reports :=
            if enable_diarization options
            then (reports ++ [("diarizing", 65%float)])%list
            else reports in
          let result :=
            if enable_diarization options
            then match wx_diarize wx audio (given_int (min_speakers options))
                         (given_int (max_speakers options)) result with
                 | inl _ => result
                 | inr labelled => labelled
                 end
            else result in
          let reports := (reports ++ [("processing", 90%float)])%list in
          let segs := format_segment <$> default [] (raw_segments result) in
          let reports := (reports ++ [("completed", 100%float)])%list in
          (reports,
           inr {| res_language := detected_language;
                  segments := segs;
                  word_segments := None |})
      end
  end.

(** The reported progress values never go down. *)
Fixpoint nondecreasing (ps : list float) : bool :=
  match ps with
  | p :: ((p' :: _) as rest) => PrimFloat.leb p p' && nondecreasing rest
  | _ => true
  end.

(** A report is well formed: a stage of [status_map], progress in range. *)
Definition report_ok (r : string * float) : bool :=
  bool_decide (is_Some (status_map !! fst r)) && progress_in_range (snd r).

(** ** Runs made of one execution's events *)

(** The progress callbacks of the execution of [tid], each with the
    clock reading at which it is applied. *)
Definition progress_events (tid : string)
    (reports : list (datetime * (string * float))) : list Event :=
  (fun r => Progress tid (fst r) (fst (snd r)) (snd (snd r))) <$> reports.

(** How the pipeline call ends, seen from [process_task]. *)
Definition outcome_of (o : string + TranscriptionResult) : Outcome :=
  match o with
  | inl e => Raises e
  | inr r => Returns r
  end.

(** One upload served from end to end by the pipeline of
    [whisperx_service]: the upload, the start of the execution, the
    progress reports of [transcribe] (applied at the clock readings
    [times]) and the end of the pipeline call. *)
Definition served_upload {Audio : Type} (wx : Whisperx Audio) (BATCH_SIZE : Z)
    (tid : string) (audio_path : string) (options : TranscriptionOptions)
    (t_upload t_start : datetime) (times : list datetime) (t_end : datetime)
    : list Event :=
  let (reports, o) := transcribe wx BATCH_SIZE audio_path options in
  ([ Upload tid t_upload audio_path options; Acquire tid t_start ]
   ++ progress_events tid (zip times reports)
   ++ [ Finish tid t_end (outcome_of o) ])%list.

(** A library stand-in used as an example: the audio loads, Whisper
    detects English and returns one segment, no alignment model and no
    diarization token are available. *)
Definition sample_whisperx : Whisperx unit :=
  {| wx_load_audio := fun _ => inr tt;
     wx_model_transcribe := fun _ _ _ =>
       inr ("en",
            mkRawResult
              (Some [ mkRawSegment (Some 0%float) (Some 2.5%float)
                        (Some " Hello there.") None None ]));
     wx_align := fun _ _ _ _ => inl "No default align-model for language: en";
     wx_diarize := fun _ _ _ _ => inl "HF_TOKEN is required for speaker diarization" |}.

(** ** The server as the event loop runs it

    [WhisperXService.transcribe] contains no [await], and the semaphore
    is free whenever a [process_task] starts, so the event loop runs each
    [process_task] from its first line to its last without serving
    anything in between: other requests are served before it starts
    (the upload's response is sent first) or after it has ended.

    [execute]: one whole [process_task], given what the pipeline does
    (its progress reports, each with the clock reading at which it is
    applied, and how the call ends). *)
Definition execute (s : System) (tid : string) (t_start : datetime)
    (reports : list (datetime * (string * float))) (o : Outcome)
    (t_end : datetime) : option System :=
  match step s (Acquire tid t_start) with
  | None => None
  | Some s1 =>
      match coroutines s1 !! tid with
      | Some (Awaiting _ _) =>
          match run s1 (progress_events tid reports) with
          | Some s2 => step s2 (Finish tid t_end o)
          | None => None
          end
      | _ => Some s1
      end
  end.

(** What the event loop serves in one go. *)
Inductive Request : Set :=
  (* [upload_audio], up to its response *)
  | ReqUpload (tid : string) (now : datetime) (audio_path : string)
      (options : TranscriptionOptions)
  (* the background task of an upload: [process_task] *)
  | ReqProcess (tid : string) (t_start : datetime)
      (reports : list (datetime * (string * float))) (o : Outcome)
      (t_end : datetime)
  | ReqGetTask (tid : string)
  | ReqDelete (tid : string)
  | ReqCleanup (now : datetime) (max_age_hours : Z).

Definition serve (s : System) (r : Request) : option System :=
  match r with
  | ReqUpload tid now audio_path options => step s (Upload tid now audio_path options)
  | ReqProcess tid t_start reports o t_end => execute s tid t_start reports o t_end
  | ReqGetTask tid => step s (GetTask tid)
  | ReqDelete tid => step s (Delete tid)
  | ReqCleanup now max_age_hours => step s (Cleanup now max_age_hours)
  end.

Fixpoint serve_all (s : System) (rs : list Request) : option System :=
  match rs with
  | [] => Some s
  | r :: rs' =>
      match serve s r with
      | Some s' => serve_all s' rs'
      | None => None
      end
  end.

(** Between requests no execution is at the pipeline call, and no result
    is stored for a task without a record. *)
Definition at_rest (s : System) : Prop :=
  forall tid,
    (forall c, coroutines s !! tid = Some c -> is_awaiting c = false)
    /\ (is_Some (_task_results (queue s) !! tid) ->
        is_Some (_tasks (queue s) !! tid)).

(** A burst of uploads, one of them deleted before its execution is
    run. *)
Definition deleted_before_run : list Request :=
  [ ReqUpload "job-1" 1000%Z "uploads/1.wav" TranscriptionOptions_default;
    ReqUpload "job-2" 1001%Z "uploads/2.wav" TranscriptionOptions_default;
    ReqProcess "job-1" 1002%Z [(1003%Z, ("transcribing", 10%float))]
      (Raises "CUDA out of memory") 1004%Z ].

Definition deleted_before_run_state : System :=
  Eval vm_compute in default (initial 0) (serve_all (initial 2) deleted_before_run).

(** The task [tid] was uploaded, its record and result are gone, and its
    execution has not started or has returned. *)
Definition gone (s : System) (tid : string) : Prop :=
  (coroutines s !! tid = Some Waiting \/ coroutines s !! tid = Some Returned)
  /\ _tasks (queue s) !! tid = None
  /\ _task_results (queue s) !! tid = None.

(** * Properties *)

(** ** Record and store lemmas *)

Section RecordLemmas.
Variables (now : datetime) (st : option TaskStatus) (pr : option float).
Variables (msg err : option string) (task : TaskProgress).

Lemma update_record_task_id :
  task_id (update_record now st pr msg err task) = task_id task.
Proof.
  unfold update_record.
  destruct st as [s|], pr, msg, err; simpl; try done;
    destruct s, (started_at task); done.
Qed.

Lemma update_record_created_at :
  created_at (update_record now st pr msg err task) = created_at task.
Proof.
  unfold update_record.
  destruct st as [s|], pr, msg, err; simpl; try done;
    destruct s, (started_at task); done.
Qed.

Lemma update_record_result :
  result (update_record now st pr msg err task) = result task.
Proof.
  unfold update_record.
  destruct st as [s|], pr, msg, err; simpl; try done;
    destruct s, (started_at task); done.
Qed.

Lemma update_record_status :
  status (update_record now st pr msg err task) = default (status task) st.
Proof.
  unfold update_record.
  destruct st as [s|], pr, msg, err; simpl; try done;
    destruct s, (started_at task); done.
Qed.

Lemma update_record_error :
  error (update_record now st pr msg err task)
  = match err with Some e => Some e | None => error task end.
Proof.
  unfold update_record.
  destruct st as [s|], pr, msg, err; simpl; try done;
    destruct s, (started_at task); done.
Qed.

Lemma update_record_progress :
  progress (update_record now st pr msg err task) = default (progress task) pr.
Proof.
  unfold update_record.
  destruct st as [s|], pr, msg, err; simpl; try done;
    destruct s, (started_at task); done.
Qed.

(** [started_at] is written only under the guard
    [status == PROCESSING and task.started_at is None]. *)
Lemma update_record_started_at :
  started_at (update_record now st pr msg err task)
  = match started_at task with
    | Some t => Some t
    | None => if bool_decide (st = Some PROCESSING) then Some now else None
    end.
Proof.
  unfold update_record.
  destruct (started_at task) eqn:Hs;
    destruct st as [[]|], pr, msg, err; simpl; rewrite ?Hs; done.
Qed.

(** [completed_at] is stamped by every update whose status is terminal. *)
Lemma update_record_completed_at :
  completed_at (update_record now st pr msg err task)
  = match st with
    | Some s => if is_terminal s then Some now else completed_at task
    | None => completed_at task
    end.
Proof.
  unfold update_record.
  destruct st as [s|], pr, msg, err; simpl; try done;
    destruct s, (started_at task); done.
Qed.
End RecordLemmas.

Lemma update_task_lookup q now tid st pr msg err tid' :
  _tasks (update_task q now tid st pr msg err) !! tid'
  = if decide (tid = tid')
    then update_record now st pr msg err <$> _tasks q !! tid'
    else _tasks q !! tid'.
Proof.
  unfold update_task. case_decide as Heq.
  - subst tid'. destruct (_tasks q !! tid) as [task|] eqn:Hl; simpl.
    + by rewrite lookup_insert_eq.
    + by rewrite Hl.
  - destruct (_tasks q !! tid) as [task|] eqn:Hl; simpl; [|done].
    by rewrite lookup_insert_ne.
Qed.

Lemma update_task_results q now tid st pr msg err :
  _task_results (update_task q now tid st pr msg err) = _task_results q.
Proof. unfold update_task. by destruct (_tasks q !! tid). Qed.

Lemma update_task_semaphore q now tid st pr msg err :
  _semaphore (update_task q now tid st pr msg err) = _semaphore q.
Proof. unfold update_task. by destruct (_tasks q !! tid). Qed.

Lemma update_task_missing q now tid st pr msg err :
  _tasks q !! tid = None -> update_task q now tid st pr msg err = q.
Proof. intros Hl. unfold update_task. by rewrite Hl. Qed.

Lemma get_task_lookup q tid tid' :
  _tasks (fst (get_task q tid)) !! tid'
  = if decide (tid = tid')
    then (fun t => match _task_results q !! tid with
                   | Some r => set_result_field (Some r) t
                   | None => t
                   end) <$> _tasks q !! tid'
    else _tasks q !! tid'.
Proof.
  unfold get_task. case_decide as Heq.
  - subst tid'. destruct (_tasks q !! tid) as [task|] eqn:Hl; simpl; [|by rewrite Hl].
    destruct (_task_results q !! tid); simpl; [by rewrite lookup_insert_eq|by rewrite Hl].
  - destruct (_tasks q !! tid) as [task|]; [|done].
    destruct (_task_results q !! tid); simpl; [|done].
    by rewrite lookup_insert_ne.
Qed.

Lemma get_task_results q tid :
  _task_results (fst (get_task q tid)) = _task_results q.
Proof.
  unfold get_task. destruct (_tasks q !! tid); [|done].
  by destruct (_task_results q !! tid).
Qed.

Lemma get_task_semaphore q tid :
  _semaphore (fst (get_task q tid)) = _semaphore q.
Proof.
  unfold get_task. destruct (_tasks q !! tid); [|done].
  by destruct (_task_results q !! tid).
Qed.

Lemma get_task_missing q tid :
  _tasks q !! tid = None -> get_task q tid = (q, None).
Proof. intros Hl. unfold get_task. by rewrite Hl. Qed.

(** ** Queue statistics *)

Lemma filter_four_way {A} (f g h k : A -> bool) (l : list A) :
  (forall x, Nat.b2n (f x) + Nat.b2n (g x) + Nat.b2n (h x) + Nat.b2n (k x) = 1) ->
  length (List.filter f l) + length (List.filter g l)
  + length (List.filter h l) + length (List.filter k l) = length l.
Proof.
  intros Hone. induction l as [|x l IH]; [done|].
  specialize (Hone x). simpl.
  destruct (f x), (g x), (h x), (k x); simpl in *; lia.
Qed.

Lemma status_one_bucket (s : TaskStatus) :
  Nat.b2n (is_pending s) + Nat.b2n (is_processing s)
  + Nat.b2n (is_completed s) + Nat.b2n (is_failed s) = 1.
Proof. by destruct s. Qed.

(** ** Unknown identifiers *)

(** C6: for an identifier with no record in the store, [update_task]
    returns the store as it was, whatever its arguments, and the delete
    route answers with the 404 not-found response, the store untouched. *)
Theorem unknown_id_update_noop_delete_not_found (q : TaskQueue) (tid : string) :
  _tasks q !! tid = None ->
  (forall now st pr msg err, update_task q now tid st pr msg err = q)
  /\ delete_task q tid
     = (q, inl (mkHTTPException 404 ("Task '" ++ tid ++ "' not found."))).
Proof.
  intros Hl. split.
  - intros. by apply update_task_missing.
  - unfold delete_task. by rewrite get_task_missing.
Qed.

Lemma unknown_id_update_noop_delete_not_found_witness :
  _tasks (TaskQueue_init 2) !! "no-such-task" = None
  /\ (forall now st pr msg err,
        update_task (TaskQueue_init 2) now "no-such-task" st pr msg err
        = TaskQueue_init 2)
  /\ delete_task (TaskQueue_init 2) "no-such-task"
     = (TaskQueue_init 2,
        inl (mkHTTPException 404 "Task 'no-such-task' not found.")).
Proof.
  split; [reflexivity|].
  apply (unknown_id_update_noop_delete_not_found (TaskQueue_init 2) "no-such-task").
  reflexivity.
Defined.

(** ** The cleanup sweep *)

Lemma foldl_del_task_tasks (l : list string) (q : TaskQueue) (tid : string) :
  _tasks (foldl del_task q l) !! tid
  = if bool_decide (tid ∈ l) then None else _tasks q !! tid.
Proof.
  revert q. induction l as [|x l IH]; intros q.
  - case_bool_decide as Hin; [by apply elem_of_nil in Hin|done].
  - change (foldl del_task q (x :: l)) with (foldl del_task (del_task q x) l).
    rewrite IH. do 2 case_bool_decide; rewrite elem_of_cons in *; try tauto.
    + destruct_or!; [subst x|tauto]. apply lookup_delete_eq.
    + apply lookup_delete_ne. intros ->. tauto.
Qed.

Lemma foldl_del_task_results (l : list string) (q : TaskQueue) (tid : string) :
  _task_results (foldl del_task q l) !! tid
  = if bool_decide (tid ∈ l) then None else _task_results q !! tid.
Proof.
  revert q. induction l as [|x l IH]; intros q.
  - case_bool_decide as Hin; [by apply elem_of_nil in Hin|done].
  - change (foldl del_task q (x :: l)) with (foldl del_task (del_task q x) l).
    rewrite IH. do 2 case_bool_decide; rewrite elem_of_cons in *; try tauto.
    + destruct_or!; [subst x|tauto]. apply lookup_delete_eq.
    + apply lookup_delete_ne. intros ->. tauto.
Qed.

Lemma foldl_del_task_semaphore (l : list string) (q : TaskQueue) :
  _semaphore (foldl del_task q l) = _semaphore q.
Proof. revert q. induction l as [|x l IH]; intros q; simpl; [done|by rewrite IH]. Qed.

Lemma elem_of_old_tasks q cutoff max_age_hours tid :
  tid ∈ old_tasks q cutoff max_age_hours <-> swept q cutoff max_age_hours tid = true.
Proof.
  unfold old_tasks, swept. rewrite list_elem_of_fmap. split.
  - intros [[k t] [-> Hin]]. apply list_elem_of_In, filter_In in Hin as [Hin Hp].
    apply list_elem_of_In, elem_of_map_to_list in Hin. simpl in *. by rewrite Hin.
  - destruct (_tasks q !! tid) as [task|] eqn:Hl; [|done]. intros Hp.
    exists (tid, task). split; [done|].
    apply list_elem_of_In, filter_In. split; [|done].
    by apply list_elem_of_In, elem_of_map_to_list.
Qed.

Lemma cleanup_old_tasks_tasks q cutoff max_age_hours tid :
  _tasks (cleanup_old_tasks q cutoff max_age_hours) !! tid
  = if swept q cutoff max_age_hours tid then None else _tasks q !! tid.
Proof.
  unfold cleanup_old_tasks. rewrite foldl_del_task_tasks.
  destruct (swept q cutoff max_age_hours tid) eqn:Hs.
  - by rewrite bool_decide_eq_true_2 by by apply elem_of_old_tasks.
  - rewrite bool_decide_eq_false_2; [done|].
    rewrite elem_of_old_tasks. congruence.
Qed.

Lemma cleanup_old_tasks_results q cutoff max_age_hours tid :
  _task_results (cleanup_old_tasks q cutoff max_age_hours) !! tid
  = if swept q cutoff max_age_hours tid then None else _task_results q !! tid.
Proof.
  unfold cleanup_old_tasks. rewrite foldl_del_task_results.
  destruct (swept q cutoff max_age_hours tid) eqn:Hs.
  - by rewrite bool_decide_eq_true_2 by by apply elem_of_old_tasks.
  - rewrite bool_decide_eq_false_2; [done|].
    rewrite elem_of_old_tasks. congruence.
Qed.

Lemma cleanup_old_tasks_semaphore q cutoff max_age_hours :
  _semaphore (cleanup_old_tasks q cutoff max_age_hours) = _semaphore q.
Proof. apply foldl_del_task_semaphore. Qed.

(** C8, as the code has it: the sweep removes the record and the stored
    result of exactly the tasks that are terminal and whose age exceeds
    [max_age_hours] (strictly), keeps everything else, never removes a
    non-terminal task, and with [max_age_hours = 0] removes every
    terminal task created strictly before the cutoff instant. *)
Theorem cleanup_old_tasks_removes_old_terminal
    (q : TaskQueue) (cutoff : datetime) (max_age_hours : Z) :
  (forall tid,
      _tasks (cleanup_old_tasks q cutoff max_age_hours) !! tid
      = if swept q cutoff max_age_hours tid then None else _tasks q !! tid)
  /\ (forall tid,
      _task_results (cleanup_old_tasks q cutoff max_age_hours) !! tid
      = if swept q cutoff max_age_hours tid then None else _task_results q !! tid)
  /\ (forall tid task,
      _tasks q !! tid = Some task ->
      swept q cutoff max_age_hours tid
      = (max_age_hours * 3600000000 <? cutoff - created_at task)%Z
        && is_terminal (status task))
  /\ (forall tid task,
      _tasks q !! tid = Some task ->
      is_terminal (status task) = false ->
      _tasks (cleanup_old_tasks q cutoff max_age_hours) !! tid = Some task)
  /\ (forall tid task,
      _tasks q !! tid = Some task ->
      is_terminal (status task) = true ->
      (created_at task < cutoff)%Z ->
      _tasks (cleanup_old_tasks q cutoff 0) !! tid = None
      /\ _task_results (cleanup_old_tasks q cutoff 0) !! tid = None).
Proof.
  split; [intros; apply cleanup_old_tasks_tasks|].
  split; [intros; apply cleanup_old_tasks_results|].
  split; [intros tid task Hl; unfold swept; by rewrite Hl|].
  split.
  - intros tid task Hl Ht. rewrite cleanup_old_tasks_tasks.
    unfold swept. rewrite Hl, Ht, andb_false_r. done.
  - intros tid task Hl Ht Hlt.
    rewrite cleanup_old_tasks_tasks, cleanup_old_tasks_results.
    unfold swept, age_exceeds. rewrite Hl, Ht, andb_true_r.
    assert ((0 * 3600000000 <? cutoff - created_at task)%Z = true) as ->
      by (apply Z.ltb_lt; lia).
    done.
Qed.

(** ** Admission control *)

Lemma awaiting_count_insert (m : gmap string Coroutine) (tid : string) (c : Coroutine) :
  size (filter (fun kv : string * Coroutine => is_awaiting (snd kv) = true) (<[tid := c]> m))
  + match m !! tid with
    | Some c0 => Nat.b2n (is_awaiting c0)
    | None => 0
    end
  = size (filter (fun kv : string * Coroutine => is_awaiting (snd kv) = true) m)
    + Nat.b2n (is_awaiting c).
Proof.
  set (P := fun kv : string * Coroutine => is_awaiting (snd kv) = true).
  assert (Hold : forall c0, m !! tid = Some c0 -> is_awaiting c0 = true ->
                 size (filter P m) = S (size (delete tid (filter P m)))).
  { intros c0 Hl Ha.
    rewrite <- (insert_delete_id (filter P m) tid c0) at 1
      by (apply map_lookup_filter_Some; split; done).
    apply map_size_insert_None, lookup_delete_eq. }
  assert (Hnone : (m !! tid = None \/ exists c0, m !! tid = Some c0 /\ is_awaiting c0 = false) ->
                  filter P m !! tid = None).
  { intros H. apply map_lookup_filter_None.
    destruct H as [H|(c0 & H & Ha)]; [by left|right].
    intros x Hx. unfold P. simpl. congruence. }
  destruct (is_awaiting c) eqn:Hc.
  - rewrite map_filter_insert_True by done.
    destruct (m !! tid) as [c0|] eqn:Hl; [destruct (is_awaiting c0) eqn:Ha|]; simpl.
    + rewrite map_size_insert_Some; [lia|].
      exists c0. by apply map_lookup_filter_Some.
    + rewrite map_size_insert_None; [lia|]. apply Hnone. right. by exists c0.
    + rewrite map_size_insert_None; [lia|]. apply Hnone. by left.
  - rewrite map_filter_insert_False by (unfold P; simpl; congruence).
    rewrite map_filter_delete.
    destruct (m !! tid) as [c0|] eqn:Hl; [destruct (is_awaiting c0) eqn:Ha|]; simpl.
    + rewrite (Hold c0) by done. lia.
    + rewrite map_size_delete_None; [lia|]. apply Hnone. right. by exists c0.
    + rewrite map_size_delete_None; [lia|]. apply Hnone. by left.
Qed.

Lemma in_pipeline_insert (s : System) (q : TaskQueue) (tid : string) (c : Coroutine) :
  in_pipeline (mkSystem q (<[tid := c]> (coroutines s)))
  + match coroutines s !! tid with
    | Some c0 => Nat.b2n (is_awaiting c0)
    | None => 0
    end
  = in_pipeline s + Nat.b2n (is_awaiting c).
Proof. apply awaiting_count_insert. Qed.

Lemma in_pipeline_all_finished (s : System) :
  (forall tid c, coroutines s !! tid = Some c -> finished c = true) ->
  in_pipeline s = 0.
Proof.
  intros Hfin. unfold in_pipeline. apply map_size_empty_iff, map_empty.
  intros tid. apply map_lookup_filter_None. right. intros c Hl. simpl.
  apply Hfin in Hl. destruct c; simpl in *; congruence.
Qed.

Lemma process_task_enter_semaphore q now tid :
  _semaphore (fst (process_task_enter q now tid)) = _semaphore q.
Proof.
  unfold process_task_enter. simpl.
  destruct (_tasks q !! tid) as [task|]; [|done].
  destruct (_audio_path task) as [[|a p]|]; simpl;
    by rewrite update_task_semaphore.
Qed.

(** The first segment either returns at once, its slot given back, or
    stops at the [await] holding one slot. *)
Lemma process_task_start_semaphore q now tid q' c :
  process_task_start q now tid = Some (q', c) ->
  (c = Returned /\ _semaphore q' = _semaphore q)
  \/ (exists audio_path options,
        c = Awaiting audio_path options /\ S (_semaphore q') = _semaphore q).
Proof.
  unfold process_task_start, semaphore_acquire.
  destruct (_semaphore q) as [|n] eqn:Hsem; simpl; [done|].
  pose proof (process_task_enter_semaphore (with_semaphore n q) now tid) as Hent.
  destruct (process_task_enter (with_semaphore n q) now tid) as [q2 [|a o]];
    simpl in Hent; intros [= <- <-].
  - left. split; [done|]. simpl. by rewrite Hent.
  - right. exists a, o. split; [done|]. by rewrite Hent.
Qed.

Lemma process_task_start_suspended q now tid :
  _semaphore q = 0 -> process_task_start q now tid = None.
Proof. intros H. unfold process_task_start, semaphore_acquire. by rewrite H. Qed.

Lemma process_task_start_enabled q now tid :
  0 < _semaphore q -> is_Some (process_task_start q now tid).
Proof.
  intros H. unfold process_task_start, semaphore_acquire.
  destruct (_semaphore q) as [|n]; [lia|]. simpl.
  destruct (process_task_enter (with_semaphore n q) now tid) as [q2 [|a o]]; eauto.
Qed.

(** The second segment gives the slot back whatever the outcome. *)
Lemma process_task_finish_semaphore q now tid o :
  _semaphore (fst (process_task_finish q now tid o)) = S (_semaphore q)
  /\ finished (snd (process_task_finish q now tid o)) = true.
Proof.
  unfold process_task_finish, process_task_resume.
  destruct o; simpl; rewrite ?update_task_semaphore; done.
Qed.

Lemma delete_task_semaphore q tid :
  _semaphore (fst (delete_task q tid)) = _semaphore q.
Proof.
  unfold delete_task. pose proof (get_task_semaphore q tid) as H.
  destruct (get_task q tid) as [q1 [t|]]; simpl in *; done.
Qed.

(** Free slots plus coroutines at the pipeline call never changes. *)
Lemma step_conserves_slots (s s' : System) (ev : Event) :
  step s ev = Some s' ->
  _semaphore (queue s') + in_pipeline s' = _semaphore (queue s) + in_pipeline s.
Proof.
  destruct ev as [tid now a o|tid now|tid now stage p|tid now o|tid|tid|now h]; simpl.
  - destruct (coroutines s !! tid) as [c|] eqn:Hc; [done|]. intros [= <-].
    pose proof (in_pipeline_insert s (fst (create_task (queue s) tid now a o)) tid Waiting) as H.
    rewrite Hc in H. simpl in *. lia.
  - destruct (coroutines s !! tid) as [[]|] eqn:Hc; try done.
    destruct (process_task_start (queue s) now tid) as [[q c]|] eqn:Hst; [|done].
    simpl. intros [= <-].
    pose proof (in_pipeline_insert s q tid c) as H. rewrite Hc in H.
    apply process_task_start_semaphore in Hst as [[-> Hs]|(a & o & -> & Hs)];
      simpl in *; lia.
  - destruct (coroutines s !! tid) as [[]|]; try done. intros [= <-].
    unfold progress_callback. simpl. by rewrite update_task_semaphore.
  - destruct (coroutines s !! tid) as [[]|] eqn:Hc; try done.
    pose proof (process_task_finish_semaphore (queue s) now tid o) as [Hs Hf].
    destruct (process_task_finish (queue s) now tid o) as [q c]. intros [= <-].
    pose proof (in_pipeline_insert s q tid c) as H. rewrite Hc in H.
    simpl in *. destruct c; simpl in *; try done; lia.
  - intros [= <-]. simpl. by rewrite get_task_semaphore.
  - intros [= <-]. simpl. by rewrite delete_task_semaphore.
  - intros [= <-]. simpl. by rewrite cleanup_old_tasks_semaphore.
Qed.

Lemma run_conserves_slots (evs : list Event) (s s' : System) :
  run s evs = Some s' ->
  _semaphore (queue s') + in_pipeline s' = _semaphore (queue s) + in_pipeline s.
Proof.
  revert s. induction evs as [|ev evs IH]; intros s; simpl.
  - by intros [= <-].
  - destruct (step s ev) as [s1|] eqn:Hstep; [|done].
    intros Hrun. rewrite (IH _ Hrun). by apply (step_conserves_slots _ _ ev).
Qed.

Lemma reachable_conserves_slots (C : nat) (evs : list Event) (s : System) :
  run (initial C) evs = Some s ->
  _semaphore (queue s) + in_pipeline s = C.
Proof.
  intros Hrun. rewrite (run_conserves_slots _ _ _ Hrun). simpl.
  unfold in_pipeline. simpl. rewrite map_filter_empty, map_size_empty. lia.
Qed.

(** C2: free slots plus executions at the pipeline call always equals the
    capacity; the segment that follows the pipeline call gives the slot
    back for every outcome (result, [Exception], or an exception that
    escapes the handler) and leaves the coroutine finished, so that it
    can never release again; the first segment, when it returns early,
    has given its slot back too.  Hence once every coroutine has
    finished, all [C] slots are free. *)
Theorem admission_slots_conserved (C : nat) (evs : list Event) (s : System) :
  run (initial C) evs = Some s ->
  _semaphore (queue s) + in_pipeline s = C
  /\ ((forall tid c, coroutines s !! tid = Some c -> finished c = true) ->
      _semaphore (queue s) = C)
  /\ (forall tid now o audio_path options,
        coroutines s !! tid = Some (Awaiting audio_path options) ->
        exists s' c,
          step s (Finish tid now o) = Some s'
          /\ _semaphore (queue s') = S (_semaphore (queue s))
          /\ coroutines s' !! tid = Some c /\ finished c = true)
  /\ (forall tid now s',
        coroutines s !! tid = Some Waiting ->
        step s (Acquire tid now) = Some s' ->
        (coroutines s' !! tid = Some Returned
         /\ _semaphore (queue s') = _semaphore (queue s))
        \/ (exists audio_path options,
              coroutines s' !! tid = Some (Awaiting audio_path options)
              /\ S (_semaphore (queue s')) = _semaphore (queue s)))
  /\ (forall tid c now o,
        coroutines s !! tid = Some c -> finished c = true ->
        step s (Finish tid now o) = None /\ step s (Acquire tid now) = None).
Proof.
  intros Hrun. pose proof (reachable_conserves_slots C evs s Hrun) as Hinv.
  split; [done|]. split; [|split; [|split]].
  - intros Hfin. rewrite (in_pipeline_all_finished s Hfin) in Hinv. lia.
  - intros tid now o a opts Hc. simpl. rewrite Hc.
    pose proof (process_task_finish_semaphore (queue s) now tid o) as [Hs Hf].
    destruct (process_task_finish (queue s) now tid o) as [q c].
    eexists _, c. split; [done|]. simpl. by rewrite lookup_insert_eq.
  - intros tid now s' Hc. simpl. rewrite Hc.
    destruct (process_task_start (queue s) now tid) as [[q c]|] eqn:Hst; [|done].
    simpl. intros [= <-]. simpl. rewrite lookup_insert_eq.
    apply process_task_start_semaphore in Hst as [[-> Hs]|(a & o & -> & Hs)].
    + by left.
    + right. by exists a, o.
  - intros tid c now o Hc Hf. simpl. rewrite Hc. by destruct c.
Qed.

Lemma admission_slots_conserved_witness :
  run (initial 1) faulty_trace = Some faulty_state
  /\ (forall tid c, coroutines faulty_state !! tid = Some c -> finished c = true)
  /\ _semaphore (queue faulty_state) = 1.
Proof.
  assert (run (initial 1) faulty_trace = Some faulty_state) as Hrun
    by (vm_compute; reflexivity).
  assert (forall tid c, coroutines faulty_state !! tid = Some c -> finished c = true)
    as Hfin.
  { intros tid c.
    change (coroutines faulty_state)
      with (<["job-1" := Returned]> (<["job-2" := Propagated]> (∅ : gmap string Coroutine))).
    intros Hl. apply lookup_insert_Some in Hl as [[_ <-]|[_ Hl]]; [done|].
    apply lookup_insert_Some in Hl as [[_ <-]|[_ Hl]]; [done|].
    by rewrite lookup_empty in Hl. }
  split; [exact Hrun|]. split; [exact Hfin|].
  exact (proj1 (proj2 (admission_slots_conserved 1 faulty_trace faulty_state Hrun)) Hfin).
Defined.

(** ** Pipeline faults *)

(** C3, as the code has it: when the pipeline call of an execution ends
    with an [Exception] [e] and the task's record is in the store, the
    execution ends by returning (nothing escapes the [try] statement),
    and the record is FAILED, carries [str(e)] unchanged as its error
    and has [completed_at] set.  A fault that is not an [Exception]
    (such as [asyncio.CancelledError]) is not caught by
    [except Exception]: it leaves [process_task], and the record is left
    exactly as it was; the slot is given back in both cases. *)
Theorem pipeline_fault_marks_failed
    (s : System) (tid : string) (now : datetime) (str_e : string)
    (audio_path : string) (options : TranscriptionOptions) (task : TaskProgress) :
  coroutines s !! tid = Some (Awaiting audio_path options) ->
  _tasks (queue s) !! tid = Some task ->
  (snd (process_task_resume (queue s) now tid (Raises str_e)) = false
   /\ exists s' task',
        step s (Finish tid now (Raises str_e)) = Some s'
        /\ coroutines s' !! tid = Some Returned
        /\ _semaphore (queue s') = S (_semaphore (queue s))
        /\ _tasks (queue s') !! tid = Some task'
        /\ status task' = FAILED
        /\ error task' = Some str_e
        /\ completed_at task' = Some now
        /\ message task' = "Transcription failed")
  /\ (snd (process_task_resume (queue s) now tid Cancelled) = true
      /\ exists s',
           step s (Finish tid now Cancelled) = Some s'
           /\ coroutines s' !! tid = Some Propagated
           /\ _semaphore (queue s') = S (_semaphore (queue s))
           /\ _tasks (queue s') !! tid = Some task).
Proof.
  intros Hc Hl. split.
  - split; [done|].
    exists (mkSystem (fst (process_task_finish (queue s) now tid (Raises str_e)))
                     (<[tid := Returned]> (coroutines s))),
           (update_record now (Some FAILED) None (Some "Transcription failed")
              (Some str_e) task).
    split; [simpl; by rewrite Hc|].
    split; [simpl; apply lookup_insert_eq|].
    split; [simpl; by rewrite update_task_semaphore|].
    split.
    + simpl. rewrite update_task_lookup, decide_True by done. by rewrite Hl.
    + rewrite update_record_status, update_record_error,
        update_record_completed_at.
      done.
  - split; [done|].
    exists (mkSystem (fst (process_task_finish (queue s) now tid Cancelled))
                     (<[tid := Propagated]> (coroutines s))).
    split; [simpl; by rewrite Hc|].
    split; [simpl; apply lookup_insert_eq|].
    split; done.
Qed.

Lemma pipeline_fault_marks_failed_witness :
  coroutines running_state !! "job-1"
  = Some (Awaiting "uploads/1.wav" TranscriptionOptions_default)
  /\ _tasks (queue running_state) !! "job-1" = Some running_record
  /\ snd (process_task_resume (queue running_state) 1005%Z "job-1"
            (Raises "CUDA out of memory")) = false
  /\ exists s' task',
       step running_state (Finish "job-1" 1005%Z (Raises "CUDA out of memory")) = Some s'
       /\ coroutines s' !! "job-1" = Some Returned
       /\ _semaphore (queue s') = S (_semaphore (queue running_state))
       /\ _tasks (queue s') !! "job-1" = Some task'
       /\ status task' = FAILED
       /\ error task' = Some "CUDA out of memory"
       /\ completed_at task' = Some 1005%Z
       /\ message task' = "Transcription failed".
Proof.
  assert (coroutines running_state !! "job-1"
          = Some (Awaiting "uploads/1.wav" TranscriptionOptions_default)) as Hc
    by (vm_compute; reflexivity).
  assert (_tasks (queue running_state) !! "job-1" = Some running_record) as Hl
    by (vm_compute; reflexivity).
  split; [exact Hc|]. split; [exact Hl|].
  exact (proj1 (pipeline_fault_marks_failed running_state "job-1" 1005%Z
                  "CUDA out of memory" _ _ _ Hc Hl)).
Defined.

(** A pipeline call that is cancelled: the fault leaves [process_task]
    and the record is neither FAILED nor given an error or a
    [completed_at]. *)
Lemma cancelled_pipeline_call_is_not_marked_failed :
  (exists s' task',
     step running_state (Finish "job-1" 1005%Z Cancelled) = Some s'
     /\ snd (process_task_resume (queue running_state) 1005%Z "job-1" Cancelled)
        = true
     /\ coroutines s' !! "job-1" = Some Propagated
     /\ _tasks (queue s') !! "job-1" = Some task'
     /\ status task' = PROCESSING
     /\ error task' = None
     /\ completed_at task' = None)
  /\ ~ (forall (s : System) (tid : string) (now : datetime) (o : Outcome)
               (audio_path : string) (options : TranscriptionOptions)
               (task : TaskProgress),
          coroutines s !! tid = Some (Awaiting audio_path options) ->
          _tasks (queue s) !! tid = Some task ->
          (forall r, o <> Returns r) ->
          snd (process_task_resume (queue s) now tid o) = false
          /\ exists s' task',
               step s (Finish tid now o) = Some s'
               /\ _tasks (queue s') !! tid = Some task'
               /\ status task' = FAILED).
Proof.
  split.
  - eexists _, _. split; [vm_compute; reflexivity|].
    split; [reflexivity|]. split; [vm_compute; reflexivity|].
    split; [vm_compute; reflexivity|]. repeat split; reflexivity.
  - intros Hall.
    assert (coroutines running_state !! "job-1"
            = Some (Awaiting "uploads/1.wav" TranscriptionOptions_default)) as Hc
      by (vm_compute; reflexivity).
    assert (_tasks (queue running_state) !! "job-1" = Some running_record) as Hl
      by (vm_compute; reflexivity).
    destruct (Hall running_state "job-1" 1005%Z Cancelled _ _ _ Hc Hl
                ltac:(discriminate)) as [Hprop _].
    discriminate Hprop.
Qed.

(** ** Consistency of records, results and executions *)

Ltac record_fields :=
  rewrite ?update_record_result, ?update_record_status, ?update_record_error,
    ?update_record_started_at, ?update_record_completed_at; simpl.

Lemma record_ok_enter_failed now e t r :
  record_ok Waiting t r ->
  record_ok Returned (update_record now (Some FAILED) None None (Some e) t) r.
Proof.
  intros (Hres & Hst & Herr & Hr & Hsa & Hca). split; record_fields; [done|].
  right. eauto.
Qed.

Lemma record_ok_enter_processing now p m a o t r :
  record_ok Waiting t r ->
  record_ok (Awaiting a o)
    (update_record now (Some PROCESSING) (Some p) (Some m) None t) r.
Proof.
  intros (Hres & Hst & Herr & Hr & Hsa & Hca). split; record_fields; [done|].
  rewrite Hsa. simpl. eauto.
Qed.

Lemma record_ok_progress now st p m a o t r :
  is_processing st = true ->
  record_ok (Awaiting a o) t r ->
  record_ok (Awaiting a o) (update_record now (Some st) (Some p) (Some m) None t) r.
Proof.
  intros Hp (Hres & Hst & Herr & Hr & Hsa & Hca). split; record_fields; [done|].
  repeat split; try done.
  - destruct Hsa as [ts ->]. eauto.
  - by destruct st.
Qed.

Lemma record_ok_completed now p m a o t r x :
  record_ok (Awaiting a o) t r ->
  record_ok Returned
    (update_record now (Some COMPLETED) (Some p) (Some m) None t) (Some x).
Proof.
  intros (Hres & Hst & Herr & Hr & Hsa & Hca). split; record_fields.
  - intros y Hy. apply Hres in Hy. congruence.
  - left. eauto.
Qed.

Lemma record_ok_failed now m e a o t r :
  record_ok (Awaiting a o) t r ->
  record_ok Returned (update_record now (Some FAILED) None (Some m) (Some e) t) r.
Proof.
  intros (Hres & Hst & Herr & Hr & Hsa & Hca). split; record_fields; [done|].
  right. eauto.
Qed.

Lemma record_ok_cancelled a o t r :
  record_ok (Awaiting a o) t r -> record_ok Propagated t r.
Proof. done. Qed.

Lemma record_ok_join c t r :
  record_ok c t r ->
  record_ok c (match r with Some x => set_result_field (Some x) t | None => t end) r.
Proof.
  destruct r as [x|]; [|done]. intros [Hres Hc]. split; [|exact Hc].
  simpl. congruence.
Qed.

Lemma status_map_is_processing (stage : string) :
  is_processing (default PROCESSING (status_map !! stage)) = true.
Proof.
  destruct (status_map !! stage) as [st|] eqn:Hl; [|done]. simpl.
  apply elem_of_list_to_map_2 in Hl.
  repeat (apply elem_of_cons in Hl as [[= _ ->]|Hl]; [done|]).
  by apply elem_of_nil in Hl.
Qed.

Lemma process_task_start_lookup q now tid0 q' c :
  process_task_start q now tid0 = Some (q', c) ->
  _task_results q' = _task_results q
  /\ (forall tid, tid <> tid0 -> _tasks q' !! tid = _tasks q !! tid)
  /\ match _tasks q !! tid0 with
     | None => c = Returned /\ _tasks q' !! tid0 = None
     | Some task =>
         (c = Returned
          /\ _tasks q' !! tid0
             = Some (update_record now (Some FAILED) None None
                       (Some "Audio path not found") task))
         \/ (exists a o,
               c = Awaiting a o
               /\ _tasks q' !! tid0
                  = Some (update_record now (Some PROCESSING) (Some 0%float)
                            (Some "Starting transcription") None task))
     end.
Proof.
  unfold process_task_start, semaphore_acquire.
  destruct (_semaphore q) as [|n]; simpl; [done|].
  unfold process_task_enter. simpl.
  destruct (_tasks q !! tid0) as [task|] eqn:Hl.
  - destruct (_audio_path task) as [[|ch p]|]; intros [= <- <-]; simpl;
      rewrite update_task_results; (split; [done|]); (split;
        [intros tid Hne; rewrite update_task_lookup, decide_False by done; done|]);
      rewrite update_task_lookup, decide_True by done; simpl; rewrite Hl; simpl;
      eauto.
  - intros [= <- <-]. simpl. eauto.
Qed.

Lemma process_task_finish_lookup q now tid0 o :
  let q' := fst (process_task_finish q now tid0 o) in
  (forall tid, tid <> tid0 ->
     _tasks q' !! tid = _tasks q !! tid
     /\ _task_results q' !! tid = _task_results q !! tid)
  /\ match o with
     | Returns r =>
         _task_results q' !! tid0 = Some r
         /\ _tasks q' !! tid0
            = update_record now (Some COMPLETED) (Some 100%float)
                (Some "Transcription completed successfully") None
              <$> _tasks q !! tid0
     | Raises str_e =>
         _task_results q' !! tid0 = _task_results q !! tid0
         /\ _tasks q' !! tid0
            = update_record now (Some FAILED) None (Some "Transcription failed")
                (Some str_e)
              <$> _tasks q !! tid0
     | Cancelled =>
         _task_results q' !! tid0 = _task_results q !! tid0
         /\ _tasks q' !! tid0 = _tasks q !! tid0
     end.
Proof.
  unfold process_task_finish, process_task_resume.
  destruct o as [r|str_e|]; simpl; split;
    try (intros tid Hne);
    rewrite ?update_task_results, ?update_task_lookup; simpl;
    repeat case_decide; try done; simpl;
    rewrite ?lookup_insert_eq, ?lookup_insert_ne by done; done.
Qed.

Lemma delete_task_lookup q tid0 tid :
  (tid <> tid0 ->
     _tasks (fst (delete_task q tid0)) !! tid = _tasks q !! tid
     /\ _task_results (fst (delete_task q tid0)) !! tid = _task_results q !! tid)
  /\ _tasks (fst (delete_task q tid0)) !! tid0 = None
  /\ (_tasks q !! tid0 = None -> fst (delete_task q tid0) = q)
  /\ (is_Some (_tasks q !! tid0) ->
      _task_results (fst (delete_task q tid0)) !! tid0 = None).
Proof.
  unfold delete_task.
  pose proof (get_task_lookup q tid0) as Hg.
  pose proof (get_task_results q tid0) as Hr.
  destruct (_tasks q !! tid0) as [task|] eqn:Hl.
  - assert (exists t, get_task q tid0 = (fst (get_task q tid0), Some t)) as [t Ht].
    { unfold get_task. rewrite Hl. destruct (_task_results q !! tid0); eauto. }
    rewrite Ht in *. simpl in *. split; [|split; [|split]].
    + intros Hne. rewrite !lookup_delete_ne by done.
      rewrite Hg, decide_False, Hr; done.
    + apply lookup_delete_eq.
    + done.
    + intros _. apply lookup_delete_eq.
  - rewrite (get_task_missing q tid0 Hl). simpl. split; [|split; [|split]]; done.
Qed.

Lemma initial_consistent (C : nat) : consistent (initial C).
Proof. intros tid. simpl. by rewrite !lookup_empty. Qed.

Lemma step_consistent (s s' : System) (ev : Event) :
  consistent s -> step s ev = Some s' -> consistent s'.
Proof.
  intros Hc Hstep tid. pose proof (Hc tid) as Htid.
  destruct ev as [tid0 now a o|tid0 now|tid0 now stage p|tid0 now o|tid0|tid0|now h];
    simpl in Hstep.
  - (* Upload *)
    pose proof (Hc tid0) as H0.
    destruct (coroutines s !! tid0) eqn:Hc0; [done|]. injection Hstep as <-. simpl.
    destruct (decide (tid = tid0)) as [->|Hne].
    + rewrite !lookup_insert_eq. intros t [= <-]. destruct H0 as [_ ->]. done.
    + rewrite !lookup_insert_ne by done. exact Htid.
  - (* Acquire *)
    pose proof (Hc tid0) as H0.
    destruct (coroutines s !! tid0) as [[]|] eqn:Hc0; try done.
    destruct (process_task_start (queue s) now tid0) as [[q c]|] eqn:Hst; [|done].
    simpl in Hstep. injection Hstep as <-. simpl.
    apply process_task_start_lookup in Hst as (Hres & Hother & Hself).
    rewrite Hres.
    destruct (decide (tid = tid0)) as [->|Hne].
    + rewrite lookup_insert_eq. intros t Ht.
      destruct (_tasks (queue s) !! tid0) as [task|] eqn:Hl.
      * specialize (H0 task eq_refl).
        destruct Hself as [[-> Hq]|(a & o & -> & Hq)];
          rewrite Hq in Ht; injection Ht as <-.
        -- by apply record_ok_enter_failed.
        -- by apply record_ok_enter_processing.
      * destruct Hself as [_ Hq]. congruence.
    + rewrite lookup_insert_ne by done. rewrite Hother by done. exact Htid.
  - (* Progress *)
    destruct (coroutines s !! tid0) as [[|a o| |]|] eqn:Hc0; try done.
    injection Hstep as <-. unfold progress_callback. simpl.
    rewrite update_task_results, update_task_lookup.
    destruct (decide (tid0 = tid)) as [<-|Hne]; [|exact Htid].
    rewrite Hc0 in *. intros t Ht.
    destruct (_tasks (queue s) !! tid0) as [task|]; [|done].
    injection Ht as <-. apply record_ok_progress; [apply status_map_is_processing|].
    by apply Htid.
  - (* Finish *)
    destruct (coroutines s !! tid0) as [[|a opts| |]|] eqn:Hc0; try done.
    pose proof (process_task_finish_lookup (queue s) now tid0 o) as [Hother Hself].
    destruct (process_task_finish (queue s) now tid0 o) as [q c] eqn:Hfin.
    injection Hstep as <-. simpl in *.
    destruct (decide (tid = tid0)) as [->|Hne].
    + rewrite lookup_insert_eq. rewrite Hc0 in Htid. intros t Ht.
      unfold process_task_finish, process_task_resume in Hfin.
      destruct o as [r|str_e|]; destruct Hself as [Hr Hq];
        rewrite Hq in Ht; rewrite Hr;
        injection Hfin as _ <-;
        destruct (_tasks (queue s) !! tid0) as [task|]; try done;
        injection Ht as <-.
      * by eapply record_ok_completed, Htid.
      * by eapply record_ok_failed, Htid.
      * by eapply record_ok_cancelled, Htid.
    + rewrite lookup_insert_ne by done.
      destruct (Hother tid Hne) as [-> ->]. exact Htid.
  - (* GetTask *)
    injection Hstep as <-. simpl.
    rewrite get_task_results, get_task_lookup.
    destruct (decide (tid0 = tid)) as [<-|Hne]; [|exact Htid].
    destruct (coroutines s !! tid0) as [c|].
    + intros t Ht. destruct (_tasks (queue s) !! tid0) as [task|]; [|done].
      injection Ht as <-. by apply record_ok_join, Htid.
    + destruct Htid as [-> ->]. done.
  - (* Delete *)
    injection Hstep as <-. simpl.
    destruct (delete_task_lookup (queue s) tid0 tid) as (Hother & Hgone & Hnone & Hres).
    destruct (decide (tid = tid0)) as [->|Hne].
    + rewrite Hgone. destruct (coroutines s !! tid0) as [c|]; [done|].
      destruct Htid as [Ht Hr]. rewrite (Hnone Ht). done.
    + destruct (Hother Hne) as [-> ->]. exact Htid.
  - (* Cleanup *)
    injection Hstep as <-. simpl.
    rewrite cleanup_old_tasks_tasks, cleanup_old_tasks_results.
    destruct (swept (queue s) now h tid) eqn:Hsw; [|exact Htid].
    destruct (coroutines s !! tid) as [c|]; [done|].
    unfold swept in Hsw. destruct Htid as [Ht _]. by rewrite Ht in Hsw.
Qed.

Lemma run_consistent (evs : list Event) (s s' : System) :
  consistent s -> run s evs = Some s' -> consistent s'.
Proof.
  revert s. induction evs as [|ev evs IH]; intros s Hc; simpl.
  - by intros [= <-].
  - destruct (step s ev) as [s1|] eqn:Hstep; [|done].
    apply IH. by apply (step_consistent s s1 ev).
Qed.

Lemma reachable_consistent (C : nat) (evs : list Event) (s : System) :
  run (initial C) evs = Some s -> consistent s.
Proof. apply run_consistent, initial_consistent. Qed.

(** C1: whatever the events (any number of uploads, in any interleaving)
    and whatever the capacity [C], at most [C] executions are at the
    pipeline call, each of them with its record (if still stored) in one
    of the running statuses; and when [C] of them are there, no waiting
    execution can obtain a slot. *)
Theorem at_most_C_jobs_in_pipeline (C : nat) (evs : list Event) (s : System) :
  run (initial C) evs = Some s ->
  in_pipeline s <= C
  /\ (forall tid audio_path options t,
        coroutines s !! tid = Some (Awaiting audio_path options) ->
        _tasks (queue s) !! tid = Some t ->
        is_processing (status t) = true)
  /\ (in_pipeline s = C -> forall tid now, step s (Acquire tid now) = None).
Proof.
  intros Hrun. pose proof (reachable_conserves_slots C evs s Hrun) as Hinv.
  split; [lia|]. split.
  - intros tid a o t Hc Hl.
    pose proof (reachable_consistent C evs s Hrun tid) as Hcons.
    rewrite Hc in Hcons. by destruct (Hcons t Hl) as [_ [Hst _]].
  - intros Hfull tid now. simpl.
    destruct (coroutines s !! tid) as [[]|]; try done.
    rewrite process_task_start_suspended; [done|lia].
Qed.

Lemma at_most_C_jobs_in_pipeline_witness :
  run (initial 2) burst_trace = Some burst_state
  /\ in_pipeline burst_state <= 2
  /\ (forall tid audio_path options t,
        coroutines burst_state !! tid = Some (Awaiting audio_path options) ->
        _tasks (queue burst_state) !! tid = Some t ->
        is_processing (status t) = true)
  /\ (in_pipeline burst_state = 2 ->
      forall tid now, step burst_state (Acquire tid now) = None).
Proof.
  assert (run (initial 2) burst_trace = Some burst_state) as Hrun
    by (vm_compute; reflexivity).
  split; [exact Hrun|].
  exact (at_most_C_jobs_in_pipeline 2 burst_trace burst_state Hrun).
Defined.

(** ** Result and error against status *)

(** C4: in every state the server can reach, a task's record has a
    stored result exactly when its status is COMPLETED and an error
    exactly when its status is FAILED; [get_task] hands out the record
    with the stored result joined in; so a terminal record has exactly
    one of the two. *)
Theorem result_and_error_match_status
    (C : nat) (evs : list Event) (s : System) (tid : string) (t : TaskProgress) :
  run (initial C) evs = Some s ->
  _tasks (queue s) !! tid = Some t ->
  (is_Some (_task_results (queue s) !! tid) <-> status t = COMPLETED)
  /\ (is_Some (error t) <-> status t = FAILED)
  /\ (exists t',
        snd (get_task (queue s) tid) = Some t'
        /\ result t' = _task_results (queue s) !! tid
        /\ status t' = status t
        /\ error t' = error t)
  /\ (is_terminal (status t) = true ->
      (is_Some (_task_results (queue s) !! tid) /\ error t = None)
      \/ (_task_results (queue s) !! tid = None /\ is_Some (error t))).
Proof.
  intros Hrun Hl. pose proof (reachable_consistent C evs s Hrun tid) as Hc.
  destruct (coroutines s !! tid) as [c|]; [|destruct Hc; congruence].
  destruct (Hc t Hl) as [Hres Hcase]. clear Hc.
  assert (Hjoin : exists t',
             snd (get_task (queue s) tid) = Some t'
             /\ result t' = _task_results (queue s) !! tid
             /\ status t' = status t /\ error t' = error t).
  { unfold get_task. rewrite Hl.
    destruct (_task_results (queue s) !! tid) as [r|] eqn:Hr; simpl.
    - by eexists.
    - exists t. repeat split. destruct (result t) as [x|]; [|done].
      by specialize (Hres x eq_refl). }
  destruct c as [|a o| |].
  - destruct Hcase as (Hst & Herr & Hr & _). rewrite Hst, Herr, Hr in *.
    repeat split; try done; by intros [? ?].
  - destruct Hcase as (Hst & Herr & Hr & _). rewrite Herr, Hr in *.
    destruct (status t); try done;
      repeat split; try done; by intros [? ?].
  - destruct Hcase as [(Hst & Herr & Hr & _)|(Hst & Herr & Hr & _)];
      rewrite Hst in *.
    + rewrite Herr in *. repeat split; try done; try (by intros [? ?]).
      intros _. by left.
    + rewrite Hr in *. repeat split; try done; try (by intros [? ?]).
      intros _. by right.
  - destruct Hcase as (Hst & Herr & Hr & _). rewrite Herr, Hr in *.
    destruct (status t); try done;
      repeat split; try done; by intros [? ?].
Qed.

Lemma completed_state_reached :
  run (initial 2) completed_trace = Some completed_state.
Proof. vm_compute. reflexivity. Qed.

Lemma completed_state_record :
  _tasks (queue completed_state) !! "job-1" = Some completed_record.
Proof. vm_compute. reflexivity. Qed.

Lemma result_and_error_match_status_witness :
  run (initial 2) completed_trace = Some completed_state
  /\ _tasks (queue completed_state) !! "job-1" = Some completed_record
  /\ (is_Some (_task_results (queue completed_state) !! "job-1")
      <-> status completed_record = COMPLETED)
  /\ (is_Some (error completed_record) <-> status completed_record = FAILED)
  /\ (exists t',
        snd (get_task (queue completed_state) "job-1") = Some t'
        /\ result t' = _task_results (queue completed_state) !! "job-1"
        /\ status t' = status completed_record
        /\ error t' = error completed_record)
  /\ (is_terminal (status completed_record) = true ->
      (is_Some (_task_results (queue completed_state) !! "job-1")
       /\ error completed_record = None)
      \/ (_task_results (queue completed_state) !! "job-1" = None
          /\ is_Some (error completed_record))).
Proof.
  assert (run (initial 2) completed_trace = Some completed_state) as Hrun
    by (vm_compute; reflexivity).
  assert (_tasks (queue completed_state) !! "job-1" = Some completed_record) as Hl
    by (vm_compute; reflexivity).
  split; [exact Hrun|]. split; [exact Hl|].
  exact (result_and_error_match_status 2 completed_trace completed_state
           "job-1" completed_record Hrun Hl).
Defined.

(** ** Records after the end of their execution, and after deletion *)

Lemma kept_or_gone (m m' : gmap string TaskProgress) (tid : string) (t : TaskProgress) :
  m !! tid = Some t ->
  m' !! tid = m !! tid ->
  m' !! tid = None \/ exists t', m' !! tid = Some t' /\ same_but_result t t'.
Proof. intros Hl ->. right. by exists t. Qed.

(** A task whose coroutine has finished: no event touches its coroutine,
    and its record can only be removed or have the result joined. *)
Lemma step_finished_record (s s' : System) (ev : Event) (tid : string)
    (c : Coroutine) (t : TaskProgress) :
  coroutines s !! tid = Some c -> finished c = true ->
  _tasks (queue s) !! tid = Some t ->
  step s ev = Some s' ->
  coroutines s' !! tid = Some c
  /\ (_tasks (queue s') !! tid = None
      \/ exists t', _tasks (queue s') !! tid = Some t' /\ same_but_result t t').
Proof.
  intros Hc Hf Hl Hstep.
  destruct ev as [tid0 now a o|tid0 now|tid0 now stage p|tid0 now o|tid0|tid0|now h];
    simpl in Hstep.
  - destruct (coroutines s !! tid0) eqn:Hc0; [done|]. injection Hstep as <-. simpl.
    assert (tid0 <> tid) by congruence.
    rewrite !lookup_insert_ne by done. split; [done|]. by apply (kept_or_gone _ _ _ _ Hl).
  - destruct (coroutines s !! tid0) as [[]|] eqn:Hc0; try done.
    assert (tid <> tid0) by (intros ->; rewrite Hc in Hc0; by injection Hc0 as ->).
    destruct (process_task_start (queue s) now tid0) as [[q c0]|] eqn:Hst; [|done].
    simpl in Hstep. injection Hstep as <-. simpl.
    apply process_task_start_lookup in Hst as (_ & Hother & _).
    rewrite lookup_insert_ne by done. split; [done|].
    apply (kept_or_gone _ _ _ _ Hl). by apply Hother.
  - destruct (coroutines s !! tid0) as [[|a o| |]|] eqn:Hc0; try done.
    assert (tid0 <> tid) by (intros ->; rewrite Hc in Hc0; by injection Hc0 as ->).
    injection Hstep as <-. unfold progress_callback. simpl. split; [done|].
    apply (kept_or_gone _ _ _ _ Hl). by rewrite update_task_lookup, decide_False.
  - destruct (coroutines s !! tid0) as [[|a opts| |]|] eqn:Hc0; try done.
    assert (tid <> tid0) by (intros ->; rewrite Hc in Hc0; by injection Hc0 as ->).
    pose proof (process_task_finish_lookup (queue s) now tid0 o) as [Hother _].
    destruct (process_task_finish (queue s) now tid0 o) as [q c0].
    injection Hstep as <-. simpl in *.
    rewrite lookup_insert_ne by done. split; [done|].
    apply (kept_or_gone _ _ _ _ Hl). by apply Hother.
  - injection Hstep as <-. simpl. split; [done|].
    rewrite get_task_lookup. case_decide; [subst tid0|by apply (kept_or_gone _ _ _ _ Hl)].
    right. rewrite Hl. simpl. eexists. split; [done|].
    unfold same_but_result. by destruct (_task_results (queue s) !! tid).
  - injection Hstep as <-. simpl. split; [done|].
    destruct (delete_task_lookup (queue s) tid0 tid) as (Hother & Hgone & _).
    destruct (decide (tid = tid0)) as [->|Hne]; [by left|].
    apply (kept_or_gone _ _ _ _ Hl). by apply Hother.
  - injection Hstep as <-. simpl. split; [done|].
    rewrite cleanup_old_tasks_tasks.
    destruct (swept (queue s) now h tid); [by left|by apply (kept_or_gone _ _ _ _ Hl)].
Qed.

(** A task that was uploaded and whose record is gone: no event brings
    the record back. *)
Lemma step_deleted_record (s s' : System) (ev : Event) (tid : string) :
  is_Some (coroutines s !! tid) ->
  _tasks (queue s) !! tid = None ->
  step s ev = Some s' ->
  is_Some (coroutines s' !! tid) /\ _tasks (queue s') !! tid = None.
Proof.
  intros Hc Hl Hstep.
  destruct ev as [tid0 now a o|tid0 now|tid0 now stage p|tid0 now o|tid0|tid0|now h];
    simpl in Hstep.
  - destruct (coroutines s !! tid0) eqn:Hc0; [done|]. injection Hstep as <-. simpl.
    assert (tid0 <> tid) by (intros ->; rewrite Hc0 in Hc; by destruct Hc).
    by rewrite !lookup_insert_ne.
  - destruct (coroutines s !! tid0) as [[]|] eqn:Hc0; try done.
    destruct (process_task_start (queue s) now tid0) as [[q c0]|] eqn:Hst; [|done].
    simpl in Hstep. injection Hstep as <-. simpl.
    apply process_task_start_lookup in Hst as (_ & Hother & Hself).
    destruct (decide (tid = tid0)) as [->|Hne].
    + rewrite lookup_insert_eq. rewrite Hl in Hself. split; [eauto|by destruct Hself].
    + rewrite lookup_insert_ne by done. by rewrite Hother.
  - destruct (coroutines s !! tid0) as [[|a o| |]|] eqn:Hc0; try done.
    injection Hstep as <-. unfold progress_callback. simpl. split; [done|].
    rewrite update_task_lookup. case_decide; by rewrite Hl.
  - destruct (coroutines s !! tid0) as [[|a opts| |]|] eqn:Hc0; try done.
    pose proof (process_task_finish_lookup (queue s) now tid0 o) as [Hother Hself].
    destruct (process_task_finish (queue s) now tid0 o) as [q c0].
    injection Hstep as <-. simpl in *.
    destruct (decide (tid = tid0)) as [->|Hne].
    + rewrite lookup_insert_eq. split; [eauto|].
      destruct o; destruct Hself as [_ ->]; by rewrite Hl.
    + rewrite lookup_insert_ne by done. split; [done|].
      by destruct (Hother tid Hne) as [-> _].
  - injection Hstep as <-. simpl. split; [done|].
    rewrite get_task_lookup. case_decide; by rewrite Hl.
  - injection Hstep as <-. simpl. split; [done|].
    destruct (delete_task_lookup (queue s) tid0 tid) as (Hother & Hgone & _).
    destruct (decide (tid = tid0)) as [->|Hne]; [done|].
    by destruct (Hother Hne) as [-> _].
  - injection Hstep as <-. simpl. split; [done|].
    rewrite cleanup_old_tasks_tasks. by destruct (swept (queue s) now h tid).
Qed.

Lemma run_deleted_record (evs : list Event) (s s' : System) (tid : string) :
  is_Some (coroutines s !! tid) ->
  _tasks (queue s) !! tid = None ->
  run s evs = Some s' ->
  is_Some (coroutines s' !! tid) /\ _tasks (queue s') !! tid = None.
Proof.
  revert s. induction evs as [|ev evs IH]; intros s Hc Hl; simpl.
  - by intros [= <-].
  - destruct (step s ev) as [s1|] eqn:Hstep; [|done].
    destruct (step_deleted_record s s1 ev tid Hc Hl Hstep) as [Hc1 Hl1].
    by apply IH.
Qed.

Lemma run_finished_record (evs : list Event) (s s' : System) (tid : string)
    (c : Coroutine) (t : TaskProgress) :
  coroutines s !! tid = Some c -> finished c = true ->
  _tasks (queue s) !! tid = Some t ->
  run s evs = Some s' ->
  _tasks (queue s') !! tid = None
  \/ exists t', _tasks (queue s') !! tid = Some t' /\ same_but_result t t'.
Proof.
  revert s t. induction evs as [|ev evs IH]; intros s t Hc Hf Hl; simpl.
  - intros [= <-]. right. by exists t.
  - destruct (step s ev) as [s1|] eqn:Hstep; [|done]. intros Hrun.
    destruct (step_finished_record s s1 ev tid c t Hc Hf Hl Hstep)
      as [Hc1 [Hgone|(t1 & Hl1 & Hsame)]].
    + left. eapply run_deleted_record; [| |exact Hrun]; eauto.
    + destruct (IH s1 t1 Hc1 Hf Hl1 Hrun) as [Hgone|(t' & Hl' & Hsame')];
        [by left|right].
      exists t'. split; [done|]. unfold same_but_result in *. congruence.
Qed.

(** C5, as the code has it.  [update_task] does not look at the status a
    record already has, so it is the server's call discipline, not
    [update_task], that keeps terminal records as they are: in every
    state the server can reach, a COMPLETED or FAILED record is never
    changed by later events except for the joined [result] field, until
    it is removed.  [started_at] is unset while the task is PENDING, set
    in the running statuses, and [update_task] writes it only when it is
    unset and the new status is PROCESSING; [completed_at] is set exactly
    in the terminal statuses, and [update_task] stamps it at every update
    whose status is terminal. *)
Theorem terminal_records_unchanged_by_server
    (C : nat) (evs : list Event) (s : System) (tid : string) (t : TaskProgress) :
  run (initial C) evs = Some s ->
  _tasks (queue s) !! tid = Some t ->
  (is_terminal (status t) = true ->
   forall evs' s',
     run s evs' = Some s' ->
     _tasks (queue s') !! tid = None
     \/ exists t', _tasks (queue s') !! tid = Some t' /\ same_but_result t t')
  /\ (status t = PENDING -> started_at t = None)
  /\ (is_processing (status t) = true -> is_Some (started_at t))
  /\ (is_Some (completed_at t) <-> is_terminal (status t) = true)
  /\ (forall now st pr msg err,
        started_at (update_record now st pr msg err t)
        = match started_at t with
          | Some ts => Some ts
          | None => if bool_decide (st = Some PROCESSING) then Some now else None
          end)
  /\ (forall now st pr msg err,
        completed_at (update_record now st pr msg err t)
        = match st with
          | Some s0 => if is_terminal s0 then Some now else completed_at t
          | None => completed_at t
          end).
Proof.
  intros Hrun Hl. pose proof (reachable_consistent C evs s Hrun tid) as Hc.
  destruct (coroutines s !! tid) as [c|] eqn:Hco; [|destruct Hc; congruence].
  destruct (Hc t Hl) as [_ Hcase]. clear Hc.
  split; [|split; [|split; [|split; [|split]]]].
  - intros Hterm evs' s' Hrun'.
    apply (run_finished_record evs' s s' tid c t); try done.
    destruct c as [|a o| |]; try done;
      destruct Hcase as (Hst & _); destruct (status t); done.
  - intros Hp. destruct c as [|a o| |].
    + by destruct Hcase as (_ & _ & _ & Hsa & _).
    + destruct Hcase as (Hst & _). by rewrite Hp in Hst.
    + destruct Hcase as [(Hst & _)|(Hst & _)]; congruence.
    + destruct Hcase as (Hst & _). by rewrite Hp in Hst.
  - intros Hp. destruct c as [|a o| |].
    + destruct Hcase as (Hst & _). by rewrite Hst in Hp.
    + by destruct Hcase as (_ & _ & _ & Hsa & _).
    + destruct Hcase as [(Hst & _)|(Hst & _)]; by rewrite Hst in Hp.
    + by destruct Hcase as (_ & _ & _ & Hsa & _).
  - destruct c as [|a o| |].
    + destruct Hcase as (Hst & _ & _ & _ & Hca). rewrite Hst, Hca.
      split; [by intros [? ?]|done].
    + destruct Hcase as (Hst & _ & _ & _ & Hca). rewrite Hca.
      split; [by intros [? ?]|]. by destruct (status t).
    + destruct Hcase as [(Hst & _ & _ & Hca)|(Hst & _ & _ & Hca)];
        by rewrite Hst.
    + destruct Hcase as (Hst & _ & _ & _ & Hca). rewrite Hca.
      split; [by intros [? ?]|]. by destruct (status t).
  - intros. apply update_record_started_at.
  - intros. apply update_record_completed_at.
Qed.

Lemma terminal_records_unchanged_by_server_witness :
  run (initial 2) completed_trace = Some completed_state
  /\ _tasks (queue completed_state) !! "job-1" = Some completed_record
  /\ is_terminal (status completed_record) = true
  /\ run completed_state [GetTask "job-1"; Cleanup 2000%Z 24] = Some completed_state
  /\ (_tasks (queue completed_state) !! "job-1" = None
      \/ exists t', _tasks (queue completed_state) !! "job-1" = Some t'
                    /\ same_but_result completed_record t').
Proof.
  assert (run (initial 2) completed_trace = Some completed_state) as Hrun
    by (vm_compute; reflexivity).
  assert (_tasks (queue completed_state) !! "job-1" = Some completed_record) as Hl
    by (vm_compute; reflexivity).
  assert (run completed_state [GetTask "job-1"; Cleanup 2000%Z 24]
          = Some completed_state) as Hrun'
    by (vm_compute; reflexivity).
  split; [exact Hrun|]. split; [exact Hl|]. split; [reflexivity|].
  split; [exact Hrun'|].
  exact (proj1 (terminal_records_unchanged_by_server 2 completed_trace
                  completed_state "job-1" completed_record Hrun Hl)
           eq_refl _ _ Hrun').
Defined.

(** [update_task] called on a COMPLETED record: a status is written over
    the terminal one, and a terminal status stamps [completed_at] anew. *)
Lemma update_task_overwrites_terminal_record :
  _tasks (queue completed_state) !! "job-1" = Some completed_record
  /\ status completed_record = COMPLETED
  /\ completed_at completed_record = Some 1006%Z
  /\ status <$> _tasks (update_task (queue completed_state) 2000%Z "job-1"
                          (Some PROCESSING) None None None) !! "job-1"
     = Some PROCESSING
  /\ completed_at <$> _tasks (update_task (queue completed_state) 2000%Z "job-1"
                                (Some FAILED) None None (Some "late fault")) !! "job-1"
     = Some (Some 2000%Z)
  /\ ~ (forall q now tid st pr msg err t,
          _tasks q !! tid = Some t -> is_terminal (status t) = true ->
          _tasks (update_task q now tid st pr msg err) !! tid = Some t).
Proof.
  assert (_tasks (queue completed_state) !! "job-1" = Some completed_record) as Hl
    by (vm_compute; reflexivity).
  split; [exact Hl|]. do 4 (split; [vm_compute; reflexivity|]).
  intros Hall.
  specialize (Hall (queue completed_state) 2000%Z "job-1" (Some PROCESSING)
                None None None completed_record Hl eq_refl).
  rewrite update_task_lookup, decide_True, Hl in Hall by done.
  discriminate Hall.
Qed.

(** ** Deletion while the execution is in flight *)

(** When the pipeline call may suspend (as the transition system allows,
    though the shipped [transcribe] never does): once the record of an
    execution at the pipeline call has been deleted, progress callbacks
    leave the whole server state as it is and the record never comes
    back, the execution ends normally and gives its slot back; but on
    success [set_result] writes the result into [_task_results] without
    checking that the task still exists. *)
Lemma finish_after_delete_stores_result
    (s : System) (tid : string) (now : datetime) (r : TranscriptionResult)
    (audio_path : string) (options : TranscriptionOptions) :
  coroutines s !! tid = Some (Awaiting audio_path options) ->
  _tasks (queue s) !! tid = None ->
  _task_results (queue s) !! tid = None ->
  (forall now' stage p, step s (Progress tid now' stage p) = Some s)
  /\ exists s',
       step s (Finish tid now (Returns r)) = Some s'
       /\ coroutines s' !! tid = Some Returned
       /\ _semaphore (queue s') = S (_semaphore (queue s))
       /\ _tasks (queue s') !! tid = None
       /\ snd (get_task (queue s') tid) = None
       /\ _task_results (queue s') !! tid = Some r
       /\ _task_results (queue s') <> _task_results (queue s).
Proof.
  intros Hc Hl Hr. split.
  - intros now' stage p. simpl. rewrite Hc. unfold progress_callback.
    rewrite update_task_missing by done. by destruct s.
  - pose proof (process_task_finish_lookup (queue s) now tid (Returns r))
      as [_ [Hres Htask]].
    pose proof (process_task_finish_semaphore (queue s) now tid (Returns r))
      as [Hsem _].
    rewrite Hl in Htask. simpl in Htask.
    exists (mkSystem (fst (process_task_finish (queue s) now tid (Returns r)))
                     (<[tid := Returned]> (coroutines s))).
    split; [simpl; by rewrite Hc|].
    split; [apply lookup_insert_eq|].
    split; [exact Hsem|]. split; [exact Htask|].
    split; [by rewrite get_task_missing|]. split; [exact Hres|].
    cbn [queue]. intros Heq. apply (f_equal (fun m => m !! tid)) in Heq.
    rewrite Hres, Hr in Heq. done.
Qed.

Lemma finish_after_delete_stores_result_witness :
  run (initial 2) deleted_in_flight_trace = Some deleted_in_flight_state
  /\ coroutines deleted_in_flight_state !! "job-1"
     = Some (Awaiting "uploads/1.wav" TranscriptionOptions_default)
  /\ _tasks (queue deleted_in_flight_state) !! "job-1" = None
  /\ _task_results (queue deleted_in_flight_state) !! "job-1" = None
  /\ exists s',
       step deleted_in_flight_state (Finish "job-1" 1006%Z (Returns sample_result))
       = Some s'
       /\ coroutines s' !! "job-1" = Some Returned
       /\ _semaphore (queue s') = S (_semaphore (queue deleted_in_flight_state))
       /\ _tasks (queue s') !! "job-1" = None
       /\ snd (get_task (queue s') "job-1") = None
       /\ _task_results (queue s') !! "job-1" = Some sample_result
       /\ _task_results (queue s') <> _task_results (queue deleted_in_flight_state).
Proof.
  assert (coroutines deleted_in_flight_state !! "job-1"
          = Some (Awaiting "uploads/1.wav" TranscriptionOptions_default)) as Hc
    by (vm_compute; reflexivity).
  assert (_tasks (queue deleted_in_flight_state) !! "job-1" = None) as Hl
    by (vm_compute; reflexivity).
  assert (_task_results (queue deleted_in_flight_state) !! "job-1" = None) as Hr
    by (vm_compute; reflexivity).
  split; [vm_compute; reflexivity|].
  split; [exact Hc|]. split; [exact Hl|]. split; [exact Hr|].
  exact (proj2 (finish_after_delete_stores_result deleted_in_flight_state "job-1"
                  1006%Z sample_result _ _ Hc Hl Hr)).
Defined.

(** ** Progress values *)

(** C9, what the code does: a progress callback with the value 150.0 is
    stored as it is; the record's progress is then outside [0, 100], the
    range declared on the [progress] field. *)
Theorem progress_callback_stores_value_out_of_range :
  exists s t,
    run (initial 2)
      [ Upload "job-1" 1000%Z "uploads/1.wav" TranscriptionOptions_default;
        Acquire "job-1" 1002%Z;
        Progress "job-1" 1003%Z "transcribing" 150%float ] = Some s
    /\ _tasks (queue s) !! "job-1" = Some t
    /\ status t = TRANSCRIBING
    /\ progress t = 150%float
    /\ progress_in_range (progress t) = false
    /\ progress_in_range 0%float = true
    /\ progress_in_range 100%float = true.
Proof.
  eexists _, _. split; [vm_compute; reflexivity|].
  split; [vm_compute; reflexivity|].
  repeat split; vm_compute; reflexivity.
Qed.

(** ** The cleanup sweep at the boundary *)

Lemma cleanup_old_tasks_removes_old_terminal_witness :
  _tasks (queue faulty_state) !! "job-1" = Some failed_record
  /\ is_terminal (status failed_record) = true
  /\ (created_at failed_record < 2000)%Z
  /\ _tasks (cleanup_old_tasks (queue faulty_state) 2000%Z 0) !! "job-1" = None
  /\ _task_results (cleanup_old_tasks (queue faulty_state) 2000%Z 0) !! "job-1" = None.
Proof.
  assert (_tasks (queue faulty_state) !! "job-1" = Some failed_record) as Hl
    by (vm_compute; reflexivity).
  assert (created_at failed_record < 2000)%Z as Hlt by (vm_compute; reflexivity).
  split; [exact Hl|]. split; [reflexivity|]. split; [exact Hlt|].
  exact (proj2 (proj2 (proj2 (proj2
           (cleanup_old_tasks_removes_old_terminal (queue faulty_state) 2000%Z 0))))
           "job-1" failed_record Hl eq_refl Hlt).
Defined.

(** A task created, failed (its audio path is empty) and swept at one
    and the same clock reading: its age is 0, which does not exceed
    [max_age_hours = 0], and the sweep keeps it. *)
Lemma sweep_zero_keeps_terminal_task_of_age_zero :
  (exists s t,
     run (initial 2)
       [ Upload "job-1" 1000%Z "" TranscriptionOptions_default;
         Acquire "job-1" 1000%Z;
         Cleanup 1000%Z 0 ] = Some s
     /\ _tasks (queue s) !! "job-1" = Some t
     /\ status t = FAILED
     /\ created_at t = 1000%Z)
  /\ ~ (forall q cutoff tid t,
          _tasks q !! tid = Some t -> is_terminal (status t) = true ->
          _tasks (cleanup_old_tasks q cutoff 0) !! tid = None).
Proof.
  split.
  - eexists _, _. split; [vm_compute; reflexivity|].
    split; [vm_compute; reflexivity|]. split; reflexivity.
  - intros Hall.
    set (t := set_status FAILED (set_started_at None running_record)).
    specialize (Hall (with_tasks {["job-1" := t]} (TaskQueue_init 2)) 1000%Z "job-1" t).
    rewrite cleanup_old_tasks_tasks in Hall. unfold swept in Hall. simpl in Hall.
    rewrite lookup_singleton_eq in Hall. simpl in Hall.
    specialize (Hall eq_refl eq_refl). discriminate Hall.
Qed.


(** * Further properties of the store and the routes *)

Lemma TaskQueue_eq (q1 q2 : TaskQueue) :
  MAX_CONCURRENT_TASKS q1 = MAX_CONCURRENT_TASKS q2 ->
  _tasks q1 = _tasks q2 ->
  _task_results q1 = _task_results q2 ->
  _semaphore q1 = _semaphore q2 ->
  _running_tasks q1 = _running_tasks q2 ->
  q1 = q2.
Proof. destruct q1, q2. simpl. by intros -> -> -> -> ->. Qed.

(** X1: a task just created reads back, through [get_task], as PENDING
    with progress 0.0, the message "Task queued", no timestamps but
    [created_at], no error and no result, provided no result is stored
    under its identifier; the read changes nothing, and creating it left
    every other record as it was. *)
Theorem create_task_then_get_task (q : TaskQueue) (tid : string) (now : datetime)
    (audio_path : string) (options : TranscriptionOptions) :
  _task_results q !! tid = None ->
  get_task (fst (create_task q tid now audio_path options)) tid
  = (fst (create_task q tid now audio_path options),
     Some {| task_id := tid; status := PENDING; progress := 0%float;
             message := "Task queued"; created_at := now;
             started_at := None; completed_at := None; error := None;
             result := None;
             _audio_path := Some audio_path; _options := Some options |})
  /\ snd (create_task q tid now audio_path options) = tid
  /\ (forall tid', tid' <> tid ->
        _tasks (fst (create_task q tid now audio_path options)) !! tid'
        = _tasks q !! tid').
Proof.
  intros Hr. split; [|split; [done|]].
  - unfold get_task. simpl. by rewrite lookup_insert_eq, Hr.
  - intros tid' Hne. simpl. by rewrite lookup_insert_ne.
Qed.

Lemma create_task_then_get_task_witness :
  _task_results (TaskQueue_init 2) !! "job-1" = None
  /\ snd (get_task (fst (create_task (TaskQueue_init 2) "job-1" 1000%Z
                           "uploads/1.wav" TranscriptionOptions_default)) "job-1")
     = Some {| task_id := "job-1"; status := PENDING; progress := 0%float;
               message := "Task queued"; created_at := 1000%Z;
               started_at := None; completed_at := None; error := None;
               result := None;
               _audio_path := Some "uploads/1.wav";
               _options := Some TranscriptionOptions_default |}.
Proof.
  assert (_task_results (TaskQueue_init 2) !! "job-1" = None) as Hr by reflexivity.
  split; [exact Hr|].
  exact (f_equal snd
           (proj1 (create_task_then_get_task (TaskQueue_init 2) "job-1" 1000%Z
                     "uploads/1.wav" TranscriptionOptions_default Hr))).
Defined.

(** X2: when a result is stored under an identifier that has no record,
    [create_task] with that identifier yields a record whose first read
    already carries that result: [get_task] joins whatever
    [_task_results] holds, whatever the status. *)
Theorem create_task_joins_stale_result (q : TaskQueue) (tid : string)
    (now : datetime) (audio_path : string) (options : TranscriptionOptions)
    (r : TranscriptionResult) :
  _task_results q !! tid = Some r ->
  exists t,
    snd (get_task (fst (create_task q tid now audio_path options)) tid) = Some t
    /\ status t = PENDING
    /\ result t = Some r.
Proof.
  intros Hr. unfold get_task. simpl. rewrite lookup_insert_eq, Hr. simpl.
  by eexists.
Qed.

Lemma create_task_joins_stale_result_witness :
  _task_results (set_result (TaskQueue_init 2) "job-1" sample_result) !! "job-1"
  = Some sample_result
  /\ exists t,
       snd (get_task (fst (create_task
                             (set_result (TaskQueue_init 2) "job-1" sample_result)
                             "job-1" 1000%Z "uploads/1.wav"
                             TranscriptionOptions_default)) "job-1") = Some t
       /\ status t = PENDING
       /\ result t = Some sample_result.
Proof.
  assert (_task_results (set_result (TaskQueue_init 2) "job-1" sample_result)
            !! "job-1" = Some sample_result) as Hr by reflexivity.
  split; [exact Hr|].
  exact (create_task_joins_stale_result _ "job-1" 1000%Z "uploads/1.wav"
           TranscriptionOptions_default sample_result Hr).
Defined.

(** X3: [get_task] is idempotent: a second read returns the same record
    and leaves the store as the first read left it. *)
Theorem get_task_idempotent (q : TaskQueue) (tid : string) :
  get_task (fst (get_task q tid)) tid
  = (fst (get_task q tid), snd (get_task q tid)).
Proof.
  unfold get_task.
  destruct (_tasks q !! tid) as [t|] eqn:Hl; simpl; [|by rewrite Hl].
  destruct (_task_results q !! tid) as [r|] eqn:Hr; simpl.
  - rewrite lookup_insert_eq, Hr. simpl. f_equal.
    apply TaskQueue_eq; simpl; try done. by rewrite insert_insert_eq.
  - by rewrite Hl, Hr.
Qed.


(** X4: deleting a stored task through the route answers with the
    success message, removes the record and its stored result, leaves
    every other task and the free slots as they were, and a second
    delete of the same identifier answers 404. *)
Theorem delete_task_removes_then_not_found (q : TaskQueue) (tid : string)
    (t : TaskProgress) :
  _tasks q !! tid = Some t ->
  snd (delete_task q tid) = inr ("Task '" ++ tid ++ "' deleted successfully")
  /\ _tasks (fst (delete_task q tid)) !! tid = None
  /\ _task_results (fst (delete_task q tid)) !! tid = None
  /\ (forall tid', tid' <> tid ->
        _tasks (fst (delete_task q tid)) !! tid' = _tasks q !! tid'
        /\ _task_results (fst (delete_task q tid)) !! tid' = _task_results q !! tid')
  /\ _semaphore (fst (delete_task q tid)) = _semaphore q
  /\ delete_task (fst (delete_task q tid)) tid
     = (fst (delete_task q tid),
        inl (mkHTTPException 404 ("Task '" ++ tid ++ "' not found."))).
Proof.
  intros Hl.
  destruct (delete_task_lookup q tid tid) as (_ & Hgone & _ & Hres).
  split.
  { unfold delete_task, get_task. rewrite Hl.
    by destruct (_task_results q !! tid). }
  split; [done|]. split; [apply Hres; eauto|].
  split; [intros tid' Hne; by apply (delete_task_lookup q tid tid')|].
  split; [apply delete_task_semaphore|].
  unfold delete_task at 1. by rewrite get_task_missing.
Qed.

Lemma delete_task_removes_then_not_found_witness :
  _tasks (queue completed_state) !! "job-1" = Some completed_record
  /\ snd (delete_task (queue completed_state) "job-1")
     = inr "Task 'job-1' deleted successfully"
  /\ _tasks (fst (delete_task (queue completed_state) "job-1")) !! "job-1" = None
  /\ _task_results (fst (delete_task (queue completed_state) "job-1")) !! "job-1"
     = None.
Proof.
  assert (_tasks (queue completed_state) !! "job-1" = Some completed_record) as Hl
    by (vm_compute; reflexivity).
  split; [exact Hl|].
  pose proof (delete_task_removes_then_not_found (queue completed_state) "job-1"
                completed_record Hl) as (H1 & H2 & H3 & _).
  exact (conj H1 (conj H2 H3)).
Defined.

Lemma foldl_del_task_frame (l : list string) (q : TaskQueue) :
  MAX_CONCURRENT_TASKS (foldl del_task q l) = MAX_CONCURRENT_TASKS q
  /\ _running_tasks (foldl del_task q l) = _running_tasks q.
Proof.
  revert q. induction l as [|x l IH]; intros q; simpl; [done|].
  destruct (IH (del_task q x)) as [-> ->]. done.
Qed.

Lemma swept_after_cleanup q cutoff max_age_hours tid :
  swept (cleanup_old_tasks q cutoff max_age_hours) cutoff max_age_hours tid = false.
Proof.
  unfold swept at 1. rewrite cleanup_old_tasks_tasks.
  destruct (swept q cutoff max_age_hours tid) eqn:Hs; [done|].
  unfold swept in Hs. by destruct (_tasks q !! tid).
Qed.

(** X5: the sweep is idempotent: sweeping again with the same cutoff and
    the same age leaves the queue exactly as the first sweep left it;
    and a sweep only removes: whatever record or result is found after
    it was there before, unchanged. *)
Theorem cleanup_old_tasks_idempotent (q : TaskQueue) (cutoff : datetime)
    (max_age_hours : Z) :
  cleanup_old_tasks (cleanup_old_tasks q cutoff max_age_hours) cutoff max_age_hours
  = cleanup_old_tasks q cutoff max_age_hours
  /\ _tasks (cleanup_old_tasks q cutoff max_age_hours) ⊆ _tasks q
  /\ _task_results (cleanup_old_tasks q cutoff max_age_hours) ⊆ _task_results q.
Proof.
  split; [|split].
  - apply TaskQueue_eq.
    + unfold cleanup_old_tasks. by rewrite !(proj1 (foldl_del_task_frame _ _)).
    + apply map_eq. intros tid.
      by rewrite cleanup_old_tasks_tasks, swept_after_cleanup.
    + apply map_eq. intros tid.
      by rewrite cleanup_old_tasks_results, swept_after_cleanup.
    + by rewrite !cleanup_old_tasks_semaphore.
    + unfold cleanup_old_tasks. by rewrite !(proj2 (foldl_del_task_frame _ _)).
  - apply map_subseteq_spec. intros tid t.
    rewrite cleanup_old_tasks_tasks. by destruct (swept q cutoff max_age_hours tid).
  - apply map_subseteq_spec. intros tid t.
    rewrite cleanup_old_tasks_results. by destruct (swept q cutoff max_age_hours tid).
Qed.

Lemma reachable_record_cases (C : nat) (evs : list Event) (s : System)
    (tid : string) (t : TaskProgress) :
  run (initial C) evs = Some s ->
  _tasks (queue s) !! tid = Some t ->
  (status t = COMPLETED /\ exists r, _task_results (queue s) !! tid = Some r)
  \/ (status t = FAILED
      /\ exists e, error t = Some e /\ _task_results (queue s) !! tid = None)
  \/ (is_terminal (status t) = false /\ _task_results (queue s) !! tid = None).
Proof.
  intros Hrun Hl. pose proof (reachable_consistent C evs s Hrun tid) as Hc.
  destruct (coroutines s !! tid) as [c|]; [|destruct Hc; congruence].
  destruct (Hc t Hl) as [_ Hcase].
  destruct c as [|a o| |].
  - destruct Hcase as (Hst & _ & Hr & _). right. right. by rewrite Hst.
  - destruct Hcase as (Hst & _ & Hr & _). right. right.
    split; [by destruct (status t)|done].
  - destruct Hcase as [(Hst & _ & [r Hr] & _)|(Hst & [e He] & Hr & _)].
    + left. eauto.
    + right. left. eauto.
  - destruct Hcase as (Hst & _ & Hr & _). right. right.
    split; [by destruct (status t)|done].
Qed.

(** X6: in every state the server can reach, the result route answers
    404 for an unknown task, 500 "Task failed: <error>" for a FAILED
    task, 202 for a task that is neither FAILED nor COMPLETED, and for a
    COMPLETED task the stored result; the answer 500 "Task completed but
    result is missing." never occurs. *)
Theorem get_task_result_by_status (format_1f : float -> string)
    (C : nat) (evs : list Event) (s : System) (tid : string) :
  run (initial C) evs = Some s ->
  match _tasks (queue s) !! tid with
  | None =>
      snd (get_task_result format_1f (queue s) tid)
      = inl (mkHTTPException 404 ("Task '" ++ tid ++ "' not found."))
  | Some t =>
      match status t with
      | FAILED =>
          exists e, error t = Some e
            /\ snd (get_task_result format_1f (queue s) tid)
               = inl (mkHTTPException 500 ("Task failed: " ++ e))
      | COMPLETED =>
          exists r, _task_results (queue s) !! tid = Some r
            /\ snd (get_task_result format_1f (queue s) tid) = inr r
      | st =>
          snd (get_task_result format_1f (queue s) tid)
          = inl (mkHTTPException 202
                   ("Task is still " ++ TaskStatus_value st
                    ++ ". Progress: " ++ format_1f (progress t) ++ "%"))
      end
  end
  /\ snd (get_task_result format_1f (queue s) tid)
     <> inl (mkHTTPException 500 "Task completed but result is missing.").
Proof.
  intros Hrun. unfold get_task_result, get_task.
  destruct (_tasks (queue s) !! tid) as [t|] eqn:Hl; [|done].
  destruct (reachable_record_cases C evs s tid t Hrun Hl)
    as [(Hst & r & Hr)|[(Hst & e & He & Hr)|(Hst & Hr)]]; rewrite Hr; simpl.
  - rewrite Hst. simpl. split; [by exists r|discriminate].
  - rewrite Hst, He. simpl. split; [by exists e|discriminate].
  - destruct (status t); try discriminate; simpl;
      (split; [reflexivity|discriminate]).
Qed.

Lemma get_task_result_by_status_witness :
  run (initial 2) completed_trace = Some completed_state
  /\ snd (get_task_result (fun _ => "100.0") (queue completed_state) "job-1")
     <> inl (mkHTTPException 500 "Task completed but result is missing.").
Proof.
  assert (run (initial 2) completed_trace = Some completed_state) as Hrun
    by (vm_compute; reflexivity).
  split; [exact Hrun|].
  exact (proj2 (get_task_result_by_status (fun _ => "100.0") 2 completed_trace
                  completed_state "job-1" Hrun)).
Defined.


(** * Further invariants of the server *)

Lemma step_record_origin (s s' : System) (ev : Event) (tid : string)
    (t' : TaskProgress) :
  step s ev = Some s' ->
  _tasks (queue s') !! tid = Some t' ->
  record_origin s ev tid t'.
Proof.
  intros Hstep Hl'.
  destruct ev as [tid0 now a o|tid0 now|tid0 now stage p|tid0 now o|tid0|tid0|now h];
    simpl in Hstep.
  - destruct (coroutines s !! tid0) eqn:Hc0; [done|]. injection Hstep as <-.
    simpl in Hl'. destruct (decide (tid = tid0)) as [->|Hne].
    + rewrite lookup_insert_eq in Hl'. injection Hl' as <-.
      by eapply origin_created.
    + rewrite lookup_insert_ne in Hl' by done. by apply origin_kept.
  - destruct (coroutines s !! tid0) as [[]|] eqn:Hc0; try done.
    destruct (process_task_start (queue s) now tid0) as [[q c]|] eqn:Hst; [|done].
    simpl in Hstep. injection Hstep as <-. simpl in Hl'.
    apply process_task_start_lookup in Hst as (_ & Hother & Hself).
    destruct (decide (tid = tid0)) as [->|Hne].
    + destruct (_tasks (queue s) !! tid0) as [t|] eqn:Hl.
      * destruct Hself as [[_ Hq]|(a & o & _ & Hq)];
          rewrite Hq in Hl'; injection Hl' as <-.
        -- by eapply origin_rejected.
        -- by eapply origin_started.
      * destruct Hself as [_ Hq]. congruence.
    + rewrite Hother in Hl' by done. by apply origin_kept.
  - destruct (coroutines s !! tid0) as [[|a o| |]|] eqn:Hc0; try done.
    injection Hstep as <-. unfold progress_callback in Hl'. simpl in Hl'.
    rewrite update_task_lookup in Hl'. case_decide; [subst tid0|by apply origin_kept].
    destruct (_tasks (queue s) !! tid) as [t|] eqn:Hl; [|done].
    injection Hl' as <-. by eapply origin_progress.
  - destruct (coroutines s !! tid0) as [[|a opts| |]|] eqn:Hc0; try done.
    pose proof (process_task_finish_lookup (queue s) now tid0 o) as [Hother Hself].
    destruct (process_task_finish (queue s) now tid0 o) as [q c].
    injection Hstep as <-. simpl in *.
    destruct (decide (tid = tid0)) as [->|Hne].
    + destruct o as [r|str_e|]; destruct Hself as [_ Hq]; rewrite Hq in Hl';
        destruct (_tasks (queue s) !! tid0) as [t|] eqn:Hl; try done;
        injection Hl' as <-.
      * by eapply origin_completed.
      * by eapply origin_failed.
      * by apply origin_kept.
    + destruct (Hother tid Hne) as [Ht _]. rewrite Ht in Hl'. by apply origin_kept.
  - injection Hstep as <-. simpl in Hl'. rewrite get_task_lookup in Hl'.
    case_decide; [subst tid0|by apply origin_kept].
    destruct (_tasks (queue s) !! tid) as [t|] eqn:Hl; [|done].
    injection Hl' as <-.
    destruct (_task_results (queue s) !! tid) as [r|] eqn:Hr.
    + by eapply origin_joined.
    + by apply origin_kept.
  - injection Hstep as <-. simpl in Hl'.
    destruct (delete_task_lookup (queue s) tid0 tid) as (Hother & Hgone & _).
    destruct (decide (tid = tid0)) as [->|Hne]; [congruence|].
    destruct (Hother Hne) as [Ht _]. rewrite Ht in Hl'. by apply origin_kept.
  - injection Hstep as <-. simpl in Hl'. rewrite cleanup_old_tasks_tasks in Hl'.
    destruct (swept (queue s) now h tid); [done|]. by apply origin_kept.
Qed.

(** An invariant of single records that holds of a fresh record and is
    kept by every [update_record] and by the join of a result holds of
    every record in every reachable state. *)
Lemma record_invariant (P : string -> TaskProgress -> Prop) :
  (forall tid now a o,
     P tid {| task_id := tid; status := PENDING; progress := 0%float;
              message := "Task queued"; created_at := now;
              started_at := None; completed_at := None; error := None;
              result := None; _audio_path := Some a; _options := Some o |}) ->
  (forall tid t now st pr msg err,
     P tid t -> P tid (update_record now st pr msg err t)) ->
  (forall tid t r, P tid t -> P tid (set_result_field (Some r) t)) ->
  forall (evs : list Event) (s s' : System),
    (forall tid t, _tasks (queue s) !! tid = Some t -> P tid t) ->
    run s evs = Some s' ->
    forall tid t, _tasks (queue s') !! tid = Some t -> P tid t.
Proof.
  intros Hnew Hupd Hjoin evs. induction evs as [|ev evs IH]; intros s s' Hs; simpl.
  - by intros [= <-].
  - destruct (step s ev) as [s1|] eqn:Hstep; [|done]. apply IH.
    intros tid t Hl.
    destruct (step_record_origin s s1 ev tid t Hstep Hl)
      as [Hk|t0 r _ Hl0 _ ->|now a o _ _ ->|t0 now _ _ Hl0 ->|t0 now _ _ Hl0 ->
          |t0 now stage p a o _ _ Hl0 ->|t0 now r a o _ _ Hl0 ->
          |t0 now e a o _ _ Hl0 ->]; eauto.
Qed.

Lemma update_record_payload now st pr msg err t :
  _audio_path (update_record now st pr msg err t) = _audio_path t
  /\ _options (update_record now st pr msg err t) = _options t.
Proof.
  unfold update_record.
  destruct (started_at t) eqn:Hs;
    destruct st as [[]|], pr, msg, err; simpl; rewrite ?Hs; done.
Qed.

(** A record found after a run either was there before it with the same
    identity, creation time and payload, or was created by an upload of
    the run and still has what that upload gave it. *)
Lemma run_record_identity (evs : list Event) (s s' : System) (tid : string)
    (t' : TaskProgress) :
  run s evs = Some s' ->
  _tasks (queue s') !! tid = Some t' ->
  (exists t, _tasks (queue s) !! tid = Some t
             /\ task_id t' = task_id t /\ created_at t' = created_at t
             /\ _audio_path t' = _audio_path t /\ _options t' = _options t)
  \/ (exists now audio_path options,
        Upload tid now audio_path options ∈ evs
        /\ task_id t' = tid /\ created_at t' = now
        /\ _audio_path t' = Some audio_path /\ _options t' = Some options).
Proof.
  revert s. induction evs as [|ev evs IH]; intros s; simpl.
  - intros [= <-] Hl. left. by exists t'.
  - destruct (step s ev) as [s1|] eqn:Hstep; [|done]. intros Hrun Hl.
    destruct (IH s1 Hrun Hl) as [(t1 & Hl1 & Hid & Hcr & Hpa & Hop)
                                |(now & a & o & Hin & Hrest)].
    2:{ right. exists now, a, o. split; [by right|done]. }
    rewrite Hid, Hcr, Hpa, Hop.
    destruct (step_record_origin s s1 ev tid t1 Hstep Hl1)
      as [Hk|t0 r _ Hl0 _ ->|now a o -> _ ->|t0 now _ _ Hl0 ->|t0 now _ _ Hl0 ->
          |t0 now stage p a o _ _ Hl0 ->|t0 now r a o _ _ Hl0 ->
          |t0 now e a o _ _ Hl0 ->];
      try (left; exists t0; split; [done|];
           rewrite ?update_record_task_id, ?update_record_created_at;
           try (destruct (update_record_payload now
                            (Some (default PROCESSING (status_map !! stage)))
                            (Some p) (Some ("Status: " ++ stage)) None t0)
                  as [-> ->]);
           try (destruct (update_record_payload now (Some FAILED) None None
                            (Some "Audio path not found") t0) as [-> ->]);
           try (destruct (update_record_payload now (Some PROCESSING)
                            (Some 0%float) (Some "Starting transcription") None t0)
                  as [-> ->]);
           try (destruct (update_record_payload now (Some COMPLETED)
                            (Some 100%float)
                            (Some "Transcription completed successfully") None t0)
                  as [-> ->]);
           try (destruct (update_record_payload now (Some FAILED) None
                            (Some "Transcription failed") (Some e) t0)
                  as [-> ->]);
           done).
    + left. by exists t1.
    + right. exists now, a, o. split; [by left|done].
Qed.

(** X7: in every state the server can reach, a record is stored under
    its own [task_id] and still carries exactly what the upload that
    created it attached: there is an upload of that identifier in the
    run whose clock reading, audio path and options are the record's
    [created_at], [_audio_path] and [_options]; so the [getattr]
    defaults of [process_task] are never used. *)
Theorem records_keep_their_identity (C : nat) (evs : list Event) (s : System)
    (tid : string) (t : TaskProgress) :
  run (initial C) evs = Some s ->
  _tasks (queue s) !! tid = Some t ->
  exists now audio_path options,
    Upload tid now audio_path options ∈ evs
    /\ task_id t = tid
    /\ created_at t = now
    /\ _audio_path t = Some audio_path
    /\ _options t = Some options.
Proof.
  intros Hrun Hl.
  destruct (run_record_identity evs (initial C) s tid t Hrun Hl)
    as [(t0 & Hl0 & _)|Hup]; [|exact Hup].
  simpl in Hl0. by rewrite lookup_empty in Hl0.
Qed.

Lemma records_keep_their_identity_witness :
  run (initial 2) completed_trace = Some completed_state
  /\ _tasks (queue completed_state) !! "job-1" = Some completed_record
  /\ exists now audio_path options,
       Upload "job-1" now audio_path options ∈ completed_trace
       /\ task_id completed_record = "job-1"
       /\ created_at completed_record = now
       /\ _audio_path completed_record = Some audio_path
       /\ _options completed_record = Some options.
Proof.
  assert (run (initial 2) completed_trace = Some completed_state) as Hrun
    by (vm_compute; reflexivity).
  assert (_tasks (queue completed_state) !! "job-1" = Some completed_record) as Hl
    by (vm_compute; reflexivity).
  split; [exact Hrun|]. split; [exact Hl|].
  exact (records_keep_their_identity 2 completed_trace completed_state "job-1"
           completed_record Hrun Hl).
Defined.


Lemma run_progress_in_range (evs : list Event) (s s' : System) :
  (forall tid t, _tasks (queue s) !! tid = Some t ->
                 progress_in_range (progress t) = true) ->
  forallb reports_in_range evs = true ->
  run s evs = Some s' ->
  forall tid t, _tasks (queue s') !! tid = Some t ->
                progress_in_range (progress t) = true.
Proof.
  revert s. induction evs as [|ev evs IH]; intros s Hs Hin; simpl.
  - by intros [= <-].
  - simpl in Hin. apply andb_prop in Hin as [Hev Hin].
    destruct (step s ev) as [s1|] eqn:Hstep; [|done]. apply IH; [|done].
    intros tid t Hl.
    destruct (step_record_origin s s1 ev tid t Hstep Hl)
      as [Hk|t0 r _ Hl0 _ ->|now a o _ _ ->|t0 now _ _ Hl0 ->|t0 now _ _ Hl0 ->
          |t0 now stage p a o -> _ Hl0 ->|t0 now r a o _ _ Hl0 ->
          |t0 now e a o _ _ Hl0 ->];
      rewrite ?update_record_progress; simpl; eauto.
Qed.

(** X8: if every progress value the pipeline reports during a run lies
    in [0.0, 100.0], then in the state reached every stored record has
    its progress in [0.0, 100.0]: the queue itself only ever writes 0.0
    (creation, start) and 100.0 (completion). *)
Theorem progress_in_range_when_reports_are (C : nat) (evs : list Event)
    (s : System) (tid : string) (t : TaskProgress) :
  forallb reports_in_range evs = true ->
  run (initial C) evs = Some s ->
  _tasks (queue s) !! tid = Some t ->
  progress_in_range (progress t) = true.
Proof.
  intros Hin Hrun Hl.
  apply (run_progress_in_range evs (initial C) s) with (tid := tid); try done.
Qed.

Lemma progress_in_range_when_reports_are_witness :
  forallb reports_in_range completed_trace = true
  /\ run (initial 2) completed_trace = Some completed_state
  /\ _tasks (queue completed_state) !! "job-1" = Some completed_record
  /\ progress_in_range (progress completed_record) = true.
Proof.
  assert (forallb reports_in_range completed_trace = true) as Hin
    by (vm_compute; reflexivity).
  assert (run (initial 2) completed_trace = Some completed_state) as Hrun
    by (vm_compute; reflexivity).
  assert (_tasks (queue completed_state) !! "job-1" = Some completed_record) as Hl
    by (vm_compute; reflexivity).
  split; [exact Hin|]. split; [exact Hrun|]. split; [exact Hl|].
  exact (progress_in_range_when_reports_are 2 completed_trace completed_state
           "job-1" completed_record Hin Hrun Hl).
Defined.


Lemma timestamps_ordered_later t0 T T' t :
  (T <= T')%Z -> timestamps_ordered t0 T t -> timestamps_ordered t0 T' t.
Proof.
  intros HT (Hc & Hs & Hd). split; [lia|]. split.
  - intros ts Hts. specialize (Hs ts Hts). lia.
  - intros tc Htc. destruct (Hd tc Htc) as [H1 H2]. split; [lia|done].
Qed.

Lemma step_timestamps_ordered (t0 T : datetime) (s s' : System) (ev : Event) :
  consistent s ->
  (t0 <= T)%Z ->
  (forall now, event_time ev = Some now -> (T <= now)%Z) ->
  (forall tid t, _tasks (queue s) !! tid = Some t -> timestamps_ordered t0 T t) ->
  step s ev = Some s' ->
  forall tid t, _tasks (queue s') !! tid = Some t ->
                timestamps_ordered t0 (default T (event_time ev)) t.
Proof.
  intros Hcons Ht0 Hnow Hs Hstep tid t Hl.
  assert (T <= default T (event_time ev))%Z as Hle.
  { destruct (event_time ev) as [now|] eqn:Hev; simpl; [by apply Hnow|lia]. }
  pose proof (Hcons tid) as Hc.
  destruct (step_record_origin s s' ev tid t Hstep Hl)
    as [Hk|t1 r -> Hl0 _ ->|now a o -> _ ->|t1 now -> Hco Hl0 ->|t1 now -> Hco Hl0 ->
        |t1 now stage p a o -> Hco Hl0 ->|t1 now r a o -> Hco Hl0 ->
        |t1 now e a o -> Hco Hl0 ->].
  - eapply timestamps_ordered_later; eauto.
  - exact (Hs tid t1 Hl0).
  - cbn [event_time default] in *. specialize (Hnow now eq_refl). split; simpl; [lia|done].
  - cbn [event_time default] in *. specialize (Hnow now eq_refl). rewrite Hco in Hc.
    destruct (Hc t1 Hl0) as (_ & _ & _ & _ & Hsa & Hca).
    destruct (Hs tid t1 Hl0) as (Hcr & _ & _).
    unfold timestamps_ordered.
    rewrite update_record_created_at, update_record_started_at,
      update_record_completed_at, Hsa. simpl.
    split; [lia|]. split; [done|]. intros tc [= <-]. split; [lia|done].
  - cbn [event_time default] in *. specialize (Hnow now eq_refl). rewrite Hco in Hc.
    destruct (Hc t1 Hl0) as (_ & _ & _ & _ & Hsa & Hca).
    destruct (Hs tid t1 Hl0) as (Hcr & _ & _).
    unfold timestamps_ordered.
    rewrite update_record_created_at, update_record_started_at,
      update_record_completed_at, Hsa, Hca. simpl.
    split; [lia|]. split; [|done]. intros ts [= <-]. lia.
  - cbn [event_time default] in *. specialize (Hnow now eq_refl). rewrite Hco in Hc.
    destruct (Hc t1 Hl0) as (_ & _ & _ & _ & [ts0 Hsa] & Hca).
    destruct (Hs tid t1 Hl0) as (Hcr & Hst & _). specialize (Hst ts0 Hsa).
    pose proof (status_map_is_processing stage) as Hp.
    unfold timestamps_ordered.
    rewrite update_record_created_at, update_record_started_at,
      update_record_completed_at, Hsa, Hca.
    destruct (default PROCESSING (status_map !! stage)); try done; simpl;
      (split; [lia|]); (split; [|done]); intros ts [= <-]; lia.
  - cbn [event_time default] in *. specialize (Hnow now eq_refl). rewrite Hco in Hc.
    destruct (Hc t1 Hl0) as (_ & _ & _ & _ & [ts0 Hsa] & Hca).
    destruct (Hs tid t1 Hl0) as (Hcr & Hst & _). specialize (Hst ts0 Hsa).
    unfold timestamps_ordered.
    rewrite update_record_created_at, update_record_started_at,
      update_record_completed_at, Hsa. simpl.
    split; [lia|]. split; [intros ts [= <-]; lia|].
    intros tc [= <-]. split; [lia|]. intros ts [= <-]. lia.
  - cbn [event_time default] in *. specialize (Hnow now eq_refl). rewrite Hco in Hc.
    destruct (Hc t1 Hl0) as (_ & _ & _ & _ & [ts0 Hsa] & Hca).
    destruct (Hs tid t1 Hl0) as (Hcr & Hst & _). specialize (Hst ts0 Hsa).
    unfold timestamps_ordered.
    rewrite update_record_created_at, update_record_started_at,
      update_record_completed_at, Hsa. simpl.
    split; [lia|]. split; [intros ts [= <-]; lia|].
    intros tc [= <-]. split; [lia|]. intros ts [= <-]. lia.
Qed.

Lemma run_timestamps_ordered (t0 : datetime) (evs : list Event) :
  forall (T : datetime) (s s' : System),
    consistent s ->
    (t0 <= T)%Z ->
    clock_monotone T evs ->
    (forall tid t, _tasks (queue s) !! tid = Some t -> timestamps_ordered t0 T t) ->
    run s evs = Some s' ->
    forall tid t, _tasks (queue s') !! tid = Some t ->
                  timestamps_ordered t0 (last_time T evs) t.
Proof.
  induction evs as [|ev evs IH]; intros T s s' Hcons Ht0 Hmono Hs; simpl.
  - intros [= <-]. done.
  - destruct (step s ev) as [s1|] eqn:Hstep; [|done]. intros Hrun.
    simpl in Hmono.
    assert (forall now, event_time ev = Some now -> (T <= now)%Z) as Hnow.
    { intros now Hev. rewrite Hev in Hmono. by destruct Hmono. }
    apply (IH (default T (event_time ev)) s1 s'); try done.
    + by apply (step_consistent s s1 ev).
    + destruct (event_time ev) as [now|]; simpl; [|done].
      specialize (Hnow now eq_refl). lia.
    + destruct (event_time ev) as [now|]; simpl; [by destruct Hmono|done].
    + by apply (step_timestamps_ordered t0 T s s1 ev).
Qed.

(** X9: along a run whose clock readings never go back, every stored
    record satisfies created_at <= started_at <= completed_at (for those
    of the timestamps that are set), all of them between the first and
    the last clock reading. *)
Theorem timestamps_follow_the_clock (C : nat) (t0 : datetime)
    (evs : list Event) (s : System) (tid : string) (t : TaskProgress) :
  clock_monotone t0 evs ->
  run (initial C) evs = Some s ->
  _tasks (queue s) !! tid = Some t ->
  (t0 <= created_at t <= last_time t0 evs)%Z
  /\ (forall ts, started_at t = Some ts ->
        (created_at t <= ts <= last_time t0 evs)%Z)
  /\ (forall tc, completed_at t = Some tc ->
        (created_at t <= tc <= last_time t0 evs)%Z
        /\ forall ts, started_at t = Some ts -> (ts <= tc)%Z).
Proof.
  intros Hmono Hrun Hl.
  apply (run_timestamps_ordered t0 evs t0 (initial C) s (initial_consistent C)
           (Z.le_refl t0) Hmono) with (tid := tid); [|done|done].
  intros tid0 t1. simpl. by rewrite lookup_empty.
Qed.

Lemma timestamps_follow_the_clock_witness :
  clock_monotone 1000%Z completed_trace
  /\ run (initial 2) completed_trace = Some completed_state
  /\ _tasks (queue completed_state) !! "job-1" = Some completed_record
  /\ (forall tc, completed_at completed_record = Some tc ->
        (created_at completed_record <= tc <= last_time 1000%Z completed_trace)%Z
        /\ forall ts, started_at completed_record = Some ts -> (ts <= tc)%Z).
Proof.
  assert (clock_monotone 1000%Z completed_trace) as Hmono
    by (simpl; repeat split; lia).
  assert (run (initial 2) completed_trace = Some completed_state) as Hrun
    by (vm_compute; reflexivity).
  assert (_tasks (queue completed_state) !! "job-1" = Some completed_record) as Hl
    by (vm_compute; reflexivity).
  split; [exact Hmono|]. split; [exact Hrun|]. split; [exact Hl|].
  exact (proj2 (proj2 (timestamps_follow_the_clock 2 1000%Z completed_trace
                         completed_state "job-1" completed_record Hmono Hrun Hl))).
Defined.


(** * Edge cases of [process_task] *)

Lemma release_finally_fields (q : TaskQueue) (tid : string) :
  _tasks (semaphore_release (process_task_finally q tid)) = _tasks q
  /\ _task_results (semaphore_release (process_task_finally q tid))
     = _task_results q
  /\ _semaphore (semaphore_release (process_task_finally q tid))
     = S (_semaphore q).
Proof. done. Qed.

(** X10: a task whose audio path is empty (or was never attached) is
    failed as soon as its execution obtains a slot: the record becomes
    FAILED with the error "Audio path not found" and [completed_at] set,
    [started_at], progress and message are left as they were, the
    pipeline is not called (the execution has returned) and the slot is
    free again. *)
Theorem process_task_without_audio_path (s : System) (tid : string)
    (now : datetime) (t : TaskProgress) :
  coroutines s !! tid = Some Waiting ->
  _tasks (queue s) !! tid = Some t ->
  _audio_path t = Some "" \/ _audio_path t = None ->
  0 < _semaphore (queue s) ->
  exists s' t',
    step s (Acquire tid now) = Some s'
    /\ coroutines s' !! tid = Some Returned
    /\ _semaphore (queue s') = _semaphore (queue s)
    /\ _task_results (queue s') = _task_results (queue s)
    /\ _tasks (queue s') !! tid = Some t'
    /\ status t' = FAILED
    /\ error t' = Some "Audio path not found"
    /\ completed_at t' = Some now
    /\ started_at t' = started_at t
    /\ progress t' = progress t
    /\ message t' = message t.
Proof.
  intros Hc Hl Hpath Hsem.
  destruct (_semaphore (queue s)) as [|n] eqn:Hn; [lia|].
  assert (process_task_start (queue s) now tid
          = Some (semaphore_release
                    (process_task_finally
                       (update_task
                          (with_running_tasks ({[tid]} ∪ _running_tasks (queue s))
                             (with_semaphore n (queue s)))
                          now tid (Some FAILED) None None
                          (Some "Audio path not found")) tid), Returned)) as Hst.
  { unfold process_task_start, semaphore_acquire. rewrite Hn. simpl.
    unfold process_task_enter. simpl. rewrite Hl.
    by destruct Hpath as [-> | ->]. }
  eexists _, (update_record now (Some FAILED) None None
                (Some "Audio path not found") t).
  split; [simpl; rewrite Hc, Hst; simpl; reflexivity|].
  cbn [queue coroutines]. rewrite lookup_insert_eq.
  destruct (release_finally_fields
              (update_task
                 (with_running_tasks ({[tid]} ∪ _running_tasks (queue s))
                    (with_semaphore n (queue s)))
                 now tid (Some FAILED) None None (Some "Audio path not found")) tid)
    as (-> & -> & ->).
  rewrite update_task_semaphore, update_task_results.
  rewrite update_task_lookup, decide_True by done.
  cbn [_tasks _task_results _semaphore with_running_tasks with_semaphore].
  rewrite Hl.
  rewrite update_record_status, update_record_error, update_record_completed_at,
    update_record_started_at, update_record_progress.
  repeat split; try done.
  by destruct (started_at t).
Qed.

Lemma process_task_without_audio_path_witness :
  coroutines no_path_state !! "job-1" = Some Waiting
  /\ 0 < _semaphore (queue no_path_state)
  /\ exists s' t',
       step no_path_state (Acquire "job-1" 1001%Z) = Some s'
       /\ coroutines s' !! "job-1" = Some Returned
       /\ _semaphore (queue s') = _semaphore (queue no_path_state)
       /\ _task_results (queue s') = _task_results (queue no_path_state)
       /\ _tasks (queue s') !! "job-1" = Some t'
       /\ status t' = FAILED
       /\ error t' = Some "Audio path not found"
       /\ completed_at t' = Some 1001%Z
       /\ started_at t' = None
       /\ progress t' = 0%float
       /\ message t' = "Task queued".
Proof.
  assert (coroutines no_path_state !! "job-1" = Some Waiting) as Hc
    by (vm_compute; reflexivity).
  assert (0 < _semaphore (queue no_path_state)) as Hsem by (vm_compute; lia).
  split; [exact Hc|]. split; [exact Hsem|].
  refine (process_task_without_audio_path no_path_state "job-1" 1001%Z
            {| task_id := "job-1"; status := PENDING; progress := 0%float;
               message := "Task queued"; created_at := 1000%Z;
               started_at := None; completed_at := None; error := None;
               result := None; _audio_path := Some "";
               _options := Some TranscriptionOptions_default |}
            Hc _ _ Hsem).
  - vm_compute. reflexivity.
  - left. reflexivity.
Defined.

(** X11: when the record of a waiting task has been deleted before its
    execution obtains a slot, the execution returns at once: records,
    stored results and free slots are as before and the pipeline is not
    called. *)
Theorem process_task_of_deleted_task (s : System) (tid : string) (now : datetime) :
  coroutines s !! tid = Some Waiting ->
  _tasks (queue s) !! tid = None ->
  0 < _semaphore (queue s) ->
  exists s',
    step s (Acquire tid now) = Some s'
    /\ coroutines s' !! tid = Some Returned
    /\ _tasks (queue s') = _tasks (queue s)
    /\ _task_results (queue s') = _task_results (queue s)
    /\ _semaphore (queue s') = _semaphore (queue s).
Proof.
  intros Hc Hl Hsem.
  destruct (_semaphore (queue s)) as [|n] eqn:Hn; [lia|].
  eexists. split.
  - simpl. rewrite Hc. unfold process_task_start, semaphore_acquire.
    rewrite Hn. simpl. unfold process_task_enter. simpl. rewrite Hl. simpl.
    reflexivity.
  - simpl. by rewrite lookup_insert_eq.
Qed.

Lemma process_task_of_deleted_task_witness :
  coroutines deleted_waiting_state !! "job-1" = Some Waiting
  /\ _tasks (queue deleted_waiting_state) !! "job-1" = None
  /\ 0 < _semaphore (queue deleted_waiting_state)
  /\ exists s',
       step deleted_waiting_state (Acquire "job-1" 1001%Z) = Some s'
       /\ coroutines s' !! "job-1" = Some Returned
       /\ _tasks (queue s') = _tasks (queue deleted_waiting_state)
       /\ _task_results (queue s') = _task_results (queue deleted_waiting_state)
       /\ _semaphore (queue s') = _semaphore (queue deleted_waiting_state).
Proof.
  assert (coroutines deleted_waiting_state !! "job-1" = Some Waiting) as Hc
    by (vm_compute; reflexivity).
  assert (_tasks (queue deleted_waiting_state) !! "job-1" = None) as Hl
    by (vm_compute; reflexivity).
  assert (0 < _semaphore (queue deleted_waiting_state)) as Hsem
    by (vm_compute; lia).
  split; [exact Hc|]. split; [exact Hl|]. split; [exact Hsem|].
  exact (process_task_of_deleted_task deleted_waiting_state "job-1" 1001%Z
           Hc Hl Hsem).
Defined.


(** * What stays behind *)

Lemma step_orphaned_result (s s' : System) (ev : Event) (tid : string)
    (c : Coroutine) (r : TranscriptionResult) :
  coroutines s !! tid = Some c -> finished c = true ->
  _tasks (queue s) !! tid = None ->
  _task_results (queue s) !! tid = Some r ->
  step s ev = Some s' ->
  coroutines s' !! tid = Some c
  /\ _tasks (queue s') !! tid = None
  /\ _task_results (queue s') !! tid = Some r.
Proof.
  intros Hc Hf Hl Hr Hstep.
  destruct ev as [tid0 now a o|tid0 now|tid0 now stage p|tid0 now o|tid0|tid0|now h];
    simpl in Hstep.
  - destruct (coroutines s !! tid0) eqn:Hc0; [done|]. injection Hstep as <-. simpl.
    assert (tid0 <> tid) by congruence.
    by rewrite !lookup_insert_ne.
  - destruct (coroutines s !! tid0) as [[]|] eqn:Hc0; try done.
    assert (tid <> tid0) by (intros ->; rewrite Hc in Hc0; by injection Hc0 as ->).
    destruct (process_task_start (queue s) now tid0) as [[q c0]|] eqn:Hst; [|done].
    simpl in Hstep. injection Hstep as <-. simpl.
    apply process_task_start_lookup in Hst as (Hres & Hother & _).
    rewrite lookup_insert_ne, Hres, Hother by done. done.
  - destruct (coroutines s !! tid0) as [[|a o| |]|] eqn:Hc0; try done.
    injection Hstep as <-. unfold progress_callback. simpl.
    rewrite update_task_results, update_task_lookup.
    case_decide; by rewrite ?Hl.
  - destruct (coroutines s !! tid0) as [[|a opts| |]|] eqn:Hc0; try done.
    assert (tid <> tid0) by (intros ->; rewrite Hc in Hc0; by injection Hc0 as ->).
    pose proof (process_task_finish_lookup (queue s) now tid0 o) as [Hother _].
    destruct (process_task_finish (queue s) now tid0 o) as [q c0].
    injection Hstep as <-. simpl in *.
    destruct (Hother tid ltac:(done)) as [-> ->].
    by rewrite lookup_insert_ne.
  - injection Hstep as <-. simpl. rewrite get_task_results, get_task_lookup.
    case_decide; by rewrite ?Hl.
  - injection Hstep as <-. simpl.
    destruct (delete_task_lookup (queue s) tid0 tid) as (Hother & _ & Hnone & _).
    destruct (decide (tid = tid0)) as [->|Hne].
    + by rewrite (Hnone Hl).
    + by destruct (Hother Hne) as [-> ->].
  - injection Hstep as <-. simpl.
    rewrite cleanup_old_tasks_tasks, cleanup_old_tasks_results.
    unfold swept. by rewrite Hl.
Qed.

(** X12: a result stored for a task that has no record and whose
    execution has finished stays in [_task_results] for ever: no upload,
    no execution step, no poll, no delete request and no cleanup sweep
    removes it, and the task stays unknown to [get_task]. *)
Theorem orphaned_result_is_never_removed (evs : list Event) (s s' : System)
    (tid : string) (c : Coroutine) (r : TranscriptionResult) :
  coroutines s !! tid = Some c -> finished c = true ->
  _tasks (queue s) !! tid = None ->
  _task_results (queue s) !! tid = Some r ->
  run s evs = Some s' ->
  _task_results (queue s') !! tid = Some r
  /\ _tasks (queue s') !! tid = None
  /\ snd (get_task (queue s') tid) = None.
Proof.
  revert s. induction evs as [|ev evs IH]; intros s Hc Hf Hl Hr; simpl.
  - intros [= <-]. by rewrite get_task_missing.
  - destruct (step s ev) as [s1|] eqn:Hstep; [|done].
    destruct (step_orphaned_result s s1 ev tid c r Hc Hf Hl Hr Hstep)
      as (Hc1 & Hl1 & Hr1).
    by apply IH.
Qed.

Lemma orphaned_result_is_never_removed_witness :
  exists s s',
    run (initial 2) (deleted_in_flight_trace
                       ++ [Finish "job-1" 1006%Z (Returns sample_result)]) = Some s
    /\ coroutines s !! "job-1" = Some Returned
    /\ _tasks (queue s) !! "job-1" = None
    /\ _task_results (queue s) !! "job-1" = Some sample_result
    /\ run s [Delete "job-1"; Cleanup 999999999999999%Z 0; GetTask "job-1"] = Some s'
    /\ _task_results (queue s') !! "job-1" = Some sample_result.
Proof.
  eexists _, _.
  split; [vm_compute; reflexivity|].
  assert (run
            (mkSystem
               (mkTaskQueue 2 ∅ {["job-1" := sample_result]} 2 ∅)
               {["job-1" := Returned]})
            [Delete "job-1"; Cleanup 999999999999999%Z 0; GetTask "job-1"]
          = Some (mkSystem
                    (mkTaskQueue 2 ∅ {["job-1" := sample_result]} 2 ∅)
                    {["job-1" := Returned]})) as Hrun
    by (vm_compute; reflexivity).
  assert (coroutines (mkSystem
                        (mkTaskQueue 2 ∅ {["job-1" := sample_result]} 2 ∅)
                        {["job-1" := Returned]}) !! "job-1" = Some Returned) as Hc
    by (vm_compute; reflexivity).
  split; [exact Hc|].
  split; [vm_compute; reflexivity|]. split; [vm_compute; reflexivity|].
  split; [exact Hrun|].
  exact (proj1 (orphaned_result_is_never_removed _ _ _ "job-1" Returned
                  sample_result Hc eq_refl eq_refl eq_refl Hrun)).
Defined.


Lemma step_keeps_unfinished_record (s s' : System) (ev : Event) (tid : string)
    (t : TaskProgress) :
  _tasks (queue s) !! tid = Some t ->
  is_terminal (status t) = false ->
  ev <> Delete tid ->
  step s ev = Some s' ->
  is_Some (_tasks (queue s') !! tid).
Proof.
  intros Hl Hnt Hev Hstep.
  destruct ev as [tid0 now a o|tid0 now|tid0 now stage p|tid0 now o|tid0|tid0|now h];
    simpl in Hstep.
  - destruct (coroutines s !! tid0) eqn:Hc0; [done|]. injection Hstep as <-. simpl.
    destruct (decide (tid0 = tid)) as [->|Hne].
    + rewrite lookup_insert_eq. eauto.
    + rewrite lookup_insert_ne by done. eauto.
  - destruct (coroutines s !! tid0) as [[]|] eqn:Hc0; try done.
    destruct (process_task_start (queue s) now tid0) as [[q c0]|] eqn:Hst; [|done].
    simpl in Hstep. injection Hstep as <-. simpl.
    apply process_task_start_lookup in Hst as (_ & Hother & Hself).
    destruct (decide (tid = tid0)) as [->|Hne].
    + rewrite Hl in Hself. destruct Hself as [[_ ->]|(a & o & _ & ->)]; eauto.
    + rewrite Hother by done. eauto.
  - destruct (coroutines s !! tid0) as [[|a o| |]|] eqn:Hc0; try done.
    injection Hstep as <-. unfold progress_callback. simpl.
    rewrite update_task_lookup. case_decide; rewrite Hl; simpl; eauto.
  - destruct (coroutines s !! tid0) as [[|a opts| |]|] eqn:Hc0; try done.
    pose proof (process_task_finish_lookup (queue s) now tid0 o) as [Hother Hself].
    destruct (process_task_finish (queue s) now tid0 o) as [q c0].
    injection Hstep as <-. simpl in *.
    destruct (decide (tid = tid0)) as [->|Hne].
    + destruct o; destruct Hself as [_ ->]; rewrite Hl; simpl; eauto.
    + destruct (Hother tid Hne) as [-> _]. eauto.
  - injection Hstep as <-. simpl. rewrite get_task_lookup.
    case_decide; rewrite Hl; simpl; eauto.
  - injection Hstep as <-. simpl.
    destruct (delete_task_lookup (queue s) tid0 tid) as (Hother & _).
    assert (tid <> tid0) as Hne by congruence.
    destruct (Hother Hne) as [-> _]. eauto.
  - injection Hstep as <-. simpl. rewrite cleanup_old_tasks_tasks.
    unfold swept. rewrite Hl, Hnt, andb_false_r. eauto.
Qed.

Lemma same_but_result_status t t' :
  same_but_result t t' ->
  status t' = status t /\ completed_at t' = completed_at t.
Proof.
  unfold same_but_result. intros H.
  split; [apply (f_equal status) in H|apply (f_equal completed_at) in H]; done.
Qed.

Lemma run_stuck_record (evs : list Event) (s s' : System) (tid : string)
    (c : Coroutine) (t : TaskProgress) :
  coroutines s !! tid = Some c -> finished c = true ->
  _tasks (queue s) !! tid = Some t ->
  is_terminal (status t) = false ->
  Forall (fun ev => ev <> Delete tid) evs ->
  run s evs = Some s' ->
  exists t', _tasks (queue s') !! tid = Some t' /\ same_but_result t t'.
Proof.
  revert s t. induction evs as [|ev evs IH]; intros s t Hc Hf Hl Hnt Hevs; simpl.
  - intros [= <-]. by exists t.
  - destruct (step s ev) as [s1|] eqn:Hstep; [|done]. intros Hrun.
    apply Forall_cons in Hevs as [Hev Hevs].
    destruct (step_finished_record s s1 ev tid c t Hc Hf Hl Hstep)
      as [Hc1 [Hgone|(t1 & Hl1 & Hsame)]].
    + destruct (step_keeps_unfinished_record s s1 ev tid t Hl Hnt Hev Hstep)
        as [x Hx]. congruence.
    + destruct (same_but_result_status t t1 Hsame) as [Hst _].
      destruct (IH s1 t1 Hc1 Hf Hl1 ltac:(by rewrite Hst) Hevs Hrun)
        as (t' & Hl' & Hsame').
      exists t'. split; [done|]. unfold same_but_result in *. congruence.
Qed.

(** X13: when the pipeline call of an execution is cancelled (ends with
    an exception that is not an [Exception]), the slot is given back but
    the record is left as it is, in a running status and without
    [completed_at]; from then on no event other than a delete request for
    that task changes it (the joined result field apart) or removes it:
    it never becomes COMPLETED or FAILED and no cleanup sweep evicts
    it. *)
Theorem cancelled_task_stays_in_running_status
    (C : nat) (evs0 : list Event) (s : System) (tid : string) (now : datetime)
    (audio_path : string) (options : TranscriptionOptions) (t : TaskProgress) :
  run (initial C) evs0 = Some s ->
  coroutines s !! tid = Some (Awaiting audio_path options) ->
  _tasks (queue s) !! tid = Some t ->
  exists s1,
    step s (Finish tid now Cancelled) = Some s1
    /\ _semaphore (queue s1) = S (_semaphore (queue s))
    /\ forall evs s',
         Forall (fun ev => ev <> Delete tid) evs ->
         run s1 evs = Some s' ->
         exists t',
           _tasks (queue s') !! tid = Some t'
           /\ same_but_result t t'
           /\ is_processing (status t') = true
           /\ completed_at t' = None.
Proof.
  intros Hrun Hc Hl.
  pose proof (reachable_consistent C evs0 s Hrun tid) as Hcons.
  rewrite Hc in Hcons. destruct (Hcons t Hl) as (_ & Hst & _ & _ & _ & Hca).
  set (s1 := mkSystem (semaphore_release (process_task_finally (queue s) tid))
                      (<[tid := Propagated]> (coroutines s))).
  exists s1. split; [simpl; rewrite Hc; reflexivity|].
  split; [done|]. intros evs s' Hevs Hrun'.
  assert (is_terminal (status t) = false) as Hnt by (by destruct (status t)).
  assert (coroutines s1 !! tid = Some Propagated) as Hc1
    by apply lookup_insert_eq.
  destruct (run_stuck_record evs s1 s' tid Propagated t Hc1 eq_refl Hl Hnt
              Hevs Hrun') as (t' & Hl' & Hsame).
  exists t'. destruct (same_but_result_status t t' Hsame) as [-> ->]. done.
Qed.

Lemma cancelled_task_stays_in_running_status_witness :
  coroutines running_state !! "job-1"
  = Some (Awaiting "uploads/1.wav" TranscriptionOptions_default)
  /\ _tasks (queue running_state) !! "job-1" = Some running_record
  /\ exists s1,
       step running_state (Finish "job-1" 1005%Z Cancelled) = Some s1
       /\ _semaphore (queue s1) = S (_semaphore (queue running_state))
       /\ forall evs s',
            Forall (fun ev => ev <> Delete "job-1") evs ->
            run s1 evs = Some s' ->
            exists t',
              _tasks (queue s') !! "job-1" = Some t'
              /\ same_but_result running_record t'
              /\ is_processing (status t') = true
              /\ completed_at t' = None.
Proof.
  assert (run (initial 2)
            [ Upload "job-1" 1000%Z "uploads/1.wav" TranscriptionOptions_default;
              Acquire "job-1" 1002%Z ] = Some running_state) as Hrun
    by (vm_compute; reflexivity).
  assert (coroutines running_state !! "job-1"
          = Some (Awaiting "uploads/1.wav" TranscriptionOptions_default)) as Hc
    by (vm_compute; reflexivity).
  assert (_tasks (queue running_state) !! "job-1" = Some running_record) as Hl
    by (vm_compute; reflexivity).
  split; [exact Hc|]. split; [exact Hl|].
  exact (cancelled_task_stays_in_running_status 2 _ running_state "job-1" 1005%Z
           _ _ running_record Hrun Hc Hl).
Defined.


(** * The health route *)

Lemma step_no_propagated (s s' : System) (ev : Event) :
  (forall tid, coroutines s !! tid <> Some Propagated) ->
  is_cancel ev = false ->
  step s ev = Some s' ->
  forall tid, coroutines s' !! tid <> Some Propagated.
Proof.
  intros Hs Hev Hstep tid.
  destruct ev as [tid0 now a o|tid0 now|tid0 now stage p|tid0 now o|tid0|tid0|now h];
    simpl in Hstep.
  - destruct (coroutines s !! tid0) eqn:Hc0; [done|]. injection Hstep as <-. simpl.
    destruct (decide (tid0 = tid)) as [->|Hne].
    + by rewrite lookup_insert_eq.
    + rewrite lookup_insert_ne by done. apply Hs.
  - destruct (coroutines s !! tid0) as [[]|] eqn:Hc0; try done.
    destruct (process_task_start (queue s) now tid0) as [[q c0]|] eqn:Hst; [|done].
    simpl in Hstep. injection Hstep as <-. simpl.
    apply process_task_start_semaphore in Hst as [[-> _]|(a & o & -> & _)];
      (destruct (decide (tid0 = tid)) as [->|Hne];
       [by rewrite lookup_insert_eq|rewrite lookup_insert_ne by done; apply Hs]).
  - destruct (coroutines s !! tid0) as [[|a o| |]|]; try done.
    injection Hstep as <-. apply Hs.
  - destruct (coroutines s !! tid0) as [[|a opts| |]|]; try done.
    unfold process_task_finish, process_task_resume in Hstep.
    destruct o; try done; injection Hstep as <-; simpl;
      (destruct (decide (tid0 = tid)) as [->|Hne];
       [by rewrite lookup_insert_eq|rewrite lookup_insert_ne by done; apply Hs]).
  - injection Hstep as <-. apply Hs.
  - injection Hstep as <-. apply Hs.
  - injection Hstep as <-. apply Hs.
Qed.

Lemma run_no_propagated (evs : list Event) (s s' : System) :
  (forall tid, coroutines s !! tid <> Some Propagated) ->
  forallb (fun ev => negb (is_cancel ev)) evs = true ->
  run s evs = Some s' ->
  forall tid, coroutines s' !! tid <> Some Propagated.
Proof.
  revert s. induction evs as [|ev evs IH]; intros s Hs Hevs; simpl.
  - by intros [= <-].
  - simpl in Hevs. apply andb_prop in Hevs as [Hev Hevs].
    destruct (step s ev) as [s1|] eqn:Hstep; [|done]. apply IH; [|done].
    apply (step_no_propagated s s1 ev); [done| |done].
    by destruct (is_cancel ev).
Qed.

Lemma NoDup_fst_filter {A} (f : string * A -> bool) (l : list (string * A)) :
  NoDup (fst <$> l) -> NoDup (fst <$> List.filter f l).
Proof.
  induction l as [|x l IH]; simpl; [done|].
  intros Hnd. apply NoDup_cons in Hnd as [Hx Hnd].
  destruct (f x); simpl; [|by apply IH].
  apply NoDup_cons. split; [|by apply IH].
  intros Hin. apply Hx.
  apply list_elem_of_fmap in Hin as (y & -> & Hy).
  apply list_elem_of_fmap. exists y. split; [done|].
  apply list_elem_of_In. apply list_elem_of_In, filter_In in Hy. tauto.
Qed.

(** The records in a running status are no more than the executions at
    the pipeline call, when every such record has its execution there. *)
Lemma processing_count_le_in_pipeline (s : System) :
  (forall tid t,
     _tasks (queue s) !! tid = Some t -> is_processing (status t) = true ->
     exists a o, coroutines s !! tid = Some (Awaiting a o)) ->
  count_status is_processing (_tasks (queue s)) <= in_pipeline s.
Proof.
  intros Hall. unfold count_status, in_pipeline.
  set (f := fun kv : string * TaskProgress => is_processing (status kv.2)).
  set (P := fun kv : string * Coroutine => is_awaiting kv.2 = true).
  rewrite <- (length_fmap fst (List.filter f (map_to_list (_tasks (queue s))))).
  rewrite <- (size_list_to_set (C := gset string)).
  2:{ apply NoDup_fst_filter, NoDup_fst_map_to_list. }
  rewrite <- (size_dom (filter P (coroutines s))).
  apply subseteq_size. intros k Hk.
  apply elem_of_list_to_set, list_elem_of_fmap in Hk as ([k' t] & -> & Hin).
  apply list_elem_of_In, filter_In in Hin as [Hin Hf].
  apply list_elem_of_In, elem_of_map_to_list in Hin.
  destruct (Hall k' t Hin Hf) as (a & o & Hc).
  apply elem_of_dom. exists (Awaiting a o).
  apply map_lookup_filter_Some. split; done.
Qed.

(** X14: along a run in which no pipeline call is cancelled, the
    [active_tasks] figure of the health route (the records in a running
    status) never exceeds the configured capacity; and in any queue
    [active_tasks] plus [pending_tasks] is at most the number of
    records. *)
Theorem health_active_tasks_within_capacity
    (APP_VERSION : string) (cuda_available : bool)
    (C : nat) (evs : list Event) (s : System) :
  forallb (fun ev => negb (is_cancel ev)) evs = true ->
  run (initial C) evs = Some s ->
  active_tasks (health_check APP_VERSION cuda_available (queue s)) <= C
  /\ active_tasks (health_check APP_VERSION cuda_available (queue s))
     + pending_tasks (health_check APP_VERSION cuda_available (queue s))
     <= size (_tasks (queue s)).
Proof.
  intros Hevs Hrun. split.
  - simpl. transitivity (in_pipeline s).
    + apply processing_count_le_in_pipeline. intros tid t Hl Hp.
      pose proof (reachable_consistent C evs s Hrun tid) as Hc.
      pose proof (run_no_propagated evs (initial C) s) as Hnp.
      specialize (Hnp ltac:(intros tid0; simpl; by rewrite lookup_empty) Hevs Hrun tid).
      destruct (coroutines s !! tid) as [[|a o| |]|]; try done.
      * destruct (Hc t Hl) as (_ & Hst & _). by rewrite Hst in Hp.
      * eauto.
      * destruct (Hc t Hl) as (_ & [(Hst & _)|(Hst & _)]); by rewrite Hst in Hp.
      * destruct Hc. congruence.
    + pose proof (reachable_conserves_slots C evs s Hrun). lia.
  - simpl. unfold count_status. rewrite <- length_map_to_list.
    pose proof (filter_four_way
                  (fun kv : string * TaskProgress => is_pending (status kv.2))
                  (fun kv : string * TaskProgress => is_processing (status kv.2))
                  (fun kv : string * TaskProgress => is_completed (status kv.2))
                  (fun kv : string * TaskProgress => is_failed (status kv.2))
                  (map_to_list (_tasks (queue s)))
                  (fun kv => status_one_bucket (status kv.2))) as H.
    lia.
Qed.

Lemma health_active_tasks_within_capacity_witness :
  forallb (fun ev => negb (is_cancel ev)) burst_trace = true
  /\ run (initial 2) burst_trace = Some burst_state
  /\ active_tasks (health_check "1.0.0" true (queue burst_state)) <= 2.
Proof.
  assert (forallb (fun ev => negb (is_cancel ev)) burst_trace = true) as Hevs
    by (vm_compute; reflexivity).
  assert (run (initial 2) burst_trace = Some burst_state) as Hrun
    by (vm_compute; reflexivity).
  split; [exact Hevs|]. split; [exact Hrun|].
  exact (proj1 (health_active_tasks_within_capacity "1.0.0" true 2 burst_trace
                  burst_state Hevs Hrun)).
Defined.


(** * Statistics and creation *)

Lemma filter_length_Permutation {A} (f : A -> bool) (l l' : list A) :
  l ≡ₚ l' -> length (List.filter f l) = length (List.filter f l').
Proof.
  induction 1 as [|x l l' _ IH|x y l|l l' l'' _ IH1 _ IH2]; simpl.
  - done.
  - destruct (f x); simpl; by rewrite IH.
  - destruct (f x), (f y); done.
  - by rewrite IH1.
Qed.

Lemma count_status_insert_fresh (P : TaskStatus -> bool)
    (m : gmap string TaskProgress) (tid : string) (t : TaskProgress) :
  m !! tid = None ->
  count_status P (<[tid := t]> m) = Nat.b2n (P (status t)) + count_status P m.
Proof.
  intros Hl. unfold count_status.
  rewrite (filter_length_Permutation _ _ _ (map_to_list_insert m tid t Hl)).
  simpl. by destruct (P (status t)).
Qed.

(** X15: creating a task under an identifier that has no record raises
    the pending count and the total of [get_stats] by one and leaves the
    other three counts as they were. *)
Theorem get_stats_after_create_task (q : TaskQueue) (tid : string)
    (now : datetime) (audio_path : string) (options : TranscriptionOptions) :
  _tasks q !! tid = None ->
  get_stats (fst (create_task q tid now audio_path options))
  = {| pending := S (pending (get_stats q));
       processing := processing (get_stats q);
       completed := completed (get_stats q);
       failed := failed (get_stats q);
       total := S (total (get_stats q)) |}.
Proof.
  intros Hl. unfold get_stats. simpl.
  rewrite !count_status_insert_fresh by done. simpl.
  by rewrite map_size_insert_None.
Qed.

Lemma get_stats_after_create_task_witness :
  _tasks (queue burst_state) !! "job-4" = None
  /\ get_stats (fst (create_task (queue burst_state) "job-4" 1010%Z
                       "uploads/4.wav" TranscriptionOptions_default))
     = {| pending := 2; processing := 2; completed := 0; failed := 0; total := 4 |}.
Proof.
  assert (_tasks (queue burst_state) !! "job-4" = None) as Hl
    by (vm_compute; reflexivity).
  split; [exact Hl|].
  rewrite (get_stats_after_create_task (queue burst_state) "job-4" 1010%Z
             "uploads/4.wav" TranscriptionOptions_default Hl).
  vm_compute. reflexivity.
Defined.


(** * Saving an upload *)

Lemma save_upload_spec (MB : Z) (chunks : list (list Byte.byte)) :
  Forall (fun chunk => chunk <> []) chunks ->
  forall (file_size : Z) (written : list Byte.byte),
    (save_upload MB chunks file_size written
     = if (MB * 1024 * 1024 <? file_size + Z.of_nat (length (concat chunks)))%Z
       then (None,
             Some (mkHTTPException 413
                     ("File too large. Maximum size is " ++ pretty MB ++ "MB")))
       else (Some (written ++ concat chunks)%list, None))
    \/ (MB * 1024 * 1024 < file_size)%Z.
Proof.
  induction 1 as [|chunk rest Hne _ IH]; intros file_size written.
  - simpl. destruct (_ <? _)%Z eqn:E.
    + right. apply Z.ltb_lt in E. lia.
    + left. by rewrite app_nil_r.
  - destruct chunk as [|b chunk]; [done|].
    cbn [save_upload concat].
    rewrite length_app, Nat2Z.inj_add.
    set (n := Z.of_nat (length (b :: chunk))).
    destruct (MB * 1024 * 1024 <? file_size + n)%Z eqn:Hbig.
    + left. apply Z.ltb_lt in Hbig.
      destruct (_ <? _)%Z eqn:E; [done|]. apply Z.ltb_ge in E. lia.
    + apply Z.ltb_ge in Hbig.
      destruct (IH (file_size + n)%Z (written ++ b :: chunk)%list) as [->|Hcontra];
        [|lia].
      left. rewrite Z.add_assoc, <- app_assoc. done.
Qed.

(** X16: an upload whose chunks are all non-empty is saved exactly when
    its total size is at most MAX_FILE_SIZE_MB * 1024 * 1024 bytes (a
    file of exactly that size is accepted); the saved file is then the
    concatenation of the chunks; otherwise the answer is 413 and no file
    is left at the path. *)
Theorem save_upload_size_limit (MAX_FILE_SIZE_MB : Z)
    (chunks : list (list Byte.byte)) :
  Forall (fun chunk => chunk <> []) chunks ->
  (0 <= MAX_FILE_SIZE_MB)%Z ->
  save_upload MAX_FILE_SIZE_MB chunks 0 []
  = if (Z.of_nat (length (concat chunks)) <=? MAX_FILE_SIZE_MB * 1024 * 1024)%Z
    then (Some (concat chunks), None)
    else (None,
          Some (mkHTTPException 413
                  ("File too large. Maximum size is "
                   ++ pretty MAX_FILE_SIZE_MB ++ "MB"))).
Proof.
  intros Hne Hmb.
  destruct (save_upload_spec MAX_FILE_SIZE_MB chunks Hne 0%Z []) as [->|Hcontra];
    [|lia].
  cbn [app Z.add].
  destruct (_ <? _)%Z eqn:E1; destruct (_ <=? _)%Z eqn:E2; try done.
  - apply Z.ltb_lt in E1. apply Z.leb_le in E2. lia.
  - apply Z.ltb_ge in E1. apply Z.leb_gt in E2. lia.
Qed.

Lemma save_upload_size_limit_witness :
  Forall (fun chunk : list Byte.byte => chunk <> [])
    [[Byte.x52; Byte.x49]; [Byte.x46]]
  /\ (0 <= 500)%Z
  /\ save_upload 500 [[Byte.x52; Byte.x49]; [Byte.x46]] 0 []
     = (Some [Byte.x52; Byte.x49; Byte.x46], None).
Proof.
  assert (Forall (fun chunk : list Byte.byte => chunk <> [])
            [[Byte.x52; Byte.x49]; [Byte.x46]]) as Hne
    by (repeat constructor; discriminate).
  assert (0 <= 500)%Z as Hmb by lia.
  split; [exact Hne|]. split; [exact Hmb|].
  exact (save_upload_size_limit 500 [[Byte.x52; Byte.x49]; [Byte.x46]] Hne Hmb).
Defined.


(** * The transcription pipeline *)

(** X17: whatever the library calls do, the progress reports of
    [transcribe] start with ("loading_audio", 5.0), name only stages of
    [status_map], carry values within [0.0, 100.0] and never go down. *)
Theorem transcribe_reports_well_formed {Audio : Type} (wx : Whisperx Audio)
    (BATCH_SIZE : Z) (audio_path : string) (options : TranscriptionOptions) :
  forallb report_ok (fst (transcribe wx BATCH_SIZE audio_path options)) = true
  /\ nondecreasing (snd <$> fst (transcribe wx BATCH_SIZE audio_path options)) = true
  /\ head (fst (transcribe wx BATCH_SIZE audio_path options))
     = Some ("loading_audio", 5%float).
Proof.
  unfold transcribe.
  destruct (wx_load_audio wx audio_path) as [e|audio]; [by vm_compute|].
  destruct (wx_model_transcribe wx audio BATCH_SIZE _) as [e|[lang result]];
    [by vm_compute|].
  destruct (enable_diarization options); by vm_compute.
Qed.

(** X18: [transcribe] fails exactly when loading the audio or the
    Whisper transcription fails, with that failure's text and without
    ever reporting "completed"; a failure of alignment or diarization
    never fails it.  When it succeeds its last report is
    ("completed", 100.0), the result carries the detected language and
    no top-level [word_segments]. *)
Theorem transcribe_outcome {Audio : Type} (wx : Whisperx Audio)
    (BATCH_SIZE : Z) (audio_path : string) (options : TranscriptionOptions) :
  match wx_load_audio wx audio_path with
  | inl e =>
      transcribe wx BATCH_SIZE audio_path options
      = ([("loading_audio", 5%float)], inl e)
  | inr audio =>
      match wx_model_transcribe wx audio BATCH_SIZE
              (given_str (opt_language options)) with
      | inl e =>
          transcribe wx BATCH_SIZE audio_path options
          = ([("loading_audio", 5%float); ("transcribing", 10%float)], inl e)
      | inr (detected_language, _) =>
          exists reports r,
            transcribe wx BATCH_SIZE audio_path options = (reports, inr r)
            /\ last reports = Some ("completed", 100%float)
            /\ length reports = (if enable_diarization options then 8 else 7)
            /\ res_language r = detected_language
            /\ word_segments r = None
      end
  end.
Proof.
  unfold transcribe.
  destruct (wx_load_audio wx audio_path) as [e|audio]; [done|].
  destruct (wx_model_transcribe wx audio BATCH_SIZE _) as [e|[lang result]];
    [done|].
  eexists _, _. split; [reflexivity|].
  destruct (enable_diarization options); done.
Qed.


(** * Progress callbacks in order, and one upload from end to end *)

Lemma run_app (evs1 evs2 : list Event) (s : System) :
  run s (evs1 ++ evs2)
  = match run s evs1 with
    | Some s1 => run s1 evs2
    | None => None
    end.
Proof.
  revert s. induction evs1 as [|ev evs1 IH]; intros s; simpl; [done|].
  destruct (step s ev); [apply IH|done].
Qed.

Lemma run_progress_events
    (reports : list (datetime * (string * float))) :
  forall (s : System) (tid : string) (audio_path : string)
         (options : TranscriptionOptions) (t : TaskProgress),
    coroutines s !! tid = Some (Awaiting audio_path options) ->
    _tasks (queue s) !! tid = Some t ->
    exists s' t',
      run s (progress_events tid reports) = Some s'
      /\ coroutines s' = coroutines s
      /\ _task_results (queue s') = _task_results (queue s)
      /\ _semaphore (queue s') = _semaphore (queue s)
      /\ (forall tid', tid' <> tid ->
            _tasks (queue s') !! tid' = _tasks (queue s) !! tid')
      /\ _tasks (queue s') !! tid = Some t'
      /\ match last reports with
         | None => t' = t
         | Some (_, (stage, p)) =>
             progress t' = p
             /\ status t' = default PROCESSING (status_map !! stage)
             /\ message t' = "Status: " ++ stage
         end
      /\ error t' = error t
      /\ result t' = result t
      /\ created_at t' = created_at t
      /\ completed_at t' = completed_at t
      /\ (is_Some (started_at t) -> started_at t' = started_at t).
Proof.
  induction reports as [|[now [stage p]] reports IH]; intros s tid a o t Hc Hl.
  - exists s, t. simpl. repeat split; done.
  - set (t1 := update_record now (Some (default PROCESSING (status_map !! stage)))
                 (Some p) (Some ("Status: " ++ stage)) None t).
    set (s1 := mkSystem (progress_callback (queue s) now tid stage p) (coroutines s)).
    assert (step s (Progress tid now stage p) = Some s1) as Hstep
      by (simpl; by rewrite Hc).
    assert (_tasks (queue s1) !! tid = Some t1) as Hl1.
    { unfold s1, progress_callback. cbn [queue].
      rewrite update_task_lookup, decide_True by done. by rewrite Hl. }
    destruct (IH s1 tid a o t1 Hc Hl1)
      as (s' & t' & Hrun & Hco & Hres & Hsem & Hother & Hl' & Hlast & He & Hr
          & Hcr & Hca & Hsa).
    pose proof (status_map_is_processing stage) as Hproc.
    exists s', t'.
    split; [cbn [progress_events fmap list_fmap run]; cbn [fst snd];
            rewrite Hstep; exact Hrun|].
    split; [done|].
    split; [rewrite Hres; unfold s1, progress_callback; cbn [queue];
            apply update_task_results|].
    split; [rewrite Hsem; unfold s1, progress_callback; cbn [queue];
            apply update_task_semaphore|].
    split.
    { intros tid' Hne. rewrite Hother by done.
      unfold s1, progress_callback. cbn [queue].
      by rewrite update_task_lookup, decide_False. }
    split; [done|].
    split.
    { destruct reports as [|r reports].
      2:{ change (last ((now, (stage, p)) :: r :: reports))
            with (last (r :: reports)).
          destruct (last (r :: reports)) as [x|] eqn:E; [exact Hlast|].
          by apply last_None in E. }
      simpl in Hlast. subst t'. unfold t1.
      rewrite update_record_progress, update_record_status. split; [done|].
      split; [done|].
      unfold update_record. cbn.
      destruct (default PROCESSING (status_map !! stage)), (started_at t); done. }
    unfold t1 in He, Hr, Hcr, Hca, Hsa.
    rewrite update_record_error in He. rewrite update_record_result in Hr.
    rewrite update_record_created_at in Hcr.
    rewrite update_record_completed_at in Hca.
    rewrite update_record_started_at in Hsa.
    split; [done|]. split; [done|]. split; [done|].
    split.
    { rewrite Hca. by destruct (default PROCESSING (status_map !! stage)). }
    intros [ts Hts]. rewrite Hts in Hsa. rewrite Hsa, Hts; eauto.
Qed.

(** X19: the progress callbacks of an execution whose record is stored
    are applied in the order they are made: after any sequence of them
    the record shows the progress, the mapped status and the message of
    the last one; its error, result, [created_at] and [completed_at], a
    [started_at] that was set, the other records, the stored results and
    the free slots are as before. *)
Theorem progress_callbacks_apply_in_order
    (s : System) (tid : string) (audio_path : string)
    (options : TranscriptionOptions) (t : TaskProgress)
    (reports : list (datetime * (string * float))) :
  coroutines s !! tid = Some (Awaiting audio_path options) ->
  _tasks (queue s) !! tid = Some t ->
  exists s' t',
    run s (progress_events tid reports) = Some s'
    /\ coroutines s' = coroutines s
    /\ _task_results (queue s') = _task_results (queue s)
    /\ _semaphore (queue s') = _semaphore (queue s)
    /\ (forall tid', tid' <> tid ->
          _tasks (queue s') !! tid' = _tasks (queue s) !! tid')
    /\ _tasks (queue s') !! tid = Some t'
    /\ match last reports with
       | None => t' = t
       | Some (_, (stage, p)) =>
           progress t' = p
           /\ status t' = default PROCESSING (status_map !! stage)
           /\ message t' = "Status: " ++ stage
       end
    /\ error t' = error t
    /\ result t' = result t
    /\ created_at t' = created_at t
    /\ completed_at t' = completed_at t
    /\ (is_Some (started_at t) -> started_at t' = started_at t).
Proof.
  intros Hc Hl.
  destruct (run_progress_events reports s tid audio_path options t Hc Hl)
    as (s' & t' & Hrun & Hrest).
  exists s', t'. split; [exact Hrun|exact Hrest].
Qed.

Lemma progress_callbacks_apply_in_order_witness :
  coroutines running_state !! "job-1"
  = Some (Awaiting "uploads/1.wav" TranscriptionOptions_default)
  /\ _tasks (queue running_state) !! "job-1" = Some running_record
  /\ exists s' t',
       run running_state
         (progress_events "job-1"
            [ (1003%Z, ("transcribing", 40%float));
              (1004%Z, ("aligning", 45%float)) ]) = Some s'
       /\ _tasks (queue s') !! "job-1" = Some t'
       /\ progress t' = 45%float
       /\ status t' = ALIGNING
       /\ message t' = "Status: aligning".
Proof.
  assert (coroutines running_state !! "job-1"
          = Some (Awaiting "uploads/1.wav" TranscriptionOptions_default)) as Hc
    by (vm_compute; reflexivity).
  assert (_tasks (queue running_state) !! "job-1" = Some running_record) as Hl
    by (vm_compute; reflexivity).
  split; [exact Hc|]. split; [exact Hl|].
  destruct (progress_callbacks_apply_in_order running_state "job-1" _ _
              running_record
              [ (1003%Z, ("transcribing", 40%float));
                (1004%Z, ("aligning", 45%float)) ] Hc Hl)
    as (s' & t' & Hrun & _ & _ & _ & _ & Hl' & Hlast & _).
  exists s', t'. split; [exact Hrun|]. split; [exact Hl'|]. exact Hlast.
Defined.


Lemma step_acquire_starts (s : System) (tid : string) (now : datetime)
    (t : TaskProgress) (audio_path : string) :
  coroutines s !! tid = Some Waiting ->
  _tasks (queue s) !! tid = Some t ->
  _audio_path t = Some audio_path -> audio_path <> "" ->
  0 < _semaphore (queue s) ->
  exists s1,
    step s (Acquire tid now) = Some s1
    /\ coroutines s1 !! tid
       = Some (Awaiting audio_path
                 (default TranscriptionOptions_default (_options t)))
    /\ _tasks (queue s1) !! tid
       = Some (update_record now (Some PROCESSING) (Some 0%float)
                 (Some "Starting transcription") None t)
    /\ S (_semaphore (queue s1)) = _semaphore (queue s).
Proof.
  intros Hc Hl Hpath Hne Hsem.
  destruct (_semaphore (queue s)) as [|n] eqn:Hn; [lia|].
  destruct audio_path as [|ch rest]; [done|].
  eexists. split.
  - simpl. rewrite Hc. unfold process_task_start, semaphore_acquire.
    rewrite Hn. cbn [mbind option_bind]. unfold process_task_enter.
    cbn [_tasks with_running_tasks with_semaphore]. rewrite Hl, Hpath.
    cbn. reflexivity.
  - cbn [queue coroutines]. rewrite lookup_insert_eq.
    rewrite update_task_semaphore, update_task_lookup, decide_True by done.
    cbn [_tasks _semaphore with_running_tasks with_semaphore]. rewrite Hl.
    done.
Qed.

(** X20: one upload served from end to end.  From any state in which the
    identifier is fresh and a slot is free, uploading a file (with a
    non-empty path), starting its execution, applying the progress
    reports of [transcribe] and ending the pipeline call leaves the
    execution returned and the slot free again, and the record with
    [created_at], [started_at] and [completed_at] at the three clock
    readings; when [transcribe] returns a result the record is COMPLETED
    at 100.0 without error and the result route answers that result;
    when it raises, the record is FAILED with the error text and the
    result route answers 500 with it. *)
Theorem served_upload_reaches_terminal_state {Audio : Type}
    (wx : Whisperx Audio) (BATCH_SIZE : Z) (format_1f : float -> string)
    (s : System) (tid : string) (audio_path : string)
    (options : TranscriptionOptions)
    (t_upload t_start : datetime) (times : list datetime) (t_end : datetime) :
  coroutines s !! tid = None ->
  0 < _semaphore (queue s) ->
  audio_path <> "" ->
  exists s' t',
    run s (served_upload wx BATCH_SIZE tid audio_path options
             t_upload t_start times t_end) = Some s'
    /\ coroutines s' !! tid = Some Returned
    /\ _semaphore (queue s') = _semaphore (queue s)
    /\ _tasks (queue s') !! tid = Some t'
    /\ created_at t' = t_upload
    /\ started_at t' = Some t_start
    /\ completed_at t' = Some t_end
    /\ match snd (transcribe wx BATCH_SIZE audio_path options) with
       | inr r =>
           status t' = COMPLETED
           /\ progress t' = 100%float
           /\ error t' = None
           /\ _task_results (queue s') !! tid = Some r
           /\ snd (get_task_result format_1f (queue s') tid) = inr r
       | inl e =>
           status t' = FAILED
           /\ error t' = Some e
           /\ snd (get_task_result format_1f (queue s') tid)
              = inl (mkHTTPException 500 ("Task failed: " ++ e))
       end.
Proof.
  intros Hfresh Hsem Hne. unfold served_upload.
  destruct (transcribe wx BATCH_SIZE audio_path options) as [reports o].
  cbn [snd].
  set (t0 := {| task_id := tid; status := PENDING; progress := 0%float;
                message := "Task queued"; created_at := t_upload;
                started_at := None; completed_at := None; error := None;
                result := None; _audio_path := Some audio_path;
                _options := Some options |}).
  set (s0 := mkSystem (fst (create_task (queue s) tid t_upload audio_path options))
                      (<[tid := Waiting]> (coroutines s))).
  assert (step s (Upload tid t_upload audio_path options) = Some s0) as Hstep0
    by (simpl; by rewrite Hfresh).
  assert (coroutines s0 !! tid = Some Waiting) as Hc0 by apply lookup_insert_eq.
  assert (_tasks (queue s0) !! tid = Some t0) as Hl0 by apply lookup_insert_eq.
  destruct (step_acquire_starts s0 tid t_start t0 audio_path Hc0 Hl0 eq_refl Hne
              Hsem) as (s1 & Hstep1 & Hc1 & Hl1 & Hsem1).
  cbn [_options t0 default] in Hc1.
  set (t1 := update_record t_start (Some PROCESSING) (Some 0%float)
               (Some "Starting transcription") None t0) in *.
  destruct (run_progress_events (zip times reports) s1 tid audio_path options t1
              Hc1 Hl1)
    as (s2 & t2 & Hrun2 & Hco2 & Hres2 & Hsem2 & _ & Hl2 & _ & He2 & Hr2 & Hcr2
        & Hca2 & Hsa2).
  specialize (Hsa2 ltac:(by eexists)).
  assert (coroutines s2 !! tid = Some (Awaiting audio_path options)) as Hc2
    by (by rewrite Hco2).
  pose proof (process_task_finish_lookup (queue s2) t_end tid (outcome_of o))
    as [_ Hself].
  pose proof (process_task_finish_semaphore (queue s2) t_end tid (outcome_of o))
    as [Hsem3 _].
  set (s3 := mkSystem (fst (process_task_finish (queue s2) t_end tid (outcome_of o)))
                      (<[tid := Returned]> (coroutines s2))).
  assert (step s2 (Finish tid t_end (outcome_of o)) = Some s3) as Hstep3.
  { simpl. rewrite Hc2. by destruct o. }
  assert (run s ([Upload tid t_upload audio_path options; Acquire tid t_start]
                 ++ progress_events tid (zip times reports)
                 ++ [Finish tid t_end (outcome_of o)]) = Some s3) as Hrun.
  { cbn [app run]. rewrite Hstep0, Hstep1, run_app, Hrun2. cbn [run].
    by rewrite Hstep3. }
  assert (_semaphore (queue s3) = _semaphore (queue s)) as Hsemf.
  { cbn [queue s3]. rewrite Hsem3, Hsem2. exact Hsem1. }
  unfold get_task_result, get_task.
  destruct o as [e|r]; cbn [outcome_of] in *; destruct Hself as [Hres3 Hl3];
    rewrite Hl2 in Hl3; cbn [fmap option_fmap option_map] in Hl3.
  - exists s3, (update_record t_end (Some FAILED) None (Some "Transcription failed")
                  (Some e) t2).
    split; [exact Hrun|]. split; [apply lookup_insert_eq|].
    split; [exact Hsemf|]. split; [exact Hl3|].
    rewrite update_record_created_at, update_record_started_at,
      update_record_completed_at, update_record_status, update_record_error.
    rewrite Hcr2, Hsa2. repeat split; try done.
    cbn [queue s3]. rewrite Hl3.
    destruct (_task_results _ !! tid); cbn -[update_record];
      rewrite ?update_record_status, ?update_record_error;
      cbn -[update_record]; done.
  - exists s3, (update_record t_end (Some COMPLETED) (Some 100%float)
                  (Some "Transcription completed successfully") None t2).
    split; [exact Hrun|]. split; [apply lookup_insert_eq|].
    split; [exact Hsemf|]. split; [exact Hl3|].
    rewrite update_record_created_at, update_record_started_at,
      update_record_completed_at, update_record_status, update_record_error,
      update_record_progress.
    rewrite Hcr2, Hsa2, He2. repeat split; try done.
    cbn [queue s3]. rewrite Hl3, Hres3. cbn -[update_record].
    rewrite update_record_status. cbn -[update_record]. done.
Qed.

Lemma served_upload_reaches_terminal_state_witness :
  coroutines (initial 2) !! "job-1" = None
  /\ 0 < _semaphore (queue (initial 2))
  /\ "uploads/1.wav" <> ""
  /\ exists s' t',
       run (initial 2)
         (served_upload sample_whisperx 16 "job-1" "uploads/1.wav"
            TranscriptionOptions_default 1000%Z 1001%Z
            [1002%Z; 1003%Z; 1004%Z; 1005%Z; 1006%Z; 1007%Z; 1008%Z; 1009%Z]
            1010%Z) = Some s'
       /\ _tasks (queue s') !! "job-1" = Some t'
       /\ status t' = COMPLETED
       /\ progress t' = 100%float
       /\ completed_at t' = Some 1010%Z.
Proof.
  assert (coroutines (initial 2) !! "job-1" = None) as Hfresh by reflexivity.
  assert (0 < _semaphore (queue (initial 2))) as Hsem by (simpl; lia).
  assert ("uploads/1.wav" <> "") as Hne by discriminate.
  split; [exact Hfresh|]. split; [exact Hsem|]. split; [exact Hne|].
  destruct (served_upload_reaches_terminal_state sample_whisperx 16
              (fun _ => "100.0") (initial 2) "job-1" "uploads/1.wav"
              TranscriptionOptions_default 1000%Z 1001%Z
              [1002%Z; 1003%Z; 1004%Z; 1005%Z; 1006%Z; 1007%Z; 1008%Z; 1009%Z]
              1010%Z Hfresh Hsem Hne)
    as (s' & t' & Hrun & _ & _ & Hl & _ & _ & Hca & Hcase).
  exists s', t'. split; [exact Hrun|]. split; [exact Hl|].
  change (snd (transcribe sample_whisperx 16 "uploads/1.wav"
                 TranscriptionOptions_default))
    with (@inr string _
            {| res_language := "en";
               segments := [ {| seg_start := 0%float; seg_end := 2.5%float;
                                text := " Hello there."; seg_speaker := None;
                                words := None |} ];
               word_segments := None |}) in Hcase.
  destruct Hcase as (Hst & Hp & _). split; [exact Hst|]. split; [exact Hp|].
  exact Hca.
Defined.


(** * Deletion, as the event loop serves it *)

Lemma execute_spec (s s' : System) (tid : string) (t_start : datetime)
    (reports : list (datetime * (string * float))) (o : Outcome)
    (t_end : datetime) :
  execute s tid t_start reports o t_end = Some s' ->
  coroutines s !! tid = Some Waiting
  /\ (exists c', coroutines s' = <[tid := c']> (coroutines s)
                 /\ finished c' = true)
  /\ _semaphore (queue s') = _semaphore (queue s)
  /\ (forall tid', tid' <> tid ->
        _tasks (queue s') !! tid' = _tasks (queue s) !! tid'
        /\ _task_results (queue s') !! tid' = _task_results (queue s) !! tid')
  /\ (is_Some (_tasks (queue s') !! tid) <-> is_Some (_tasks (queue s) !! tid))
  /\ (_tasks (queue s) !! tid = None ->
      _tasks (queue s') = _tasks (queue s)
      /\ _task_results (queue s') = _task_results (queue s)
      /\ coroutines s' !! tid = Some Returned)
  /\ (is_Some (_task_results (queue s') !! tid) ->
      is_Some (_task_results (queue s) !! tid)
      \/ is_Some (_tasks (queue s') !! tid)).
Proof.
  unfold execute. simpl.
  destruct (coroutines s !! tid) as [[]|] eqn:Hc; try done.
  destruct (process_task_start (queue s) t_start tid) as [[q c]|] eqn:Hst;
    [|done]. simpl. rewrite lookup_insert_eq.
  pose proof (process_task_start_semaphore _ _ _ _ _ Hst) as Hsem.
  pose proof (process_task_start_lookup _ _ _ _ _ Hst) as (Hres & Hother & Hself).
  destruct Hsem as [[-> Hsem]|(a & op & -> & Hsem)].
  - (* the execution returned before the pipeline call *)
    intros [= <-]. simpl. split; [done|]. split; [by exists Returned|].
    split; [done|]. split.
    { intros tid' Hne. by rewrite Hother, Hres. }
    rewrite Hres.
    destruct (_tasks (queue s) !! tid) as [t|] eqn:Hl.
    + destruct Hself as [[_ Hq]|(a & op & Habs & _)]; [|done].
      rewrite Hq. split; [split; eauto|]. split; [done|]. eauto.
    + destruct Hself as [_ Hq]. rewrite Hq.
      split; [done|]. split; [|eauto].
      intros _. split; [|split; [done|apply lookup_insert_eq]].
      apply map_eq. intros tid'. destruct (decide (tid' = tid)) as [->|Hne].
      * by rewrite Hq.
      * by apply Hother.
  - (* the execution went through the pipeline call *)
    destruct (_tasks (queue s) !! tid) as [t|] eqn:Hl;
      [|by destruct Hself as [Habs _]].
    destruct Hself as [[Habs _]|(a' & op' & _ & Hq)]; [done|].
    set (s1 := mkSystem q (<[tid := Awaiting a op]> (coroutines s))).
    destruct (run_progress_events reports s1 tid a op _
                (lookup_insert_eq _ _ _) Hq)
      as (s2 & t2 & Hrun & Hco2 & Hres2 & Hsem2 & Hother2 & Hl2 & _).
    fold s1. rewrite Hrun. simpl. rewrite Hco2. simpl. rewrite lookup_insert_eq.
    pose proof (process_task_finish_lookup (queue s2) t_end tid o)
      as [Hother3 Hself3].
    pose proof (process_task_finish_semaphore (queue s2) t_end tid o)
      as [Hsem3 Hfin3].
    destruct (process_task_finish (queue s2) t_end tid o) as [q3 c3].
    intros [= <-]. simpl in *.
    split; [done|]. split.
    { exists c3. split; [by rewrite insert_insert_eq|done]. }
    split; [lia|]. split.
    { intros tid' Hne. destruct (Hother3 tid' Hne) as [-> ->].
      rewrite Hother2, Hres2 by done. simpl. by rewrite Hother, Hres. }
    assert (is_Some (_tasks q3 !! tid)) as Hsome.
    { destruct o; destruct Hself3 as [_ ->]; rewrite Hl2; simpl; eauto. }
    split; [split; eauto|]. split; [done|]. eauto.
Qed.

Lemma serve_all_app (rs1 rs2 : list Request) (s : System) :
  serve_all s (rs1 ++ rs2)
  = match serve_all s rs1 with
    | Some s1 => serve_all s1 rs2
    | None => None
    end.
Proof.
  revert s. induction rs1 as [|r rs1 IH]; intros s; simpl; [done|].
  destruct (serve s r); [apply IH|done].
Qed.

(** What is served in one go is a run of the transition system. *)
Lemma serve_is_run (s s' : System) (r : Request) :
  serve s r = Some s' -> exists evs, run s evs = Some s'.
Proof.
  destruct r as [tid now a o|tid t_start reports o t_end|tid|tid|now h];
    cbn [serve].
  - intros Hstep. eexists [_]. cbn [run]. by rewrite Hstep.
  - unfold execute.
    destruct (step s (Acquire tid t_start)) as [s1|] eqn:Hstep1; [|done].
    destruct (coroutines s1 !! tid) as [[|a op| |]|];
      try (intros [= <-]; exists [Acquire tid t_start]; cbn [run]; by rewrite Hstep1).
    destruct (run s1 (progress_events tid reports)) as [s2|] eqn:Hrun; [|done].
    intros Hstep3.
    exists (Acquire tid t_start
              :: (progress_events tid reports ++ [Finish tid t_end o])%list).
    cbn [run]. rewrite Hstep1, run_app, Hrun. cbn [run]. by rewrite Hstep3.
  - intros Hstep. eexists [_]. cbn [run]. by rewrite Hstep.
  - intros Hstep. eexists [_]. cbn [run]. by rewrite Hstep.
  - intros Hstep. eexists [_]. cbn [run]. by rewrite Hstep.
Qed.

Lemma serve_all_is_run (rs : list Request) (s s' : System) :
  serve_all s rs = Some s' -> exists evs, run s evs = Some s'.
Proof.
  revert s. induction rs as [|r rs IH]; intros s; simpl.
  - intros [= <-]. by exists [].
  - destruct (serve s r) as [s1|] eqn:Hserve; [|done]. intros Hrest.
    destruct (serve_is_run s s1 r Hserve) as [evs1 Hrun1].
    destruct (IH s1 Hrest) as [evs2 Hrun2].
    exists (evs1 ++ evs2)%list. by rewrite run_app, Hrun1.
Qed.

Lemma initial_at_rest (C : nat) : at_rest (initial C).
Proof.
  intros tid. simpl. rewrite !lookup_empty. split; [done|].
  by intros [? ?].
Qed.

Lemma serve_at_rest (s s' : System) (r : Request) :
  at_rest s -> serve s r = Some s' -> at_rest s'.
Proof.
  intros Hs Hserve tid. destruct (Hs tid) as [Hco Horph].
  destruct r as [tid0 now a o|tid0 t_start reports o t_end|tid0|tid0|now h];
    cbn [serve] in Hserve.
  - simpl in Hserve. destruct (coroutines s !! tid0) eqn:Hc0; [done|].
    injection Hserve as <-. simpl.
    destruct (decide (tid = tid0)) as [->|Hne].
    + rewrite !lookup_insert_eq. split; [by intros c [= <-]|eauto].
    + by rewrite !lookup_insert_ne.
  - destruct (execute_spec s s' tid0 t_start reports o t_end Hserve)
      as (_ & (c' & Hco' & Hfin) & _ & Hother & Hiff & _ & Hres).
    rewrite Hco'. destruct (decide (tid = tid0)) as [->|Hne].
    + rewrite lookup_insert_eq. split.
      * intros c [= <-]. by destruct c'.
      * intros Hr. destruct (Hres Hr) as [Hold|Hnew]; [|done].
        apply Hiff. by apply Horph.
    + rewrite lookup_insert_ne by done.
      destruct (Hother tid Hne) as [-> ->]. done.
  - simpl in Hserve. injection Hserve as <-. simpl.
    rewrite get_task_results, get_task_lookup. split; [done|].
    intros Hr. apply Horph in Hr as [t Ht]. rewrite Ht.
    case_decide; simpl; eauto.
  - simpl in Hserve. injection Hserve as <-. simpl. split; [done|].
    destruct (delete_task_lookup (queue s) tid0 tid)
      as (Hother & Hgone & Hnone & Hres).
    destruct (decide (tid = tid0)) as [->|Hne].
    + destruct (_tasks (queue s) !! tid0) as [t|] eqn:Hl.
      * rewrite Hres by eauto. by intros [? ?].
      * rewrite (Hnone eq_refl). rewrite Hl. done.
    + destruct (Hother Hne) as [-> ->]. done.
  - simpl in Hserve. injection Hserve as <-. simpl. split; [done|].
    rewrite cleanup_old_tasks_tasks, cleanup_old_tasks_results.
    destruct (swept (queue s) now h tid); [by intros [? ?]|done].
Qed.

Lemma serve_all_at_rest (rs : list Request) (s s' : System) :
  at_rest s -> serve_all s rs = Some s' -> at_rest s'.
Proof.
  revert s. induction rs as [|r rs IH]; intros s Hs; simpl.
  - by intros [= <-].
  - destruct (serve s r) as [s1|] eqn:Hserve; [|done].
    apply IH. by apply (serve_at_rest s s1 r).
Qed.

Lemma at_rest_in_pipeline (s : System) : at_rest s -> in_pipeline s = 0.
Proof.
  intros Hs. unfold in_pipeline. apply map_size_empty_iff, map_empty.
  intros tid. apply map_lookup_filter_None. right. intros c Hc. simpl.
  destruct (Hs tid) as [Hco _]. rewrite (Hco c Hc). done.
Qed.

Lemma serve_gone (s s' : System) (r : Request) (tid : string) :
  gone s tid -> serve s r = Some s' -> gone s' tid.
Proof.
  intros (Hc & Hl & Hr) Hserve. unfold gone.
  destruct r as [tid0 now a o|tid0 t_start reports o t_end|tid0|tid0|now h];
    cbn [serve] in Hserve.
  - simpl in Hserve. destruct (coroutines s !! tid0) eqn:Hc0; [done|].
    injection Hserve as <-. simpl.
    assert (tid <> tid0) by (intros ->; destruct Hc; congruence).
    by rewrite !lookup_insert_ne.
  - destruct (execute_spec s s' tid0 t_start reports o t_end Hserve)
      as (_ & (c' & Hco' & _) & _ & Hother & _ & Hsame & _).
    destruct (decide (tid = tid0)) as [->|Hne].
    + destruct (Hsame Hl) as (-> & -> & ->). eauto.
    + rewrite Hco', lookup_insert_ne by done.
      destruct (Hother tid Hne) as [-> ->]. done.
  - simpl in Hserve. injection Hserve as <-. simpl.
    rewrite get_task_results, get_task_lookup. split; [done|].
    split; [|done]. case_decide; by rewrite Hl.
  - simpl in Hserve. injection Hserve as <-. simpl. split; [done|].
    destruct (delete_task_lookup (queue s) tid0 tid) as (Hother & _ & Hnone & _).
    destruct (decide (tid = tid0)) as [->|Hne].
    + by rewrite (Hnone Hl).
    + by destruct (Hother Hne) as [-> ->].
  - simpl in Hserve. injection Hserve as <-. simpl. split; [done|].
    rewrite cleanup_old_tasks_tasks, cleanup_old_tasks_results.
    unfold swept. by rewrite Hl.
Qed.

Lemma serve_all_gone (rs : list Request) (s s' : System) (tid : string) :
  gone s tid -> serve_all s rs = Some s' -> gone s' tid.
Proof.
  revert s. induction rs as [|r rs IH]; intros s Hs; simpl.
  - by intros [= <-].
  - destruct (serve s r) as [s1|] eqn:Hserve; [|done].
    apply IH. by apply (serve_gone s s1 r).
Qed.

Lemma execute_of_missing_task (s : System) (tid : string) (t_start : datetime)
    (reports : list (datetime * (string * float))) (o : Outcome)
    (t_end : datetime) :
  coroutines s !! tid = Some Waiting ->
  _tasks (queue s) !! tid = None ->
  0 < _semaphore (queue s) ->
  exists s',
    execute s tid t_start reports o t_end = Some s'
    /\ coroutines s' !! tid = Some Returned
    /\ _tasks (queue s') = _tasks (queue s)
    /\ _task_results (queue s') = _task_results (queue s)
    /\ _semaphore (queue s') = _semaphore (queue s).
Proof.
  intros Hc Hl Hsem.
  destruct (_semaphore (queue s)) as [|n] eqn:Hn; [lia|].
  assert (step s (Acquire tid t_start)
          = Some (mkSystem
                    (semaphore_release
                       (process_task_finally
                          (with_running_tasks ({[tid]} ∪ _running_tasks (queue s))
                             (with_semaphore n (queue s))) tid))
                    (<[tid := Returned]> (coroutines s)))) as Hstep.
  { simpl. rewrite Hc. unfold process_task_start, semaphore_acquire.
    rewrite Hn. simpl. unfold process_task_enter. simpl. rewrite Hl. simpl.
    reflexivity. }
  eexists. split.
  - unfold execute. rewrite Hstep. cbn [coroutines].
    rewrite lookup_insert_eq. reflexivity.
  - cbn [coroutines queue]. rewrite lookup_insert_eq. done.
Qed.

Lemma served_at_rest_slots (C : nat) (rs : list Request) (s : System) :
  serve_all (initial C) rs = Some s ->
  at_rest s /\ _semaphore (queue s) = C.
Proof.
  intros Hserve.
  assert (at_rest s) as Hrest
    by exact (serve_all_at_rest rs _ _ (initial_at_rest C) Hserve).
  split; [done|].
  destruct (serve_all_is_run rs _ _ Hserve) as [evs Hrun].
  pose proof (reachable_conserves_slots C evs s Hrun) as Hinv.
  rewrite (at_rest_in_pipeline s Hrest) in Hinv. lia.
Qed.




(** * What [get_stats] counts *)

Lemma count_status_size (P : TaskStatus -> bool)
    (R : string * TaskProgress -> Prop) `{!forall kv, Decision (R kv)}
    (m : gmap string TaskProgress) :
  (forall kv, P (status kv.2) = true <-> R kv) ->
  count_status P m = size (filter R m).
Proof.
  intros HPR. induction m as [|tid t m Hl IH] using map_ind.
  - unfold count_status. by rewrite map_to_list_empty, map_filter_empty, map_size_empty.
  - rewrite count_status_insert_fresh by done. rewrite IH.
    rewrite map_filter_insert.
    destruct (P (status t)) eqn:HP; case_decide as HR; simpl.
    + rewrite map_size_insert_None; [done|].
      apply map_lookup_filter_None. by left.
    + by apply (HPR (tid, t)) in HP.
    + apply (HPR (tid, t)) in HR. simpl in HR. congruence.
    + by rewrite delete_id.
Qed.

(** C10: the four counts returned by [get_stats] add up to [total], which
    is the number of records in the store; [pending], [completed] and
    [failed] are the numbers of records whose status is PENDING,
    COMPLETED and FAILED, and [processing] is the number of records whose
    status is PROCESSING, TRANSCRIBING, ALIGNING or DIARIZING; every
    status meets exactly one of these four conditions, so every record
    is counted in exactly one of the four. *)
Theorem get_stats_buckets_sum_to_total (q : TaskQueue) :
  pending (get_stats q) + processing (get_stats q)
  + completed (get_stats q) + failed (get_stats q) = total (get_stats q)
  /\ total (get_stats q) = size (_tasks q)
  /\ pending (get_stats q)
     = size (filter (fun kv : string * TaskProgress => status kv.2 = PENDING)
               (_tasks q))
  /\ processing (get_stats q)
     = size (filter (fun kv : string * TaskProgress =>
                       status kv.2 ∈ [PROCESSING; TRANSCRIBING; ALIGNING; DIARIZING])
               (_tasks q))
  /\ completed (get_stats q)
     = size (filter (fun kv : string * TaskProgress => status kv.2 = COMPLETED)
               (_tasks q))
  /\ failed (get_stats q)
     = size (filter (fun kv : string * TaskProgress => status kv.2 = FAILED)
               (_tasks q))
  /\ (forall st : TaskStatus,
        Nat.b2n (bool_decide (st = PENDING))
        + Nat.b2n (bool_decide
                     (st ∈ [PROCESSING; TRANSCRIBING; ALIGNING; DIARIZING]))
        + Nat.b2n (bool_decide (st = COMPLETED))
        + Nat.b2n (bool_decide (st = FAILED)) = 1).
Proof.
  split.
  { simpl. unfold count_status. rewrite <- length_map_to_list.
    apply filter_four_way. intros [k t]. apply status_one_bucket. }
  split; [done|]. simpl.
  split; [|split; [|split; [|split]]].
  - apply count_status_size.
    intros kv. unfold is_pending. apply bool_decide_eq_true.
  - apply count_status_size.
    intros kv. rewrite !elem_of_cons, elem_of_nil.
    destruct (status kv.2); simpl; split; try done; try (intros _; tauto);
      intros H; destruct_or!; done.
  - apply count_status_size.
    intros kv. unfold is_completed. apply bool_decide_eq_true.
  - apply count_status_size.
    intros kv. unfold is_failed. apply bool_decide_eq_true.
  - intros []; vm_compute; reflexivity.
Qed.
